(** * midr: the Archimedean copula engine ([src/midr/archimedean.py])

    A shallow embedding of the numerical core of midr (log-space
    primitives, the Eulerian polylogarithm, the Clayton, Frank and Gumbel
    generators and densities, the estimators) and the proofs of its
    specified properties.

    Numbers.  The program computes with numpy [float64] values.  They are
    embedded as extended reals: a finite value carries an exact real
    number, and the three special values [inf], [-inf] and [nan] are
    explicit.  Arithmetic on finite values is exact (no rounding, no
    overflow, no signed zero: a zero divisor counts as [+0.0]); the
    special values propagate as numpy propagates them.  Transcendental
    functions are those of the Standard Library ([exp], [ln], [Rpower]).
    Where a property is about the float64 range itself, the overflow rule
    is applied explicitly ([overflow], [float_max]).

    Errors.  Python exceptions are values of an error monad; numpy's
    warnings (log of zero, division by zero) are not errors.  Two
    operations of the program are Python's, not numpy's, and raise
    [OverflowError] outside the float64 range: the conversion of a Python
    integer stored into a float64 array ([float_of_int], which also rounds
    to the nearest float64) and the power of two Python floats ([pypow]).

    Libraries.  [scipy.optimize.minimize] is a parameter of the
    estimators; [scipy.special.binom], [scipy.special.factorial] and
    [scipy.stats.poisson.logcdf] are given by their mathematical
    definitions. *)

From Stdlib Require Import Reals Lra Lia List ZArith Bool Arith Permutation.
Import ListNotations.

Open Scope R_scope.

(* ================================================================== *)
(** * Python exceptions *)
(* ================================================================== *)

Inductive pyexc : Set :=
| ValueError
| ZeroDivisionError
| AssertionError
| IndexError
| OverflowError.

Inductive result (A : Type) : Type :=
| Ok (a : A)
| Raise (e : pyexc).

Arguments Ok {A} a.
Arguments Raise {A} e.

Definition bind {A B : Type} (c : result A) (k : A -> result B) : result B :=
  match c with
  | Ok a => k a
  | Raise e => Raise e
  end.

Notation "x <- c ;; k" := (bind c (fun x => k))
  (at level 61, c at next level, right associativity).

Fixpoint mapM {A B : Type} (f : A -> result B) (l : list A) : result (list B) :=
  match l with
  | [] => Ok []
  | a :: l' => b <- f a ;; bs <- mapM f l' ;; Ok (b :: bs)
  end.

Definition raises {A : Type} (c : result A) : Prop :=
  exists e, c = Raise e.

(* ================================================================== *)
(** * float64 values in exact arithmetic *)
(* ================================================================== *)

Inductive npfloat : Type :=
| Fin (r : R)
| PInf
| NInf
| NaN.

Definition Rltb (a b : R) : bool := if Rlt_dec a b then true else false.
Definition Rleb (a b : R) : bool := if Rle_dec a b then true else false.
Definition Reqb (a b : R) : bool := if Req_dec_T a b then true else false.

(** [x] is an integer-valued real, and its parity. *)
Definition Rintegral (x : R) : bool := Reqb (IZR (Int_part x)) x.
Definition Rodd (x : R) : bool := Z.odd (Int_part x).

Definition is_nan (x : npfloat) : bool :=
  match x with NaN => true | _ => false end.

(** ** Comparisons: every comparison with [nan] is false. *)

Definition flt (x y : npfloat) : bool :=
  match x, y with
  | Fin a, Fin b => Rltb a b
  | NInf, Fin _ | NInf, PInf | Fin _, PInf => true
  | _, _ => false
  end.

Definition feq (x y : npfloat) : bool :=
  match x, y with
  | Fin a, Fin b => Reqb a b
  | PInf, PInf | NInf, NInf => true
  | _, _ => false
  end.

Definition fle (x y : npfloat) : bool := flt x y || feq x y.
Definition fgt (x y : npfloat) : bool := flt y x.
Definition fge (x y : npfloat) : bool := fle y x.
Definition fne (x y : npfloat) : bool := negb (feq x y).

(** ** Arithmetic *)

Definition fneg (x : npfloat) : npfloat :=
  match x with
  | Fin a => Fin (- a)
  | PInf => NInf
  | NInf => PInf
  | NaN => NaN
  end.

Definition fadd (x y : npfloat) : npfloat :=
  match x, y with
  | NaN, _ | _, NaN => NaN
  | Fin a, Fin b => Fin (a + b)
  | PInf, NInf | NInf, PInf => NaN
  | PInf, _ | _, PInf => PInf
  | NInf, _ | _, NInf => NInf
  end.

Definition fsub (x y : npfloat) : npfloat := fadd x (fneg y).

(** The sign of a value that is not [nan]: [-1], [0] or [1]. *)
Definition Rsign (a : R) : R :=
  if Rltb 0 a then 1 else if Rltb a 0 then -1 else 0.

(** An infinity of the sign of [s]; [nan] when [s] is zero. *)
Definition inf_of_sign (s : R) : npfloat :=
  if Rltb 0 s then PInf else if Rltb s 0 then NInf else NaN.

Definition fmul (x y : npfloat) : npfloat :=
  match x, y with
  | NaN, _ | _, NaN => NaN
  | Fin a, Fin b => Fin (a * b)
  | Fin a, PInf | PInf, Fin a => inf_of_sign a
  | Fin a, NInf | NInf, Fin a => inf_of_sign (- a)
  | PInf, PInf | NInf, NInf => PInf
  | PInf, NInf | NInf, PInf => NInf
  end.

(** numpy division: dividing by zero gives an infinity or [nan], with a
    warning and no exception. *)
Definition fdiv (x y : npfloat) : npfloat :=
  match x, y with
  | NaN, _ | _, NaN => NaN
  | Fin a, Fin b => if Reqb b 0 then inf_of_sign a else Fin (a / b)
  | Fin _, PInf | Fin _, NInf => Fin 0
  | PInf, Fin b => if Rltb b 0 then NInf else PInf
  | NInf, Fin b => if Rltb b 0 then PInf else NInf
  | _, _ => NaN
  end.

(** Division of two Python floats: a zero divisor raises. *)
Definition pydiv (x y : npfloat) : result npfloat :=
  if feq y (Fin 0) then Raise ZeroDivisionError else Ok (fdiv x y).

Definition fabs (x : npfloat) : npfloat :=
  match x with
  | Fin a => Fin (Rabs a)
  | PInf | NInf => PInf
  | NaN => NaN
  end.

(** [np.sign] *)
Definition fsign (x : npfloat) : npfloat :=
  match x with
  | Fin a => Fin (Rsign a)
  | PInf => Fin 1
  | NInf => Fin (-1)
  | NaN => NaN
  end.

(** [np.maximum]: [nan] if either argument is. *)
Definition fmaximum (x y : npfloat) : npfloat :=
  if is_nan x || is_nan y then NaN else if flt x y then y else x.

(** [np.floor] and [np.ceil] *)
Definition ffloor (x : npfloat) : npfloat :=
  match x with Fin a => Fin (IZR (Int_part a)) | _ => x end.

Definition fceil (x : npfloat) : npfloat :=
  match x with Fin a => Fin (- IZR (Int_part (- a))) | _ => x end.

(** ** Elementary functions *)

Definition fexp (x : npfloat) : npfloat :=
  match x with
  | Fin a => Fin (exp a)
  | PInf => PInf
  | NInf => Fin 0
  | NaN => NaN
  end.

(** [np.log]: [-inf] at zero and [nan] below it, never an exception. *)
Definition flog (x : npfloat) : npfloat :=
  match x with
  | Fin a => if Rltb 0 a then Fin (ln a) else if Reqb a 0 then NInf else NaN
  | PInf => PInf
  | NInf => NaN
  | NaN => NaN
  end.

Definition fexpm1 (x : npfloat) : npfloat := fsub (fexp x) (Fin 1).
Definition flog1p (x : npfloat) : npfloat := flog (fadd (Fin 1) x).

(** [x ** y] on float64, after C99 [pow]. *)
Definition fpow (x y : npfloat) : npfloat :=
  if feq y (Fin 0) then Fin 1
  else if feq x (Fin 1) then Fin 1
  else
    match x, y with
    | NaN, _ | _, NaN => NaN
    | Fin a, Fin b =>
        if Rltb 0 a then Fin (Rpower a b)
        else if Reqb a 0 then (if Rltb 0 b then Fin 0 else PInf)
        else if Rintegral b
             then Fin ((if Rodd b then -1 else 1) * Rpower (- a) b)
             else NaN
    | Fin a, PInf =>
        if Rltb (Rabs a) 1 then Fin 0
        else if Reqb (Rabs a) 1 then Fin 1 else PInf
    | Fin a, NInf =>
        if Rltb (Rabs a) 1 then PInf
        else if Reqb (Rabs a) 1 then Fin 1 else Fin 0
    | PInf, Fin b => if Rltb 0 b then PInf else Fin 0
    | NInf, Fin b =>
        if Rltb 0 b
        then (if Rintegral b && Rodd b then NInf else PInf)
        else Fin 0
    | PInf, PInf | NInf, PInf => PInf
    | PInf, NInf | NInf, NInf => Fin 0
    end.

(** The largest finite float64, [(2 - 2^-52) * 2^1023]. *)
Definition float_max : R := (2 - / 2 ^ 52) * 2 ^ 1023.

(** The overflow rule of float64: a result beyond [float_max] in
    magnitude becomes an infinity (rounding is still left out). *)
Definition overflow (x : npfloat) : npfloat :=
  match x with
  | Fin r =>
      if Rltb float_max r then PInf
      else if Rltb r (- float_max) then NInf else x
  | _ => x
  end.

(** [x ** y] for two Python floats.  Python raises [OverflowError] when
    finite operands give a result beyond the float64 range, where numpy
    returns an infinity.  An exponent that is itself beyond the range
    reaches the power as an infinity (Python's division does not raise
    on overflow), and then nothing is raised. *)
Definition pypow (x y : npfloat) : result npfloat :=
  match overflow y with
  | Fin _ =>
      match fpow x y with
      | Fin v =>
          if Rltb float_max (Rabs v) then Raise OverflowError else Ok (Fin v)
      | r => Ok r
      end
  | y' => Ok (fpow x y')
  end.

(** ** Vectors and matrices

    A one-dimensional array is the list of its entries; a two-dimensional
    array is the list of its rows, all of one length [shape1]. *)

Definition vector := list npfloat.
Definition matrix := list (list npfloat).

Definition shape0 (U : matrix) : nat := length U.
Definition shape1 (U : matrix) : nat := length (hd [] U).

Definition rectangular (U : matrix) : Prop :=
  Forall (fun row => length row = shape1 U) U.

Definition of_nat (n : nat) : npfloat := Fin (INR n).

(** [np.sum] over a vector, and over [axis=1] of a matrix. *)
Definition npsum (v : vector) : npfloat := fold_right fadd (Fin 0) v.
Definition npsum_axis1 (U : matrix) : vector := map npsum U.

(** Python's builtin [max] over a sequence: the first element is kept
    until a later one compares greater; an empty sequence raises. *)
Definition pymax (v : vector) : result npfloat :=
  match v with
  | [] => Raise ValueError
  | x :: v' => Ok (fold_left (fun m y => if fgt y m then y else m) v' x)
  end.

(** [np.sort]: ascending, [nan] last. *)
Fixpoint sort_insert (x : npfloat) (l : vector) : vector :=
  match l with
  | [] => [x]
  | y :: l' => if fle x y || is_nan y then x :: l else y :: sort_insert x l'
  end.

Definition npsort (v : vector) : vector := fold_right sort_insert [] v.

(* ================================================================== *)
(** * Stable log-space primitives *)
(* ================================================================== *)

(** [lsum(x)]: log of the sum of [x], the largest log factored out. *)
Definition lsum (x : vector) : result npfloat :=
  let lx := map flog x in
  x_max <- pymax lx ;;
  Ok (fadd x_max (flog (npsum (map (fun l => fexp (fsub l x_max)) lx)))).

(** The loop of [lssum]: the branch is taken on [b_i[i] >= 0.0]. *)
Definition lssum_step (b_max : npfloat) (results b : npfloat) : npfloat :=
  if fge b (Fin 0)
  then fadd results (fexp (fsub b b_max))
  else fsub results (fexp (fsub b b_max)).

Definition lssum (x_values : vector) : result npfloat :=
  let b_i := npsort (map flog (map fabs x_values)) in
  b_max <- pymax b_i ;;
  let results := fold_left (lssum_step b_max) b_i (Fin 0) in
  Ok (fadd b_max (flog results)).

(** [log1mexp(x)]: log(1 - exp(-x)), branching at log 2. *)
Definition log1mexp (x_val : npfloat) : npfloat :=
  if fle x_val (flog (Fin 2))
  then flog (fneg (fexpm1 (fneg x_val)))
  else flog1p (fneg (fexp (fneg x_val))).

(** [log1pexp(x)] is [np.logaddexp(0.0, x)]. *)
Definition log1pexp (x : npfloat) : npfloat :=
  flog (fadd (fexp (Fin 0)) (fexp x)).

(* ================================================================== *)
(** * Scalars passed as the dependence parameter

    [theta] reaches the density functions either as a Python [float]
    (a literal, as in the doctests) or as a numpy value (an entry of the
    optimizer's iterate).  The two differ in one operation: dividing a
    Python float by a zero Python float raises [ZeroDivisionError], while
    numpy division returns an infinity or [nan]. *)
(* ================================================================== *)

Inductive scalar : Type :=
| PyFloat (v : npfloat)
| NpFloat (v : npfloat).

Definition sval (s : scalar) : npfloat :=
  match s with PyFloat v | NpFloat v => v end.

(** [a / theta] where [a] is a Python float. *)
Definition div_by (a : npfloat) (theta : scalar) : result npfloat :=
  match theta with
  | PyFloat v => pydiv a v
  | NpFloat v => Ok (fdiv a v)
  end.

(** [x ** e] where [x] is a Python float and [e] was computed from
    [theta]: a Python float when [theta] is one, a numpy value otherwise. *)
Definition pow_by (x e : npfloat) (theta : scalar) : result npfloat :=
  match theta with
  | PyFloat _ => pypow x e
  | NpFloat _ => Ok (fpow x e)
  end.

Definition getf (v : vector) (i : nat) : npfloat := nth i v NaN.

(* ================================================================== *)
(** * Diagonal statistic and the estimators *)
(* ================================================================== *)

(** [diag_copula]: the maximum of every row. *)
Definition diag_copula (u_values : matrix) : result vector :=
  mapM pymax u_values.

(** A constraint of [scipy.optimize.minimize]: for type ['ineq'] the
    function must be non-negative at a feasible point, for ['eq'] zero. *)
Inductive ctype : Set := Ineq | Eq.

Record constraint : Type := { c_type : ctype; c_fun : npfloat -> npfloat }.

Record OptimizeResult : Type := { success : bool; res_x : vector }.

Definition satisfies (c : constraint) (x : npfloat) : bool :=
  match c_type c with
  | Ineq => fge (c_fun c x) (Fin 0)
  | Eq => feq (c_fun c x) (Fin 0)
  end.

Definition feasible (cs : list constraint) (x : npfloat) : bool :=
  forallb (fun c => satisfies c x) cs.

Definition optimizer : Type :=
  (npfloat -> result npfloat) -> npfloat -> list constraint ->
  result OptimizeResult.

Definition diag_pdf_fun : Type := matrix -> scalar -> bool -> result vector.

(** The objective [log_ddelta] local to [max_diag_pdf]: the optimizer
    passes its iterate, a numpy value. *)
Definition log_ddelta (diag_pdf : diag_pdf_fun) (theta : npfloat)
    (u_val : matrix) : result npfloat :=
  v <- diag_pdf u_val (NpFloat theta) true ;; Ok (fneg (npsum v)).

(** [max_diag_pdf]: [minimize] is scipy's and is a parameter here. *)
Definition max_diag_pdf (minimize : optimizer) (u_values : matrix)
    (diag_pdf : diag_pdf_fun) (init : npfloat) (cs : list constraint)
  : result npfloat :=
  res <- minimize (fun x => log_ddelta diag_pdf x u_values) init cs ;;
  if success res then Ok (getf (res_x res) 0) else Ok NaN.

(* ================================================================== *)
(** * Clayton *)
(* ================================================================== *)

Definition ipsi_clayton (x theta : npfloat) (is_log : bool) : npfloat :=
  let v := fmul (fsign theta) (fsub (fpow x (fneg theta)) (Fin 1)) in
  if is_log then flog v else v.

Definition psi_clayton (x : npfloat) (theta : scalar) : result npfloat :=
  e <- div_by (Fin (-1)) theta ;;
  Ok (fpow (fmaximum (fadd (Fin 1) (fmul (fsign (sval theta)) x)) (Fin 0)) e).

Definition pdf_clayton (u_values : matrix) (theta : scalar) (is_log : bool)
  : result vector :=
  let th := sval theta in
  let d := shape1 u_values in
  let t := npsum_axis1 (map (map (fun x => ipsi_clayton x th false)) u_values) in
  let lu := npsum_axis1 (map (map flog) u_values) in
  let const_a := flog1p th in
  let const_b := fadd (Fin 1) th in
  let sum_seq :=
    if fgt th (Fin 0)
    then npsum (map (fun i => flog1p (fmul th (of_nat i))) (seq 1 (d - 1)))
    else Fin 0 in
  let const_c :=
    if fgt th (Fin 0) then map flog1p t else map (fun ti => flog1p (fneg ti)) t in
  inv <- div_by (Fin 1) theta ;;
  let const_d := fadd (of_nat d) inv in
  Ok (map (fun i =>
        let v :=
          if flt th (Fin 0) then
            if flt (getf t i) (Fin 1)
            then fsub (fsub const_a (fmul const_b (getf lu i)))
                      (fmul const_d (getf const_c i))
            else NInf
          else if fgt th (Fin 0) then
            fsub (fsub sum_seq (fmul const_b (getf lu i)))
                 (fmul const_d (getf const_c i))
          else Fin 0 in
        if is_log then v else fexp v)
      (seq 0 (shape0 u_values))).

Definition diag_pdf_clayton (u_values : matrix) (theta : scalar) (is_log : bool)
  : result vector :=
  y <- diag_copula u_values ;;
  let th := sval theta in
  let d := of_nat (shape1 u_values) in
  inv <- div_by (Fin 1) theta ;;
  let base yi :=
    fmul (fsub d (Fin 1)) (fsub (Fin 1) (fpow yi th)) in
  if is_log
  then Ok (map (fun yi =>
         fsub (flog d) (fmul (fadd (Fin 1) inv) (flog1p (base yi)))) y)
  else Ok (map (fun yi =>
         fmul d (fpow (fadd (Fin 1) (base yi)) (fneg (fadd (Fin 1) inv)))) y).

Definition clayton_constraints : list constraint :=
  [ {| c_type := Ineq; c_fun := fun x => Fin (1 / 10 ^ 14) |};
    {| c_type := Ineq; c_fun := fun x => fsub (Fin 1000) x |} ].

Definition dmle_copula_clayton (minimize : optimizer) (u_values : matrix)
  : result npfloat :=
  max_diag_pdf minimize u_values diag_pdf_clayton (Fin (1 / 2))
    clayton_constraints.

(* ================================================================== *)
(** * Gumbel: closed-form estimator and generators *)
(* ================================================================== *)

Definition dmle_copula_gumbel (u_values : matrix) : result npfloat :=
  y <- diag_copula u_values ;;
  l <- lsum (map (fun yi => fneg (flog yi)) y) ;;
  let theta := fsub (flog (of_nat (shape0 u_values))) l in
  let theta := fdiv (flog (of_nat (shape1 u_values))) theta in
  pymax [theta; Fin 1].

Definition ipsi_gumbel (u theta : npfloat) (is_log : bool) : npfloat :=
  if is_log
  then fmul theta (flog (fneg (flog u)))
  else fpow (fneg (flog u)) theta.

Definition psi_gumbel (u : npfloat) (theta : scalar) : result npfloat :=
  e <- div_by (Fin 1) theta ;;
  Ok (fexp (fneg (fpow u e))).

Definition diag_pdf_gumbel (u_values : matrix) (theta : scalar) (is_log : bool)
  : result vector :=
  y <- diag_copula u_values ;;
  let d := of_nat (shape1 u_values) in
  alpha <- div_by (Fin 1) theta ;;
  da <- pow_by d alpha theta ;;
  if is_log
  then Ok (map (fun yi =>
         fadd (fmul (fsub da (Fin 1)) (flog yi)) (fmul alpha (flog d))) y)
  else Ok (map (fun yi => fmul da (fpow yi (fsub da (Fin 1)))) y).

(* ================================================================== *)
(** * Frank: generators and diagonal density *)
(* ================================================================== *)

Definition ipsi_frank (u theta : npfloat) (is_log : bool) : npfloat :=
  let mapping_function x :=
    if fle x (fmul (Fin (1 / 100)) (fabs theta)) then
      fneg (flog (fdiv (fexpm1 (fmul (fneg x) theta)) (fexpm1 (fneg theta))))
    else if fgt (fexp (fneg theta)) (Fin 0)
            && flt (fabs (fsub theta (fmul x theta))) (Fin (1 / 2)) then
      fneg (flog1p (fdiv (fmul (fexp (fneg theta))
                                (fexpm1 (fsub theta (fmul x theta))))
                         (fexpm1 (fneg theta))))
    else
      fneg (flog1p (fdiv (fsub (fexp (fmul (fneg x) theta)) (fexp (fneg theta)))
                         (fexpm1 (fneg theta)))) in
  if is_log then flog (mapping_function u) else mapping_function u.

(** [np.finfo(float).eps] *)
Definition float_eps : R := / 2 ^ 52.

Definition psi_frank (u theta : npfloat) : npfloat :=
  if fgt theta (Fin 0) then
    fdiv (fneg (log1mexp (fsub u (log1mexp theta)))) theta
  else if feq theta (Fin 0) then
    fexp (fneg u)
  else if flt theta (flog (Fin float_eps)) then
    fdiv (fneg (log1pexp (fneg (fadd u theta)))) theta
  else
    fdiv (fneg (flog1p (fmul (fexp (fneg u)) (fexpm1 (fneg theta))))) theta.

Definition diag_pdf_frank (u_values : matrix) (theta : scalar) (is_log : bool)
  : result vector :=
  y <- diag_copula u_values ;;
  let th := sval theta in
  let yt := map (fun yi => fmul yi th) y in
  let d := of_nat (shape1 u_values) in
  let delt_dcom x :=
    let ep := fdiv (fsub (fexp (fneg x)) (fexp (fsub x th)))
                   (fneg (fexpm1 (fneg x))) in
    let delt := fmul (fexp (fneg x)) (fadd (Fin 1) ep) in
    let d1 := fsub d (Fin 1) in
    let dcom := fadd d (fmul d1 ep) in
    let dcom_time := fmul (fadd (Fin 1) ep) delt in
    (delt, dcom, dcom_time, d1) in
  let finish res :=
    if is_log then fsub (flog d) (flog res) else fdiv d res in
  let ddiagepoly2 x :=
    let '(delt, dcom, dcom_time, d1) := delt_dcom x in
    let res :=
      fmul (fdiv (fmul d1 (fsub d (Fin 2))) (Fin 2))
           (fadd (Fin 1) (fmul (fdiv (fsub d (Fin 3)) (Fin 3)) delt)) in
    finish (fadd (fmul res dcom_time) dcom) in
  let ddiagepoly4 x :=
    let '(delt, dcom, dcom_time, d1) := delt_dcom x in
    let res :=
      fmul (fdiv (fmul (fsub d (Fin 1)) (fsub d (Fin 2))) (Fin 2))
        (fadd (Fin 1)
           (fmul (fmul (fdiv (fsub d (Fin 3)) (Fin 3)) delt)
              (fadd (Fin 1)
                 (fmul (fmul (fdiv (fsub d (Fin 4)) (Fin 4)) delt)
                    (fadd (Fin 1)
                       (fmul (fdiv (fsub d (Fin 5)) (Fin 5)) delt)))))) in
    finish (fadd (fmul res dcom_time) dcom) in
  let ddiagem1 x :=
    let h := fneg (fexpm1 (fneg th)) in
    let ie := fneg (fexpm1 (fneg x)) in
    let res := fsub (fpow (fdiv h ie) (fsub d (Fin 1))) ie in
    if is_log
    then fsub (fsub (flog d) x) (flog res)
    else fdiv (fmul d (fexp (fneg x))) res in
  let mapping_function x :=
    if fgt x (Fin 25) then ddiagepoly2 x
    else if flt x (Fin (1 / 10)) then ddiagem1 x
    else ddiagepoly4 x in
  Ok (map mapping_function yt).

Definition franck_constraints : list constraint :=
  [ {| c_type := Ineq; c_fun := fun x => fsub x (Fin (1 / 10 ^ 14)) |};
    {| c_type := Ineq; c_fun := fun x => fsub (Fin 745) x |} ].

Definition dmle_copula_franck (minimize : optimizer) (u_values : matrix)
  : result npfloat :=
  max_diag_pdf minimize u_values diag_pdf_frank (Fin (1 / 2))
    franck_constraints.

(* ================================================================== *)
(** * Eulerian numbers and the polylogarithm of negative integer order *)
(* ================================================================== *)

(** The table [dp] is a list of rows of Python integers. *)
Definition table := list (list Z).

Definition dp_get (dp : table) (i j : nat) : Z := nth j (nth i dp []) 0%Z.

Fixpoint set_nth {A : Type} (l : list A) (i : nat) (v : A) : list A :=
  match l, i with
  | [], _ => []
  | _ :: l', O => v :: l'
  | a :: l', S i' => a :: set_nth l' i' v
  end.

Definition dp_set (dp : table) (i j : nat) (v : Z) : table :=
  set_nth dp i (set_nth (nth i dp []) j v).

(** The body of the two nested loops of [eulerian] at row [i], column [j]. *)
Definition eulerian_cell (dp : table) (i j : nat) : table :=
  if (j <? i)%nat then
    if (j =? 0)%nat then dp_set dp i j 1%Z
    else dp_set dp i j
           (Z.of_nat (i - j) * dp_get dp (i - 1) (j - 1)
            + Z.of_nat (j + 1) * dp_get dp (i - 1) j)%Z
  else dp.

Definition eulerian_row (m : nat) (dp : table) (i : nat) : table :=
  fold_left (fun dp j => eulerian_cell dp i j) (seq 0 (m + 1)) dp.

Definition eulerian_table (n m : nat) : table :=
  fold_left (eulerian_row m) (seq 1 n) (repeat (repeat 0%Z (m + 1)) (n + 1)).

Definition eulerian (n m : nat) : Z := dp_get (eulerian_table n m) n m.

(** [eulerian_all(n)]: the integers [eulerian(n, i)], [i < n]; they are
    stored in a float64 array, see [to_floats]. *)
Definition eulerian_all (n : nat) : list Z :=
  map (fun i => eulerian n i) (seq 0 n).

(** The float64 nearest to a Python integer, ties to even: an integer
    below [2^53] in magnitude is kept, a larger one keeps its 53 leading
    bits. *)
Definition round_int (z : Z) : Z :=
  let a := Z.abs z in
  if (a <? 2 ^ 53)%Z then z
  else
    let e := (Z.log2 a - 52)%Z in
    let q := Z.shiftr a e in
    let r := (a - Z.shiftl q e)%Z in
    let half := Z.shiftl 1 (e - 1) in
    let q' :=
      if (half <? r)%Z || ((r =? half)%Z && Z.odd q) then (q + 1)%Z else q in
    (Z.sgn z * Z.shiftl q' e)%Z.

(** The store [res[i] = eulerian(n, i)] converts a Python integer to
    float64: it rounds, and raises [OverflowError] when the rounded value
    is [2^1024] or more in magnitude. *)
Definition float_of_int (z : Z) : result npfloat :=
  let r := round_int z in
  if (2 ^ 1024 <=? Z.abs r)%Z then Raise OverflowError else Ok (Fin (IZR r)).

Definition to_floats (l : list Z) : result vector := mapM float_of_int l.

(** [np.polyval]: Horner's rule, highest coefficient first. *)
Definition polyneval (coef : vector) (x : npfloat) : npfloat :=
  fold_left (fun y pv => fadd (fmul y x) pv) coef (Fin 0).

(** [polylog(z, s, is_log_z)] at one point [z]; [s] is the integer
    [int(s)] of the source, and [np.zeros] refuses a negative shape. *)
Definition polylog (z : npfloat) (s : Z) (is_log_z : bool) : result npfloat :=
  let w := z in
  let z := if is_log_z then fexp w else z in
  let n := (- s)%Z in
  if (n <? 0)%Z then Raise ValueError
  else
    Eun <- to_floats (eulerian_all (Z.to_nat n)) ;;
    let p := polyneval Eun z in
    if is_log_z
    then Ok (fsub (fadd (flog p) w)
                  (fmul (Fin (IZR n + 1)) (log1mexp (fneg w))))
    else Ok (fsub (fadd (flog p) (flog z))
                  (fmul (Fin (IZR n + 1)) (flog1p (fneg z)))).

(* ================================================================== *)
(** * Frank: joint density *)
(* ================================================================== *)

Definition pdf_frank (u_values : matrix) (theta : scalar) (is_log : bool)
  : result vector :=
  let th := sval theta in
  copula <-
    (if feq th (Fin 0) then Ok (repeat (Fin 0) (shape0 u_values))
     else
       let d := shape1 u_values in
       let usum := npsum_axis1 u_values in
       let lp := log1mexp th in
       let lpu := map (map (fun u => log1mexp (fmul th u))) u_values in
       let lu := npsum_axis1 lpu in
       let liarg :=
         map (fun row =>
                fmul (fneg (fexpm1 (fneg th)))
                     (fexp (npsum (map (fun l => fsub l lp) row)))) lpu in
       li <- mapM (fun z => polylog z (- (Z.of_nat d - 1))%Z false) liarg ;;
       Ok (map (fun i =>
             fsub (fsub (fadd (fmul (fsub (of_nat d) (Fin 1)) (flog th))
                              (getf li i))
                        (fmul th (getf usum i)))
                  (getf lu i))
           (seq 0 (shape0 u_values)))) ;;
  if is_log then Ok copula else Ok (map fexp copula).

(* ================================================================== *)
(** * Gumbel: joint density *)
(* ================================================================== *)

(** scipy's special functions, by their mathematical definitions on the
    arguments the engine passes (integer-valued [d] and [j]). *)

(** [scipy.special.factorial] *)
Definition factorial (n : nat) : npfloat := Fin (INR (fact n)).

Fixpoint falling (x : R) (k : nat) : R :=
  match k with
  | O => 1
  | S k' => falling x k' * (x - INR k')
  end.

(** [scipy.special.binom(x, k)]: the generalized binomial coefficient. *)
Definition binom (x : npfloat) (k : nat) : npfloat :=
  match x with
  | Fin a => Fin (falling a k / INR (fact k))
  | _ => NaN
  end.

(** [scipy.stats.poisson.logcdf(k, mu)] *)
Definition poisson_logcdf (k : nat) (mu : npfloat) : npfloat :=
  flog (fmul (fexp (fneg mu))
             (npsum (map (fun i => fdiv (fpow mu (of_nat i)) (factorial i))
                         (seq 0 (k + 1))))).

Definition py_assert (b : bool) : result unit :=
  if b then Ok tt else Raise AssertionError.

(** The sign function [s_j] local to [pdf_gumbel]. *)
Definition s_j (j : nat) (alpha_var : npfloat) (d_var : nat) : result npfloat :=
  _ <- py_assert (flt (Fin 0) alpha_var) ;;
  _ <- py_assert (fle alpha_var (Fin 1)) ;;
  if feq alpha_var (Fin 1) then
    if (j =? d_var)%nat then Ok (Fin 1)
    else Ok (fpow (Fin (-1)) (fsub (of_nat d_var) (of_nat j)))
  else
    let x := fmul alpha_var (of_nat j) in
    if fne x (ffloor x)
    then Ok (fpow (Fin (-1)) (fsub (of_nat j) (fceil x)))
    else Ok (Fin 0).

(** [log_polyg]: the [d] signed terms, combined by [lssum]. *)
Definition log_polyg (lx_var alpha_var : npfloat) (d_var : nat)
  : result npfloat :=
  let x := fexp lx_var in
  res <- mapM (fun j =>
           let r := fadd (Fin 0)
                         (flog (fabs (binom (fmul alpha_var (of_nat j)) d_var))) in
           let r := fadd r (flog (factorial d_var)) in
           let r := fadd r (fmul (of_nat j) lx_var) in
           let r := fadd r (fsub x (flog (factorial j))) in
           let r := fadd r (poisson_logcdf (d_var - j) x) in
           s <- s_j j alpha_var d_var ;;
           Ok (fmul s (fexp r)))
         (seq 1 d_var) ;;
  lssum res.

(** [pdf_gumbel]; the array [lmlu = log(mlu)] is read only inside the
    row sums and is written there as [flog m]. *)
Definition pdf_gumbel (u_values : matrix) (theta : scalar) (is_log : bool)
  : result vector :=
  let th := sval theta in
  let d := shape1 u_values in
  alpha <- div_by (Fin 1) theta ;;
  let lip := map (map (fun u => ipsi_gumbel u th false)) u_values in
  lnt <- mapM lsum lip ;;
  let mlu := map (map (fun u => fneg (flog u))) u_values in
  let lx := map (fun l => fmul alpha l) lnt in
  ls <- mapM (fun i =>
          p <- log_polyg (getf lx i) alpha d ;;
          Ok (fsub p (fdiv (fmul (of_nat d) (getf lx i)) alpha)))
        (seq 0 (shape0 u_values)) ;;
  let lnc := map (fun l => fneg (fexp l)) lx in
  let rowsum :=
    npsum_axis1
      (map (map (fun m => fadd (fmul (fsub th (Fin 1)) (flog m)) m)) mlu) in
  let dcopula :=
    map (fun i =>
           fadd (fadd (fadd (getf lnc i) (fmul (of_nat d) (flog th)))
                      (getf rowsum i))
                (getf ls i))
        (seq 0 (shape0 u_values)) in
  if is_log then Ok dcopula else Ok (map fexp dcopula).

(* ================================================================== *)
(** * Reference definitions used by the statements *)
(* ================================================================== *)

(** The exact sum of a list of reals. *)
Definition Rsum (l : list R) : R := fold_right Rplus 0 l.

Section EulerianReference.

Local Open Scope nat_scope.

(** The triangle by its recurrence, as a function of row and column. *)
Fixpoint euler_A (i j : nat) : Z :=
  match i with
  | O => 0%Z
  | S i' =>
      match j with
      | O => 1%Z
      | S j' =>
          if j <? i
          then (Z.of_nat (i - j) * euler_A i' j'
                + Z.of_nat (j + 1) * euler_A i' j)%Z
          else 0%Z
      end
  end.

(** The state of the table when rows below [i] are done and the columns
    below [k] of row [i] are. *)
Definition filled (n m i k : nat) (dp : table) : Prop :=
  length dp = S n /\
  (forall r, r <= n -> length (nth r dp []) = S m) /\
  (forall r c, r <= n -> c <= m ->
     dp_get dp r c =
     if r <? i then euler_A r c
     else if (r =? i) && (c <? k) then euler_A r c else 0%Z).

End EulerianReference.

(** A polynomial by its coefficients, lowest degree first. *)
Fixpoint poly_asc (cs : list R) (z : R) : R :=
  match cs with
  | [] => 0
  | c :: cs' => c + z * poly_asc cs' z
  end.

(** Row [n] of the Eulerian triangle as a polynomial: the coefficient of
    [z ^ j] is [euler_A n j]. *)
Definition euler_poly (n : nat) (z : R) : R :=
  poly_asc (map (fun j => IZR (euler_A n j)) (seq 0 n)) z.

(** Row [n] as it is stored in a float64 array: the coefficient of [z ^ j]
    is the float64 nearest to [euler_A n j]. *)
Definition euler_poly_f64 (n : nat) (z : R) : R :=
  poly_asc (map (fun j => IZR (round_int (euler_A n j))) (seq 0 n)) z.

(** Row [i] of the triangle from row [i - 1], and the rows computed one
    after the other. *)
Definition euler_next (i : nat) (prev : list Z) : list Z :=
  map (fun j =>
         match j with
         | O => 1%Z
         | S j' =>
             (Z.of_nat (i - j) * nth j' prev 0 + Z.of_nat (j + 1) * nth j prev 0)%Z
         end)
      (seq 0 i).

Fixpoint euler_row (n : nat) : list Z :=
  match n with
  | O => []
  | S m => euler_next (S m) (euler_row m)
  end.

(** [check] holds on every entry of the [k] rows after row [i], given
    row [i]. *)
Fixpoint rows_check (check : Z -> bool) (k i : nat) (prev : list Z) : bool :=
  match k with
  | O => true
  | S k' =>
      let row := euler_next (S i) prev in
      forallb check row && rows_check check k' (S i) row
  end.

(** An integer that float64 holds exactly, and one whose nearest float64
    is finite. *)
Definition exact_float (z : Z) : bool := (Z.abs z <? 2 ^ 53)%Z.
Definition fits_float (z : Z) : bool :=
  negb (2 ^ 1024 <=? Z.abs (round_int z))%Z.

(* ================================================================== *)
(** * Certified bounds on [exp] and [ln] at rational points

    [exp b >= (1 + b / 2^k) ^ (2^k)], and the power is [k] squarings;
    each squaring is done on integers scaled by [scale] and rounded down. *)
(* ================================================================== *)

Definition scale : Z := 2 ^ 120.
Definition halvings : nat := 50.

Fixpoint iter_sq (k : nat) (c : Z) : Z :=
  match k with
  | O => c
  | S k' => iter_sq k' (c * c / scale)
  end.

(** A lower bound of [scale * exp (bn / bd)], by [k] squarings. *)
Definition exp_lb_at (k : nat) (bn bd : Z) : Z :=
  iter_sq k (scale * (bd * 2 ^ Z.of_nat k + bn) / (bd * 2 ^ Z.of_nat k)).

Definition exp_lb (bn bd : Z) : Z := exp_lb_at halvings bn bd.

(** Checks that [ln (yn / yd) <= hn / hd], resp. [ln (yn / yd) >= hn / hd]. *)
Definition ln_le_check (yn yd hn hd : Z) : bool :=
  ((0 <? yn) && (0 <? yd) && (0 <? hd)
   && (0 <=? hd * 2 ^ Z.of_nat halvings + hn)
   && (yn * scale <=? exp_lb hn hd * yd))%Z.

Definition ln_ge_check (yn yd hn hd : Z) : bool :=
  ((0 <? yn) && (0 <? yd) && (0 <? hd)
   && (0 <=? hd * 2 ^ Z.of_nat halvings - hn)
   && (yd * scale <=? exp_lb (- hn) hd * yn))%Z.

(** [x] is the finite value [v] up to [tol]. *)
Definition approx (x : npfloat) (v tol : R) : Prop :=
  exists r, x = Fin r /\ Rabs (r - v) <= tol.

Definition approx_result (x : result npfloat) (v tol : R) : Prop :=
  exists r, x = Ok (Fin r) /\ Rabs (r - v) <= tol.

(** The maximum of a non-empty list of reals. *)
Definition Rmaxl (l : list R) : R :=
  match l with
  | [] => 0
  | a :: l' => fold_left Rmax l' a
  end.

(** A pseudo-observation matrix: [n >= 1] rows of [d >= 1] entries
    strictly inside (0,1). *)
Definition valid_U (U : list (list R)) (d : nat) : Prop :=
  U <> [] /\ (0 < d)%nat /\
  Forall (fun row => length row = d /\ Forall (fun u => 0 < u < 1) row) U.

(** The matrix as the program receives it. *)
Definition as_matrix (U : list (list R)) : matrix := map (map Fin) U.

(** The 10 x 3 matrix of the doctests of [diag_copula] and [dmle_copula_gumbel]. *)
Definition reference_U : list (list R) :=
  [ [72122885 / 100000000; 64249391 / 100000000; 67711090 / 100000000];
    [48840676 / 100000000; 36490127 / 100000000; 27721709 / 100000000];
    [63469281 / 100000000; 45179490 / 100000000; 62365817 / 100000000];
    [87942847 / 100000000; 15136347 / 100000000; 91851515 / 100000000];
    [34839029 / 100000000; 5604025 / 100000000; 8416331 / 100000000];
    [48967318 / 100000000; 99356872 / 100000000; 66912132 / 100000000];
    [60683747 / 100000000; 48419440 / 100000000; 22833209 / 100000000];
    [30158193 / 100000000; 26186022 / 100000000; 5502786 / 100000000];
    [51942063 / 100000000; 73040326 / 100000000; 25935125 / 100000000];
    [46365886 / 100000000; 24590000 / 100000000; 83277053 / 100000000] ].

(** The Clayton log-density of one row for [theta < 0], as specified:
    with [t] the sum of the inverse generator over the row and [lu] the sum
    of the logs, log(1+theta) - (1+theta) lu - (d + 1/theta) log(1-t) when
    [t < 1], and [-inf] otherwise. *)
Definition clayton_t (theta : R) (row : list R) : R :=
  Rsum (map (fun u => 1 - Rpower u (- theta)) row).

Definition clayton_neg_logpdf (d : nat) (theta : R) (row : list R) : npfloat :=
  let t := clayton_t theta row in
  let lu := Rsum (map ln row) in
  if Rltb t 1
  then fsub (fsub (flog (Fin (1 + theta))) (Fin ((1 + theta) * lu)))
            (Fin ((INR d + 1 / theta) * ln (1 - t)))
  else NInf.

(** [ipsi_clayton] once more, the overflow rule applied after every
    operation. *)
Definition ipsi_clayton_f64 (x theta : npfloat) (is_log : bool) : npfloat :=
  let p := overflow (fpow x (overflow (fneg theta))) in
  let v := overflow (fmul (fsign theta) (overflow (fsub p (Fin 1)))) in
  if is_log then overflow (flog v) else v.

(* ================================================================== *)
(** * Reference definitions for the further properties *)
(* ================================================================== *)

(** What [lssum] adds up: a magnitude of at least 1 counts positively, a
    smaller one negatively. *)
Definition lssum_weight (x : R) : R :=
  if Rleb 1 (Rabs x) then Rabs x else - Rabs x.

Definition lssum_total (xs : list R) : R := Rsum (map lssum_weight xs).

(** The sum of a list of integers. *)
Definition Zsum (l : list Z) : Z := fold_right Z.add 0%Z l.

(** A polynomial by its coefficients, highest degree first: the
    coefficient at index [i] of [cs] multiplies [x ^ (length cs - 1 - i)]. *)
Fixpoint poly_desc (cs : list R) (x : R) : R :=
  match cs with
  | [] => 0
  | c :: cs' => c * x ^ length cs' + poly_desc cs' x
  end.

(** The diagonal densities on the natural scale, as functions of the
    diagonal value [y]. *)
Definition gumbel_diag (d : nat) (theta y : R) : R :=
  Rpower (INR d) (1 / theta) * Rpower y (Rpower (INR d) (1 / theta) - 1).








(* ================================================================== *)
(** * The Eulerian triangle *)
(* ================================================================== *)

Section EulerianTable.

Local Open Scope nat_scope.

Lemma euler_A_above (i j : nat) : i <= j -> euler_A i j = 0%Z.
Proof.
  destruct i as [|i]; [reflexivity|].
  destruct j as [|j]; [lia|].
  intros H. simpl euler_A.
  destruct (Nat.ltb_spec (S j) (S i)); [lia | reflexivity].
Qed.

Lemma set_nth_length {A} (l : list A) i v : length (set_nth l i v) = length l.
Proof.
  revert i; induction l as [|a l IH]; intros [|i]; simpl; auto.
Qed.

Lemma nth_set_nth {A} (l : list A) i k v d :
  nth k (set_nth l i v) d = if (k =? i) && (i <? length l) then v else nth k l d.
Proof.
  revert i k; induction l as [|a l IH]; intros i k; simpl.
  - destruct k, i; simpl; try reflexivity.
    rewrite andb_false_r; reflexivity.
  - destruct i as [|i], k as [|k]; simpl; try reflexivity.
    rewrite IH. reflexivity.
Qed.

Lemma dp_get_set (dp : table) i j v r c :
  i < length dp -> j < length (nth i dp []) ->
  dp_get (dp_set dp i j v) r c =
  if (r =? i) && (c =? j) then v else dp_get dp r c.
Proof.
  intros Hi Hj. unfold dp_get, dp_set.
  rewrite nth_set_nth.
  destruct (Nat.eqb_spec r i) as [->|Hr]; simpl.
  - apply Nat.ltb_lt in Hi. rewrite Hi.
    rewrite nth_set_nth. apply Nat.ltb_lt in Hj. rewrite Hj.
    rewrite andb_true_r. reflexivity.
  - reflexivity.
Qed.

Lemma dp_set_rows (dp : table) i j v : length (dp_set dp i j v) = length dp.
Proof. apply set_nth_length. Qed.

Lemma dp_set_cols (dp : table) i j v r :
  length (nth r (dp_set dp i j v) []) = length (nth r dp []).
Proof.
  unfold dp_set. rewrite nth_set_nth.
  destruct ((r =? i) && (i <? length dp)) eqn:E; [|reflexivity].
  apply andb_prop in E. destruct E as [E _].
  apply Nat.eqb_eq in E. subst r. apply set_nth_length.
Qed.

Lemma filled_init (n m : nat) :
  filled n m 1 0 (repeat (repeat 0%Z (m + 1)) (n + 1)).
Proof.
  assert (Hrow : forall r, r <= n ->
            nth r (repeat (repeat 0%Z (m + 1)) (n + 1)) [] = repeat 0%Z (m + 1)).
  { intros r Hr. apply nth_repeat_lt. lia. }
  repeat split.
  - rewrite repeat_length. lia.
  - intros r Hr. rewrite Hrow by assumption. rewrite repeat_length. lia.
  - intros r c Hr Hc. unfold dp_get. rewrite Hrow by assumption.
    rewrite nth_repeat.
    destruct (Nat.ltb_spec r 1).
    + assert (r = 0) by lia. subst r. reflexivity.
    + destruct (r =? 1); reflexivity.
Qed.

Lemma filled_cell (n m i k : nat) (dp : table) :
  1 <= i <= n -> k <= m ->
  filled n m i k dp -> filled n m i (S k) (eulerian_cell dp i k).
Proof.
  intros Hi Hk (Hlen & Hcols & Hval).
  assert (Hprev : forall c, c <= m -> dp_get dp (i - 1) c = euler_A (i - 1) c).
  { intros c Hc. rewrite Hval by lia.
    destruct (Nat.ltb_spec (i - 1) i); [reflexivity | lia]. }
  unfold eulerian_cell.
  destruct (Nat.ltb_spec k i) as [Hki|Hki].
  - (* the cell is written *)
    set (v := if k =? 0 then 1%Z
              else (Z.of_nat (i - k) * dp_get dp (i - 1) (k - 1)
                    + Z.of_nat (k + 1) * dp_get dp (i - 1) k)%Z).
    assert (Hv : v = euler_A i k).
    { unfold v. destruct i as [|i']; [lia|].
      destruct k as [|k']; [reflexivity|].
      simpl Nat.eqb. cbv iota.
      rewrite !Hprev by lia.
      replace (S i' - 1) with i' by lia.
      replace (S k' - 1) with k' by lia.
      simpl euler_A.
      destruct (Nat.ltb_spec (S k') (S i')); [reflexivity | lia]. }
    assert (Hgoal : filled n m i (S k) (dp_set dp i k v)).
    { repeat split.
      - rewrite dp_set_rows. exact Hlen.
      - intros r Hr. rewrite dp_set_cols. auto.
      - intros r c Hr Hc.
        rewrite dp_get_set by (rewrite ?Hcols; lia).
        rewrite Hval by assumption.
        destruct (Nat.eqb_spec r i) as [->|Hri]; simpl.
        + rewrite Nat.ltb_irrefl.
          destruct (Nat.eqb_spec c k) as [->|Hck].
          * destruct (Nat.ltb_spec k (S k)); [exact Hv | lia].
          * destruct (Nat.ltb_spec c k), (Nat.ltb_spec c (S k));
              try reflexivity; lia.
        + reflexivity. }
    unfold v in Hgoal. destruct (k =? 0); exact Hgoal.
  - (* on or above the diagonal nothing is written *)
    repeat split; auto.
    intros r c Hr Hc. rewrite Hval by assumption.
    destruct (Nat.ltb_spec r i); [reflexivity|].
    destruct (Nat.eqb_spec r i) as [->|Hri]; simpl; [|reflexivity].
    destruct (Nat.ltb_spec c k), (Nat.ltb_spec c (S k));
      try reflexivity; try lia.
    assert (c = k) by lia. subst c. symmetry. apply euler_A_above. lia.
Qed.

Lemma filled_row (n m i : nat) (dp : table) :
  1 <= i <= n ->
  filled n m i 0 dp -> filled n m (S i) 0 (eulerian_row m dp i).
Proof.
  intros Hi H0.
  assert (Hk : forall k, k <= S m ->
            filled n m i k
              (fold_left (fun dp j => eulerian_cell dp i j) (seq 0 k) dp)).
  { induction k as [|k IH]; intros Hk; [exact H0|].
    rewrite seq_S, fold_left_app. simpl.
    apply filled_cell; [exact Hi | lia | apply IH; lia]. }
  specialize (Hk (S m) (Nat.le_refl _)).
  unfold eulerian_row. replace (m + 1) with (S m) by lia.
  destruct Hk as (Hlen & Hcols & Hval).
  repeat split; auto.
  intros r c Hr Hc. rewrite Hval by assumption.
  change (c <? 0) with false. rewrite andb_false_r.
  destruct (Nat.ltb_spec r i), (Nat.ltb_spec r (S i)); try reflexivity; try lia.
  - assert (r = i) by lia. subst r. rewrite Nat.eqb_refl. simpl.
    destruct (Nat.ltb_spec c (S m)); [reflexivity | lia].
  - destruct (Nat.eqb_spec r i); [lia | reflexivity].
Qed.

Lemma filled_table (n m : nat) : filled n m (S n) 0 (eulerian_table n m).
Proof.
  unfold eulerian_table.
  assert (Hi : forall i, i <= n ->
            filled n m (S i) 0
              (fold_left (eulerian_row m) (seq 1 i)
                 (repeat (repeat 0%Z (m + 1)) (n + 1)))).
  { induction i as [|i IH]; intros Hi; [apply filled_init|].
    rewrite seq_S, fold_left_app. simpl.
    apply filled_row; [lia | apply IH; lia]. }
  apply Hi. lia.
Qed.

(** [eulerian(n, m)] is the entry of the triangle, for every table size. *)
Lemma eulerian_euler_A (n m : nat) : eulerian n m = euler_A n m.
Proof.
  unfold eulerian.
  destruct (filled_table n m) as (_ & _ & Hval).
  rewrite Hval by lia.
  destruct (Nat.ltb_spec n (S n)); [reflexivity | lia].
Qed.

End EulerianTable.

(* ================================================================== *)
(** * Deciding comparisons of reals *)
(* ================================================================== *)

Lemma Rltb_true (a b : R) : a < b -> Rltb a b = true.
Proof. intros H. unfold Rltb. destruct (Rlt_dec a b); [reflexivity | contradiction]. Qed.

Lemma Rltb_false (a b : R) : b <= a -> Rltb a b = false.
Proof. intros H. unfold Rltb. destruct (Rlt_dec a b); [lra | reflexivity]. Qed.

Lemma Reqb_true (a b : R) : a = b -> Reqb a b = true.
Proof. intros H. unfold Reqb. destruct (Req_dec_T a b); [reflexivity | contradiction]. Qed.

Lemma Reqb_false (a b : R) : a <> b -> Reqb a b = false.
Proof. intros H. unfold Reqb. destruct (Req_dec_T a b); [contradiction | reflexivity]. Qed.

Lemma Rltb_spec (a b : R) : reflect (a < b) (Rltb a b).
Proof. unfold Rltb. destruct (Rlt_dec a b); constructor; assumption. Qed.

Lemma Reqb_spec (a b : R) : reflect (a = b) (Reqb a b).
Proof. unfold Reqb. destruct (Req_dec_T a b); constructor; assumption. Qed.

(** Settle every comparison of the goal that linear arithmetic decides
    from the context. *)
Ltac rdecide :=
  repeat match goal with
    | |- context [Rltb ?a ?b] =>
        first [ rewrite (Rltb_true a b) by lra
              | rewrite (Rltb_false a b) by lra ]
    | |- context [Reqb ?a ?b] =>
        first [ rewrite (Reqb_true a b) by lra
              | rewrite (Reqb_false a b) by lra ]
    end.

(** Evaluate the float operations of a closed expression. *)
Ltac feval :=
  repeat (progress
    (unfold fgt, fge, fle, fne, fsub, fexpm1, flog1p, of_nat, shape0, shape1,
       npsum, pydiv;
     cbn [pymax fold_left fold_right bind map mapM flt feq fadd fneg fmul
          fdiv fexp flog fabs fsign is_nan orb andb negb length hd INR
          inf_of_sign];
     rdecide)).

(* ================================================================== *)
(** * Sums and maxima of finite vectors *)
(* ================================================================== *)

Lemma npsum_fin (l : list R) : npsum (map Fin l) = Fin (Rsum l).
Proof.
  induction l as [|a l IH]; [reflexivity|].
  change (npsum (map Fin (a :: l))) with (fadd (Fin a) (npsum (map Fin l))).
  rewrite IH. reflexivity.
Qed.

Lemma Rsum_pos (l : list R) :
  l <> [] -> Forall (fun x => 0 < x) l -> 0 < Rsum l.
Proof.
  intros Hne Hpos. induction Hpos as [|a l Ha Hl IH]; [contradiction|].
  simpl. destruct l as [|b l].
  - simpl. lra.
  - assert (0 < Rsum (b :: l)) by (apply IH; discriminate). lra.
Qed.

Lemma Rsum_scale (c : R) (l : list R) :
  Rsum (map (fun x => x * c) l) = Rsum l * c.
Proof. induction l as [|a l IH]; simpl; [lra | rewrite IH; lra]. Qed.

(** Python's [max] over finite values is a finite entry of the list and
    bounds every entry. *)
Lemma pymax_fold_fin (l : list R) (m : R) :
  fold_left (fun m y => if fgt y m then y else m) (map Fin l) (Fin m)
  = Fin (fold_left Rmax l m).
Proof.
  revert m; induction l as [|a l IH]; intros m; [reflexivity|].
  cbn [map fold_left]. change (fgt (Fin a) (Fin m)) with (Rltb m a).
  destruct (Rltb_spec m a) as [H|H].
  - rewrite IH. f_equal. f_equal. rewrite Rmax_right; lra.
  - rewrite IH. f_equal. f_equal. rewrite Rmax_left; lra.
Qed.

Lemma pymax_fin (a : R) (l : list R) :
  pymax (map Fin (a :: l)) = Ok (Fin (fold_left Rmax l a)).
Proof. simpl. rewrite pymax_fold_fin. reflexivity. Qed.

Lemma fold_Rmax_ge (l : list R) (m : R) :
  m <= fold_left Rmax l m /\ Forall (fun x => x <= fold_left Rmax l m) l.
Proof.
  revert m; induction l as [|a l IH]; intros m; simpl.
  - split; [lra | constructor].
  - destruct (IH (Rmax m a)) as [H1 H2].
    pose proof (Rmax_l m a). pose proof (Rmax_r m a).
    split; [lra|]. constructor; [lra | exact H2].
Qed.

Lemma pymax_total (v : vector) : v <> [] -> exists m, pymax v = Ok m.
Proof. destruct v as [|x v]; [contradiction | intros _; eexists; reflexivity]. Qed.

(* ================================================================== *)
(** * [lsum] *)
(* ================================================================== *)

Lemma lsum_total (x : vector) : x <> [] -> exists r, lsum x = Ok r.
Proof.
  intros H. unfold lsum.
  destruct (pymax_total (map flog x)) as [m Hm].
  - destruct x; [contradiction | discriminate].
  - rewrite Hm. simpl. eexists; reflexivity.
Qed.

Lemma flog_pos (a : R) : 0 < a -> flog (Fin a) = Fin (ln a).
Proof. intros H. simpl. rewrite Rltb_true by assumption. reflexivity. Qed.

Lemma map_flog_pos (l : list R) :
  Forall (fun x => 0 < x) l -> map flog (map Fin l) = map Fin (map ln l).
Proof.
  induction 1 as [|a l Ha Hl IH]; [reflexivity|].
  simpl map. rewrite IH. f_equal.
  apply flog_pos. exact Ha.
Qed.

Lemma lsum_positive (xs : list R) :
  xs <> [] -> Forall (fun x => 0 < x) xs ->
  lsum (map Fin xs) = Ok (Fin (ln (Rsum xs))).
Proof.
  intros Hne Hpos. unfold lsum.
  rewrite (map_flog_pos xs Hpos).
  destruct xs as [|a xs]; [contradiction|].
  change (map ln (a :: xs)) with (ln a :: map ln xs).
  rewrite pymax_fin. cbn [bind].
  set (M := fold_left Rmax (map ln xs) (ln a)).
  set (l := a :: xs) in *.
  change (ln a :: map ln xs) with (map ln l).
  assert (Hexp : map (fun l0 => fexp (fsub l0 (Fin M))) (map Fin (map ln l))
                 = map Fin (map (fun x => x * exp (- M)) l)).
  { rewrite !map_map. apply map_ext_in. intros x Hx.
    rewrite Forall_forall in Hpos. specialize (Hpos x Hx).
    simpl. f_equal. unfold Rminus. rewrite exp_plus, exp_ln by assumption.
    reflexivity. }
  rewrite Hexp, npsum_fin, Rsum_scale.
  pose proof (Rsum_pos l Hne Hpos) as HS.
  pose proof (exp_pos (- M)) as HM.
  rewrite flog_pos by (apply Rmult_lt_0_compat; assumption).
  cbn [fadd]. do 2 f_equal.
  rewrite ln_mult, ln_exp by assumption. lra.
Qed.

(** [mapM] over calls that all return. *)
Lemma mapM_ok {A B : Type} (f : A -> result B) (g : A -> B) (l : list A) :
  (forall a, In a l -> f a = Ok (g a)) -> mapM f l = Ok (map g l).
Proof.
  induction l as [|a l IH]; intros H; [reflexivity|].
  cbn [mapM map]. rewrite (H a) by (left; reflexivity). cbn [bind].
  rewrite IH by (intros b Hb; apply H; right; exact Hb). reflexivity.
Qed.

Lemma mapM_total {A B : Type} (f : A -> result B) (l : list A) :
  (forall a, In a l -> exists b, f a = Ok b) ->
  exists bs, mapM f l = Ok bs /\ length bs = length l.
Proof.
  induction l as [|a l IH]; intros H.
  - exists []. split; reflexivity.
  - destruct (H a) as [b Hb]; [left; reflexivity|].
    destruct IH as (bs & E & L); [intros c Hc; apply H; right; exact Hc|].
    exists (b :: bs). cbn [mapM]. rewrite Hb. cbn [bind]. rewrite E.
    split; [reflexivity | simpl; rewrite L; reflexivity].
Qed.

(* ================================================================== *)
(** * The Eulerian row as a polynomial *)
(* ================================================================== *)

Section EulerianSymmetry.

Local Open Scope nat_scope.

Lemma euler_A_diag (n : nat) : euler_A (S n) n = 1%Z.
Proof.
  induction n as [|n IH]; [reflexivity|].
  change (euler_A (S (S n)) (S n))
    with (if S n <? S (S n)
          then (Z.of_nat (S (S n) - S n) * euler_A (S n) n
                + Z.of_nat (S n + 1) * euler_A (S n) (S n))%Z
          else 0%Z).
  destruct (Nat.ltb_spec (S n) (S (S n))); [|lia].
  rewrite IH, (euler_A_above (S n) (S n)) by lia.
  replace (S (S n) - S n) with 1 by lia. lia.
Qed.

Lemma euler_A_step (i j : nat) :
  j < i ->
  euler_A (S i) (S j) =
  (Z.of_nat (i - j) * euler_A i j + Z.of_nat (j + 2) * euler_A i (S j))%Z.
Proof.
  intros H.
  change (euler_A (S i) (S j))
    with (if S j <? S i
          then (Z.of_nat (S i - S j) * euler_A i j
                + Z.of_nat (S j + 1) * euler_A i (S j))%Z
          else 0%Z).
  destruct (Nat.ltb_spec (S j) (S i)); [|lia].
  replace (S i - S j) with (i - j) by lia.
  replace (S j + 1) with (j + 2) by lia. reflexivity.
Qed.

(** Every row reads the same in both directions. *)
Lemma euler_A_sym (n j : nat) : j < n -> euler_A n j = euler_A n (n - 1 - j).
Proof.
  revert j; induction n as [|n IH]; intros j Hj; [lia|].
  destruct j as [|j].
  - replace (S n - 1 - 0) with n by lia. rewrite euler_A_diag. reflexivity.
  - destruct (Nat.eq_dec (S j) n) as [E|E].
    + subst n. replace (S (S j) - 1 - S j) with 0 by lia.
      rewrite euler_A_diag. reflexivity.
    + assert (Hk : exists k, S n - 1 - S j = S k /\ k = n - 2 - j /\ k < n).
      { exists (n - 2 - j). lia. }
      destruct Hk as (k & Ek & Ek' & Hkn). rewrite Ek.
      rewrite !euler_A_step by lia.
      rewrite (IH j) by lia. rewrite (IH (S j)) by lia.
      replace (n - 1 - j) with (S k) by lia.
      replace (n - 1 - S j) with k by lia.
      replace (n - k) with (j + 2) by lia.
      replace (k + 2) with (n - j) by lia. lia.
Qed.

Lemma euler_A_nonneg (n j : nat) : (0 <= euler_A n j)%Z.
Proof.
  revert j; induction n as [|n IH]; intros j; [simpl; lia|].
  destruct j as [|j]; [simpl; lia|].
  destruct (Nat.lt_ge_cases j n) as [H|H].
  - rewrite euler_A_step by exact H.
    pose proof (IH j). pose proof (IH (S j)). nia.
  - rewrite euler_A_above by lia. lia.
Qed.

Lemma eulerian_all_row (n : nat) : eulerian_all n = map (euler_A n) (seq 0 n).
Proof.
  unfold eulerian_all. apply map_ext. intros i. apply eulerian_euler_A.
Qed.

Lemma eulerian_all_rev (n : nat) : rev (eulerian_all n) = eulerian_all n.
Proof.
  rewrite eulerian_all_row.
  apply (nth_ext _ _ 0%Z 0%Z).
  - rewrite length_rev. reflexivity.
  - intros i Hi. rewrite length_rev, length_map, length_seq in Hi.
    rewrite rev_nth by (rewrite length_map, length_seq; exact Hi).
    rewrite length_map, length_seq.
    rewrite !(nth_indep _ 0%Z (euler_A n 0)) by (rewrite length_map, length_seq; lia).
    rewrite !map_nth, !seq_nth by lia.
    simpl. rewrite (euler_A_sym n i) by exact Hi.
    f_equal. lia.
Qed.

End EulerianSymmetry.

(** Horner's rule from the highest coefficient is the polynomial of the
    reversed coefficient list. *)
Lemma horner_poly_asc (cs : list R) (z : R) :
  fold_left (fun y c => y * z + c) cs 0 = poly_asc (rev cs) z.
Proof.
  induction cs as [|c cs IH] using rev_ind; [reflexivity|].
  rewrite fold_left_app, rev_app_distr. simpl. rewrite IH. lra.
Qed.

Lemma polyneval_fin (cs : list R) (z : R) :
  polyneval (map Fin cs) (Fin z) = Fin (fold_left (fun y c => y * z + c) cs 0).
Proof.
  unfold polyneval.
  assert (H : forall a,
            fold_left (fun y pv => fadd (fmul y (Fin z)) pv) (map Fin cs) (Fin a)
            = Fin (fold_left (fun y c => y * z + c) cs a)).
  { induction cs as [|c cs IH]; intros a; [reflexivity|].
    cbn [map fold_left fmul fadd]. apply IH. }
  apply H.
Qed.

(** [polyneval] on the Eulerian row is the Eulerian polynomial. *)
Lemma polyneval_eulerian_with (g : Z -> R) (n : nat) (z : R) :
  polyneval (map (fun k => Fin (g k)) (eulerian_all n)) (Fin z)
  = Fin (poly_asc (map (fun j => g (euler_A n j)) (seq 0 n)) z).
Proof.
  rewrite <- (map_map g Fin), polyneval_fin, horner_poly_asc.
  rewrite <- map_rev, eulerian_all_rev, eulerian_all_row, map_map.
  reflexivity.
Qed.

Lemma polyneval_eulerian (n : nat) (z : R) :
  polyneval (map (fun k => Fin (IZR k)) (eulerian_all n)) (Fin z)
  = Fin (euler_poly n z).
Proof. apply (polyneval_eulerian_with IZR). Qed.

Lemma polyneval_stored (n : nat) (z : R) :
  polyneval (map (fun k => Fin (IZR (round_int k))) (eulerian_all n)) (Fin z)
  = Fin (euler_poly_f64 n z).
Proof. apply (polyneval_eulerian_with (fun k => IZR (round_int k))). Qed.

Lemma poly_asc_nonneg (cs : list R) (z : R) :
  0 <= z -> Forall (fun c => 0 <= c) cs -> 0 <= poly_asc cs z.
Proof.
  intros Hz. induction 1 as [|c cs Hc Hcs IH]; simpl; [lra|].
  assert (0 <= z * poly_asc cs z) by (apply Rmult_le_pos; assumption). lra.
Qed.

Lemma euler_poly_pos (n : nat) (z : R) :
  (0 < n)%nat -> 0 <= z -> 1 <= euler_poly n z.
Proof.
  intros Hn Hz. unfold euler_poly.
  destruct n as [|n]; [lia|].
  rewrite <- cons_seq. cbn [map poly_asc].
  assert (0 <= poly_asc (map (fun j => IZR (euler_A (S n) j)) (seq 1 n)) z).
  { apply poly_asc_nonneg; [exact Hz|].
    apply Forall_map, Forall_forall. intros j _.
    apply IZR_le. apply euler_A_nonneg. }
  assert (0 <= z * poly_asc (map (fun j => IZR (euler_A (S n) j)) (seq 1 n)) z)
    by (apply Rmult_le_pos; assumption).
  change (euler_A (S n) 0) with 1%Z. lra.
Qed.

Lemma euler_poly_0 (z : R) : euler_poly 0 z = 0.
Proof. reflexivity. Qed.

(* ================================================================== *)
(** * Soundness of the bounds on [exp] and [ln] *)
(* ================================================================== *)

Lemma scale_pos : 0 < IZR scale.
Proof. apply IZR_lt. reflexivity. Qed.

Lemma iter_sq_sound (k : nat) (c : Z) :
  (0 <= c)%Z ->
  (0 <= iter_sq k c)%Z /\
  IZR (iter_sq k c) / IZR scale <= (IZR c / IZR scale) ^ (2 ^ k).
Proof.
  revert c; induction k as [|k IH]; intros c Hc.
  - simpl. split; [exact Hc | lra].
  - pose proof scale_pos as HS.
    assert (Hc' : (0 <= c * c / scale)%Z).
    { apply Z.div_pos; [nia | reflexivity]. }
    destruct (IH _ Hc') as [H1 H2].
    split; [exact H1|].
    cbn [iter_sq].
    eapply Rle_trans; [exact H2|].
    replace (2 ^ S k)%nat with (2 * 2 ^ k)%nat by (simpl; lia).
    rewrite pow_mult.
    apply pow_incr. split.
    + apply Rmult_le_pos; [apply IZR_le; exact Hc'|].
      apply Rlt_le, Rinv_0_lt_compat, HS.
    + assert (Hd : (c * c / scale * scale <= c * c)%Z).
      { rewrite Z.mul_comm. apply Z.mul_div_le. reflexivity. }
      apply IZR_le in Hd. rewrite !mult_IZR in Hd.
      apply (Rmult_le_reg_r (IZR scale)); [exact HS|].
      unfold Rdiv. simpl pow. rewrite Rmult_1_r.
      replace (IZR (c * c / scale) * / IZR scale * IZR scale)
        with (IZR (c * c / scale)) by (field; lra).
      apply (Rmult_le_reg_r (IZR scale)); [exact HS|].
      replace (IZR c * / IZR scale * (IZR c * / IZR scale) * IZR scale * IZR scale)
        with (IZR c * IZR c) by (field; lra).
      exact Hd.
Qed.

Lemma exp_pow_nat (t : R) (n : nat) : exp t ^ n = exp (INR n * t).
Proof.
  induction n as [|n IH].
  - simpl. rewrite Rmult_0_l, exp_0. reflexivity.
  - rewrite S_INR. simpl pow. rewrite IH, <- exp_plus. f_equal. lra.
Qed.

Lemma exp_lb_at_sound (k : nat) (bn bd : Z) :
  (0 < bd)%Z -> (0 <= bd * 2 ^ Z.of_nat k + bn)%Z ->
  IZR (exp_lb_at k bn bd) / IZR scale <= exp (IZR bn / IZR bd).
Proof.
  intros Hbd Hnum. pose proof scale_pos as HS.
  assert (HNR : IZR (2 ^ Z.of_nat k) = INR (2 ^ k)).
  { rewrite pow_INR, <- pow_IZR. reflexivity. }
  assert (HN : (0 < 2 ^ Z.of_nat k)%Z) by (apply Z.pow_pos_nonneg; lia).
  revert HNR HN Hnum. unfold exp_lb_at.
  generalize (2 ^ Z.of_nat k)%Z. intros N HNR HN Hnum.
  set (c0 := (scale * (bd * N + bn) / (bd * N))%Z).
  assert (Hden : (0 < bd * N)%Z) by nia.
  assert (Hc0 : (0 <= c0)%Z).
  { apply Z.div_pos; [|exact Hden].
    apply Z.mul_nonneg_nonneg; [discriminate | exact Hnum]. }
  destruct (iter_sq_sound k c0 Hc0) as [_ H].
  eapply Rle_trans; [exact H|].
  set (t := IZR bn / IZR bd / IZR N).
  assert (HbdR : 0 < IZR bd) by (apply IZR_lt; exact Hbd).
  assert (HNRpos : 0 < IZR N) by (apply IZR_lt; exact HN).
  assert (Ht : IZR c0 / IZR scale <= 1 + t).
  { assert (Hd : (c0 * (bd * N) <= scale * (bd * N + bn))%Z).
    { unfold c0. rewrite Z.mul_comm. apply Z.mul_div_le. exact Hden. }
    apply IZR_le in Hd. rewrite !mult_IZR, plus_IZR, mult_IZR in Hd.
    apply (Rmult_le_reg_r (IZR scale * (IZR bd * IZR N))).
    { apply Rmult_lt_0_compat; [exact HS|].
      apply Rmult_lt_0_compat; assumption. }
    unfold t.
    replace (IZR c0 / IZR scale * (IZR scale * (IZR bd * IZR N)))
      with (IZR c0 * (IZR bd * IZR N)) by (field; lra).
    replace ((1 + IZR bn / IZR bd / IZR N) * (IZR scale * (IZR bd * IZR N)))
      with (IZR scale * (IZR bd * IZR N + IZR bn))
      by (field; lra).
    exact Hd. }
  assert (H0 : 0 <= IZR c0 / IZR scale).
  { apply Rmult_le_pos; [apply IZR_le; exact Hc0|].
    apply Rlt_le, Rinv_0_lt_compat, HS. }
  eapply Rle_trans.
  { apply pow_incr. split; [exact H0 | exact Ht]. }
  eapply Rle_trans.
  { apply pow_incr. split; [lra | apply exp_ineq1_le]. }
  rewrite exp_pow_nat. apply Req_le. f_equal.
  rewrite <- HNR. unfold t. field. lra.
Qed.

Lemma exp_lb_sound (bn bd : Z) :
  (0 < bd)%Z -> (0 <= bd * 2 ^ Z.of_nat halvings + bn)%Z ->
  IZR (exp_lb bn bd) / IZR scale <= exp (IZR bn / IZR bd).
Proof. apply exp_lb_at_sound. Qed.

Lemma ln_le_check_sound (yn yd hn hd : Z) :
  ln_le_check yn yd hn hd = true ->
  ln (IZR yn / IZR yd) <= IZR hn / IZR hd.
Proof.
  unfold ln_le_check. rewrite !andb_true_iff.
  intros ((((Hyn & Hyd) & Hhd) & Hnum) & Hchk).
  apply Z.ltb_lt in Hyn, Hyd, Hhd. apply Z.leb_le in Hnum, Hchk.
  pose proof scale_pos as HS.
  pose proof (exp_lb_sound hn hd Hhd Hnum) as HL.
  apply IZR_lt in Hyn, Hyd. apply IZR_le in Hchk. rewrite !mult_IZR in Hchk.
  assert (Hy : 0 < IZR yn / IZR yd) by (apply Rdiv_lt_0_compat; assumption).
  revert HL Hchk. generalize (IZR (exp_lb hn hd)). intros L HL Hchk.
  assert (Hle : IZR yn / IZR yd <= exp (IZR hn / IZR hd)).
  { eapply Rle_trans; [|exact HL].
    apply (Rmult_le_reg_r (IZR scale * IZR yd)).
    { apply Rmult_lt_0_compat; assumption. }
    replace (IZR yn / IZR yd * (IZR scale * IZR yd))
      with (IZR yn * IZR scale) by (field; lra).
    replace (L / IZR scale * (IZR scale * IZR yd))
      with (L * IZR yd) by (field; lra).
    exact Hchk. }
  rewrite <- (ln_exp (IZR hn / IZR hd)).
  destruct Hle as [Hlt|Heq].
  - apply Rlt_le, ln_increasing; assumption.
  - rewrite Heq. lra.
Qed.

Lemma ln_ge_check_sound (yn yd hn hd : Z) :
  ln_ge_check yn yd hn hd = true ->
  IZR hn / IZR hd <= ln (IZR yn / IZR yd).
Proof.
  unfold ln_ge_check. rewrite !andb_true_iff.
  intros ((((Hyn & Hyd) & Hhd) & Hnum) & Hchk).
  apply Z.ltb_lt in Hyn, Hyd, Hhd. apply Z.leb_le in Hnum, Hchk.
  pose proof scale_pos as HS.
  assert (Hnum' : (0 <= hd * 2 ^ Z.of_nat halvings + - hn)%Z) by lia.
  pose proof (exp_lb_sound (- hn) hd Hhd Hnum') as HL.
  apply IZR_lt in Hyn, Hyd, Hhd. apply IZR_le in Hchk. rewrite !mult_IZR in Hchk.
  assert (Hy : 0 < IZR yn / IZR yd) by (apply Rdiv_lt_0_compat; assumption).
  rewrite opp_IZR in HL.
  revert HL Hchk. generalize (IZR (exp_lb (- hn) hd)). intros L HL Hchk.
  replace (- IZR hn / IZR hd) with (- (IZR hn / IZR hd)) in HL by (field; lra).
  rewrite exp_Ropp in HL.
  pose proof (exp_pos (IZR hn / IZR hd)) as He.
  assert (Hle : exp (IZR hn / IZR hd) <= IZR yn / IZR yd).
  { assert (Hinv : IZR yd / IZR yn <= / exp (IZR hn / IZR hd)).
    { eapply Rle_trans; [|exact HL].
      apply (Rmult_le_reg_r (IZR scale * IZR yn)).
      { apply Rmult_lt_0_compat; assumption. }
      replace (IZR yd / IZR yn * (IZR scale * IZR yn))
        with (IZR yd * IZR scale) by (field; lra).
      replace (L / IZR scale * (IZR scale * IZR yn))
        with (L * IZR yn) by (field; lra).
      exact Hchk. }
    apply (Rmult_le_reg_r (IZR yd / IZR yn * / exp (IZR hn / IZR hd))).
    { apply Rmult_lt_0_compat;
        [apply Rdiv_lt_0_compat; assumption | apply Rinv_0_lt_compat; exact He]. }
    replace (exp (IZR hn / IZR hd) * (IZR yd / IZR yn * / exp (IZR hn / IZR hd)))
      with (IZR yd / IZR yn) by (field; lra).
    replace (IZR yn / IZR yd * (IZR yd / IZR yn * / exp (IZR hn / IZR hd)))
      with (/ exp (IZR hn / IZR hd)) by (field; lra).
    exact Hinv. }
  rewrite <- (ln_exp (IZR hn / IZR hd)).
  destruct Hle as [Hlt|Heq].
  - apply Rlt_le, ln_increasing; assumption.
  - rewrite <- Heq. lra.
Qed.

(** The bounds at work: nine digits of [ln 2]. *)
Example ln_2_bounds : 693147180 / 1000000000 <= ln (2 / 1) <= 693147181 / 1000000000.
Proof.
  split.
  - apply (ln_ge_check_sound 2 1 693147180 1000000000). vm_compute. reflexivity.
  - apply (ln_le_check_sound 2 1 693147181 1000000000). vm_compute. reflexivity.
Qed.

(* ================================================================== *)
(** * The Eulerian row stored as float64 *)
(* ================================================================== *)

Lemma nth_map_seq (f : nat -> Z) (m k : nat) :
  nth k (map f (seq 0 m)) 0%Z = if (k <? m)%nat then f k else 0%Z.
Proof.
  destruct (Nat.ltb_spec k m) as [H|H].
  - rewrite (nth_indep _ 0%Z (f 0%nat)) by (rewrite length_map, length_seq; exact H).
    rewrite map_nth, seq_nth by exact H. reflexivity.
  - apply nth_overflow. rewrite length_map, length_seq. exact H.
Qed.

Lemma euler_row_spec (n : nat) : euler_row n = map (euler_A n) (seq 0 n).
Proof.
  induction n as [|m IH]; [reflexivity|].
  cbn [euler_row]. rewrite IH. unfold euler_next.
  apply map_ext_in. intros j Hj. apply in_seq in Hj.
  destruct j as [|j']; [reflexivity|].
  rewrite !nth_map_seq.
  destruct (Nat.ltb_spec j' m) as [_|H]; [|lia].
  change (euler_A (S m) (S j'))
    with (if (S j' <? S m)%nat
          then (Z.of_nat (S m - S j') * euler_A m j'
                + Z.of_nat (S j' + 1) * euler_A m (S j'))%Z
          else 0%Z).
  destruct (Nat.ltb_spec (S j') (S m)) as [_|H]; [|lia].
  destruct (Nat.ltb_spec (S j') m) as [_|H]; [reflexivity|].
  rewrite (euler_A_above m (S j')) by lia. reflexivity.
Qed.

Lemma eulerian_all_euler_row (n : nat) : eulerian_all n = euler_row n.
Proof. rewrite eulerian_all_row, euler_row_spec. reflexivity. Qed.

Lemma round_int_exact (z : Z) : exact_float z = true -> round_int z = z.
Proof. unfold exact_float, round_int. intros ->. reflexivity. Qed.

Lemma float_of_int_fits (z : Z) :
  fits_float z = true -> float_of_int z = Ok (Fin (IZR (round_int z))).
Proof.
  unfold fits_float, float_of_int. cbv zeta.
  destruct (2 ^ 1024 <=? Z.abs (round_int z))%Z; [discriminate | reflexivity].
Qed.

Lemma float_of_int_overflow (z : Z) :
  fits_float z = false -> float_of_int z = Raise OverflowError.
Proof.
  unfold fits_float, float_of_int. cbv zeta.
  destruct (2 ^ 1024 <=? Z.abs (round_int z))%Z; [reflexivity | discriminate].
Qed.

Lemma exact_float_fits (z : Z) : exact_float z = true -> fits_float z = true.
Proof.
  intros H. unfold fits_float. rewrite (round_int_exact z H).
  unfold exact_float in H. apply Z.ltb_lt in H.
  assert (H2 : (2 ^ 53 < 2 ^ 1024)%Z) by (apply Z.pow_lt_mono_r; lia).
  destruct (Z.leb_spec (2 ^ 1024) (Z.abs z)) as [H3|_]; [lia | reflexivity].
Qed.

Lemma to_floats_fits (l : list Z) :
  forallb fits_float l = true ->
  to_floats l = Ok (map (fun z => Fin (IZR (round_int z))) l).
Proof.
  intros H. unfold to_floats. apply mapM_ok.
  intros z Hz. apply float_of_int_fits.
  rewrite forallb_forall in H. apply H, Hz.
Qed.

Lemma to_floats_exact (l : list Z) :
  forallb exact_float l = true ->
  to_floats l = Ok (map (fun z => Fin (IZR z)) l).
Proof.
  intros H. unfold to_floats. apply mapM_ok.
  intros z Hz. rewrite forallb_forall in H. specialize (H z Hz).
  rewrite (float_of_int_fits z (exact_float_fits z H)).
  rewrite (round_int_exact z H). reflexivity.
Qed.

Lemma to_floats_overflow (l : list Z) :
  existsb (fun z => negb (fits_float z)) l = true ->
  to_floats l = Raise OverflowError.
Proof.
  unfold to_floats. induction l as [|z l IH]; [discriminate|].
  cbn [existsb mapM]. intros H.
  destruct (fits_float z) eqn:E.
  - rewrite (float_of_int_fits z E). cbn [bind].
    cbn [negb orb] in H. rewrite (IH H). reflexivity.
  - rewrite (float_of_int_overflow z E). reflexivity.
Qed.

Lemma rows_check_sound (check : Z -> bool) (k i : nat) :
  rows_check check k i (euler_row i) = true ->
  forall n : nat, (i < n <= i + k)%nat -> forallb check (euler_row n) = true.
Proof.
  revert i. induction k as [|k IH]; intros i H n Hn; [lia|].
  cbn [rows_check] in H. apply andb_true_iff in H. destruct H as [H1 H2].
  change (euler_next (S i) (euler_row i)) with (euler_row (S i)) in H1, H2.
  destruct (Nat.eq_dec n (S i)) as [->|Hne]; [exact H1|].
  apply (IH (S i) H2). lia.
Qed.

(** Rows 1 to 18 hold integers below [2^53]; rows up to 171 round to
    finite floats; row 172 does not. *)
Lemma rows_exact_18 (n : nat) :
  (n <= 18)%nat -> forallb exact_float (euler_row n) = true.
Proof.
  intros Hn. destruct n as [|n]; [reflexivity|].
  apply (rows_check_sound exact_float 18 0); [vm_compute; reflexivity | lia].
Qed.

Lemma rows_fit_171 (n : nat) :
  (n <= 171)%nat -> forallb fits_float (euler_row n) = true.
Proof.
  intros Hn. destruct n as [|n]; [reflexivity|].
  apply (rows_check_sound fits_float 171 0); [vm_compute; reflexivity | lia].
Qed.

Lemma row_172_overflow :
  existsb (fun z => negb (fits_float z)) (euler_row 172) = true.
Proof. vm_compute. reflexivity. Qed.

Lemma row_19_rounded :
  existsb (fun z => negb (exact_float z)) (euler_row 19) = true.
Proof. vm_compute. reflexivity. Qed.

Lemma eulerian_all_exact (n : nat) :
  (n <= 18)%nat ->
  to_floats (eulerian_all n) = Ok (map (fun z => Fin (IZR z)) (eulerian_all n)).
Proof.
  intros Hn. apply to_floats_exact. rewrite eulerian_all_euler_row.
  apply rows_exact_18. exact Hn.
Qed.

Lemma eulerian_all_stored (n : nat) :
  (n <= 171)%nat ->
  to_floats (eulerian_all n)
  = Ok (map (fun z => Fin (IZR (round_int z))) (eulerian_all n)).
Proof.
  intros Hn. apply to_floats_fits. rewrite eulerian_all_euler_row.
  apply rows_fit_171. exact Hn.
Qed.

Lemma eulerian_all_overflow :
  to_floats (eulerian_all 172) = Raise OverflowError.
Proof.
  apply to_floats_overflow. rewrite eulerian_all_euler_row.
  exact row_172_overflow.
Qed.

Lemma euler_poly_f64_exact (n : nat) (z : R) :
  (n <= 18)%nat -> euler_poly_f64 n z = euler_poly n z.
Proof.
  intros Hn. unfold euler_poly_f64, euler_poly. f_equal.
  apply map_ext_in. intros j Hj. f_equal. apply round_int_exact.
  pose proof (rows_exact_18 n Hn) as H. rewrite forallb_forall in H.
  apply H. rewrite euler_row_spec. apply in_map. exact Hj.
Qed.

(* ================================================================== *)
(** * Eulerian numbers: the recurrence and the reference row *)
(* ================================================================== *)

(** C9. [eulerian] and [eulerian_all] compute the Eulerian number triangle
    by the recurrence A(i,0) = 1 for i > 0, A(i,j) = (i-j) A(i-1,j-1) +
    (j+1) A(i-1,j) for 0 < j < i, and A(i,j) = 0 for j >= i;
    [eulerian_all n] lists row [n], and [eulerian_all 10] is exactly
    [1, 1013, 47840, 455192, 1310354, 1310354, 455192, 47840, 1013, 1],
    also once stored as floats. *)
Theorem eulerian_recurrence :
  (forall i : nat, (0 < i)%nat -> eulerian i 0 = 1%Z) /\
  (forall i j : nat, (0 < j < i)%nat ->
     eulerian i j =
     (Z.of_nat (i - j) * eulerian (i - 1) (j - 1)
      + Z.of_nat (j + 1) * eulerian (i - 1) j)%Z) /\
  (forall i j : nat, (i <= j)%nat -> eulerian i j = 0%Z) /\
  (forall n : nat, eulerian_all n = map (euler_A n) (seq 0 n)) /\
  eulerian_all 10 =
    [1; 1013; 47840; 455192; 1310354; 1310354; 455192; 47840; 1013; 1]%Z /\
  to_floats (eulerian_all 10) =
    Ok (map Fin [1; 1013; 47840; 455192; 1310354; 1310354; 455192; 47840; 1013; 1]).
Proof.
  assert (Hrow : eulerian_all 10 =
    [1; 1013; 47840; 455192; 1310354; 1310354; 455192; 47840; 1013; 1]%Z)
    by (vm_compute; reflexivity).
  split; [|split; [|split; [|split; [|split]]]].
  - intros i Hi. rewrite eulerian_euler_A.
    destruct i as [|i]; [lia | reflexivity].
  - intros i j [Hj Hi]. rewrite !eulerian_euler_A.
    destruct i as [|i]; [lia|]. destruct j as [|j]; [lia|].
    replace (S i - 1)%nat with i by lia.
    replace (S j - 1)%nat with j by lia.
    simpl euler_A.
    destruct (Nat.ltb_spec (S j) (S i)); [reflexivity | lia].
  - intros i j Hij. rewrite eulerian_euler_A. apply euler_A_above. exact Hij.
  - intros n. unfold eulerian_all. apply map_ext.
    intros i. apply eulerian_euler_A.
  - exact Hrow.
  - rewrite (eulerian_all_exact 10) by lia. rewrite Hrow. reflexivity.
Qed.

Lemma eulerian_recurrence_witness :
  eulerian 3 0 = 1%Z /\
  eulerian 4 2 =
    (Z.of_nat (4 - 2) * eulerian (4 - 1) (2 - 1)
     + Z.of_nat (2 + 1) * eulerian (4 - 1) 2)%Z /\
  eulerian 2 5 = 0%Z.
Proof.
  destruct eulerian_recurrence as (H0 & Hrec & Hab & _).
  split; [apply H0; lia|].
  split; [apply (Hrec 4%nat 2%nat); lia | apply Hab; lia].
Defined.

(* ================================================================== *)
(** * [lsum]: value on positive vectors, and no domain error *)
(* ================================================================== *)

Lemma lsum_zero_one : lsum [Fin 0; Fin 1] = Ok (Fin 0).
Proof.
  unfold lsum. cbn [map flog]. rdecide.
  cbn [pymax fold_left fgt flt bind map fsub fneg fadd fexp npsum fold_right].
  rewrite ln_1. replace (0 + - 0) with 0 by lra. rewrite exp_0.
  cbn [flog]. rdecide. do 2 f_equal.
  replace (0 + (1 + 0)) with 1 by lra. rewrite ln_1. lra.
Qed.

Lemma lsum_negative_one : lsum [Fin (-1); Fin 1] = Ok NaN.
Proof.
  unfold lsum. cbn [map flog]. rdecide. reflexivity.
Qed.

(** C6 (as stated, refuted). An entry [<= 0] does not make [lsum] fail:
    [lsum [0; 1]] is the value [0]. *)
Lemma lsum_no_domain_error :
  ~ (forall x : vector,
       Exists (fun xi => fle xi (Fin 0) = true) x -> raises (lsum x)).
Proof.
  intros H. destruct (H [Fin 0; Fin 1]) as [e He].
  - apply Exists_cons_hd. unfold fle, flt, feq. rdecide. reflexivity.
  - rewrite lsum_zero_one in He. discriminate.
Qed.

(** C6 (amended). [lsum x] is log(sum x), computed with the largest
    log-value factored out, for every non-empty vector of strictly positive
    reals; the value factored out is the maximum of the logs.  No entry
    makes it fail: every non-empty vector gives a value, an entry [<= 0]
    only sends [-inf] or [nan] through the arithmetic ([lsum [0; 1] = 0],
    [lsum [-1; 1] = nan]); the one exception is [ValueError] on the empty
    vector. *)
Theorem lsum_log_of_sum :
  (forall xs : list R, xs <> [] -> Forall (fun x => 0 < x) xs ->
     lsum (map Fin xs) = Ok (Fin (ln (Rsum xs))) /\
     exists M, pymax (map flog (map Fin xs)) = Ok (Fin M) /\
               Forall (fun x => ln x <= M) xs) /\
  (forall x : vector, x <> [] -> exists r, lsum x = Ok r) /\
  lsum [Fin 0; Fin 1] = Ok (Fin 0) /\
  lsum [Fin (-1); Fin 1] = Ok NaN /\
  lsum [] = Raise ValueError.
Proof.
  split; [|split; [|split; [|split]]].
  - intros xs Hne Hpos. split; [apply lsum_positive; assumption|].
    rewrite (map_flog_pos xs Hpos).
    destruct xs as [|a xs]; [contradiction|].
    exists (fold_left Rmax (map ln xs) (ln a)).
    split; [apply pymax_fin|].
    destruct (fold_Rmax_ge (map ln xs) (ln a)) as [Ha Hxs].
    constructor; [exact Ha|].
    rewrite Forall_map in Hxs. exact Hxs.
  - apply lsum_total.
  - exact lsum_zero_one.
  - exact lsum_negative_one.
  - reflexivity.
Qed.

Lemma lsum_log_of_sum_witness :
  lsum (map Fin [2; 3]) = Ok (Fin (ln (Rsum [2; 3]))) /\
  exists r, lsum [Fin 0; Fin (-4)] = Ok r.
Proof.
  destruct lsum_log_of_sum as (Hpos & Htot & _).
  split.
  - apply (Hpos [2; 3]); [discriminate|].
    repeat constructor; lra.
  - apply Htot. discriminate.
Defined.

(* ================================================================== *)
(** * [lssum]: the sign of a term is taken from its log-magnitude *)
(* ================================================================== *)

Lemma fabs_idem (x : npfloat) : fabs (fabs x) = fabs x.
Proof. destruct x; simpl; try reflexivity. rewrite Rabs_Rabsolu. reflexivity. Qed.

(** [lssum] only ever looks at absolute values. *)
Lemma lssum_abs (x : vector) : lssum (map fabs x) = lssum x.
Proof.
  unfold lssum. rewrite (map_map fabs fabs).
  rewrite (map_ext (fun v => fabs (fabs v)) fabs fabs_idem). reflexivity.
Qed.

Lemma ln2_pos : 0 < ln 2.
Proof. pose proof ln_lt_2. lra. Qed.

Lemma ln2_lt_ln3 : ln 2 < ln 3.
Proof. apply ln_increasing; lra. Qed.

Lemma ln_half_neg : ln (1 / 2) < 0.
Proof. rewrite <- ln_1. apply ln_increasing; lra. Qed.

Lemma lssum_three_minus_two : lssum [Fin 3; Fin (-2)] = Ok (Fin (ln 5)).
Proof.
  pose proof ln2_pos as H2. pose proof ln2_lt_ln3 as H23.
  unfold lssum. cbn [map fabs].
  rewrite (Rabs_pos_eq 3) by lra.
  rewrite (Rabs_left (-2)) by lra.
  replace (- -2) with 2 by lra.
  cbn [flog]. rdecide.
  cbn [npsort fold_right sort_insert]. unfold fle. cbn [flt feq is_nan]. rdecide.
  cbn [orb pymax fold_left]. unfold fgt. cbn [flt]. rdecide.
  cbn [bind fold_left]. unfold lssum_step, fge, fle, fsub.
  cbn [flt feq]. rdecide.
  cbn [orb fneg fadd fexp].
  assert (E1 : exp (ln 2 + - ln 3) = 2 / 3).
  { rewrite exp_plus, exp_Ropp, !exp_ln by lra. lra. }
  assert (E2 : exp (ln 3 + - ln 3) = 1).
  { replace (ln 3 + - ln 3) with 0 by lra. apply exp_0. }
  rewrite E1, E2.
  replace (0 + 2 / 3 + 1) with (5 / 3) by lra.
  cbn [flog]. rdecide. cbn [fadd]. do 2 f_equal.
  rewrite <- ln_mult by lra. f_equal. lra.
Qed.

Lemma lssum_two_halves : lssum [Fin (1 / 2); Fin (1 / 2)] = Ok NaN.
Proof.
  pose proof ln_half_neg as Hh.
  unfold lssum. cbn [map fabs].
  rewrite (Rabs_pos_eq (1 / 2)) by lra.
  cbn [flog]. rdecide.
  cbn [npsort fold_right sort_insert]. unfold fle. cbn [flt feq is_nan]. rdecide.
  cbn [orb pymax fold_left]. unfold fgt. cbn [flt]. rdecide.
  cbn [bind fold_left]. unfold lssum_step, fge, fle, fsub.
  cbn [flt feq]. rdecide.
  cbn [orb fneg fadd fexp].
  replace (ln (1 / 2) + - ln (1 / 2)) with 0 by lra. rewrite exp_0.
  cbn [flog].
  rewrite (Rltb_false 0 (0 + - (1) + - (1))) by lra.
  rewrite (Reqb_false (0 + - (1) + - (1)) 0) by lra.
  reflexivity.
Qed.

(** C1 (the code at the failing inputs). The sum [3 + (-2)] is [1] and
    non-negative, yet [lssum] returns [log 5], the log of [3 + 2]; the sum
    [1/2 + 1/2] is [1], yet [lssum] returns [nan]: the branch of the loop
    tests the sign of the log-magnitude, never the sign of the term. *)
Theorem lssum_drops_sign :
  lssum [Fin 3; Fin (-2)] = Ok (Fin (ln 5)) /\
  Rsum [3; -2] = 1 /\
  ln 5 <> ln (Rsum [3; -2]) /\
  lssum [Fin (1 / 2); Fin (1 / 2)] = Ok NaN /\
  Rsum [1 / 2; 1 / 2] = 1.
Proof.
  assert (HS : Rsum [3; -2] = 1) by (simpl; lra).
  split; [exact lssum_three_minus_two|].
  split; [exact HS|].
  split.
  - rewrite HS, ln_1.
    assert (0 < ln 5) by (rewrite <- ln_1; apply ln_increasing; lra). lra.
  - split; [exact lssum_two_halves | simpl; lra].
Qed.

(* ================================================================== *)
(** * [log1mexp] and [polylog] *)
(* ================================================================== *)

Lemma log1mexp_pos (x : R) :
  0 < x -> log1mexp (Fin x) = Fin (ln (1 - exp (- x))).
Proof.
  intros Hx.
  assert (He : exp (- x) < 1).
  { rewrite <- exp_0. apply exp_increasing. lra. }
  unfold log1mexp.
  destruct (fle (Fin x) (flog (Fin 2))).
  - unfold fexpm1, fsub. cbn [fneg fexp fadd].
    rewrite flog_pos by lra. do 2 f_equal. lra.
  - unfold flog1p. cbn [fneg fexp fadd].
    rewrite flog_pos by lra. reflexivity.
Qed.

Lemma polylog_stored (n : nat) (z : R) :
  (n <= 171)%nat ->
  polylog (Fin z) (- Z.of_nat n) false =
  Ok (fsub (fadd (flog (Fin (euler_poly_f64 n z))) (flog (Fin z)))
           (fmul (Fin (INR n + 1)) (flog (Fin (1 - z))))).
Proof.
  intros Hn. unfold polylog. rewrite Z.opp_involutive.
  destruct (Z.ltb_spec (Z.of_nat n) 0) as [H|_]; [lia|].
  rewrite Nat2Z.id, (eulerian_all_stored n Hn). cbn [bind].
  rewrite polyneval_stored, <- INR_IZR_INZ.
  unfold flog1p. cbn [fneg fadd]. reflexivity.
Qed.

Lemma polylog_stored_log (n : nat) (w : R) :
  (n <= 171)%nat ->
  polylog (Fin w) (- Z.of_nat n) true =
  Ok (fsub (fadd (flog (Fin (euler_poly_f64 n (exp w)))) (Fin w))
           (fmul (Fin (INR n + 1)) (log1mexp (Fin (- w))))).
Proof.
  intros Hn. unfold polylog. rewrite Z.opp_involutive.
  destruct (Z.ltb_spec (Z.of_nat n) 0) as [H|_]; [lia|].
  cbn [fexp]. rewrite Nat2Z.id, (eulerian_all_stored n Hn). cbn [bind].
  rewrite polyneval_stored, <- INR_IZR_INZ.
  reflexivity.
Qed.

(** From row 172 on an entry of the row is beyond the float64 range. *)
Lemma polylog_row_overflow (z : npfloat) (b : bool) :
  polylog z (-172) b = Raise OverflowError.
Proof.
  unfold polylog.
  change (- -172)%Z with (Z.of_nat 172).
  destruct (Z.ltb_spec (Z.of_nat 172) 0) as [H|_]; [lia|].
  rewrite Nat2Z.id, eulerian_all_overflow. reflexivity.
Qed.

Lemma polylog_nat (n : nat) (z : R) :
  (n <= 18)%nat ->
  polylog (Fin z) (- Z.of_nat n) false =
  Ok (fsub (fadd (flog (Fin (euler_poly n z))) (flog (Fin z)))
           (fmul (Fin (INR n + 1)) (flog (Fin (1 - z))))).
Proof.
  intros Hn. rewrite polylog_stored by lia.
  rewrite euler_poly_f64_exact by exact Hn. reflexivity.
Qed.

Lemma polylog_nat_log (n : nat) (w : R) :
  (n <= 18)%nat ->
  polylog (Fin w) (- Z.of_nat n) true =
  Ok (fsub (fadd (flog (Fin (euler_poly n (exp w)))) (Fin w))
           (fmul (Fin (INR n + 1)) (log1mexp (Fin (- w))))).
Proof.
  intros Hn. rewrite polylog_stored_log by lia.
  rewrite euler_poly_f64_exact by exact Hn. reflexivity.
Qed.

Lemma polylog_real (n : nat) (z : R) :
  (0 < n <= 18)%nat -> 0 < z < 1 ->
  polylog (Fin z) (- Z.of_nat n) false =
  Ok (Fin (ln (euler_poly n z) + ln z - (INR n + 1) * ln (1 - z))).
Proof.
  intros [Hn Hn18] [Hz0 Hz1]. rewrite polylog_nat by exact Hn18.
  pose proof (euler_poly_pos n z Hn (Rlt_le _ _ Hz0)).
  rewrite !flog_pos by lra. reflexivity.
Qed.

Lemma polylog_order2 (z : R) :
  0 < z < 1 ->
  polylog (Fin z) (-2) false = Ok (Fin (ln (1 + z) + ln z - 3 * ln (1 - z))).
Proof.
  intros Hz. change (-2)%Z with (- Z.of_nat 2)%Z.
  rewrite (polylog_real 2 z) by (try lia; exact Hz).
  do 2 f_equal.
  replace (euler_poly 2 z) with (1 + z) by (unfold euler_poly; simpl; lra).
  simpl INR. f_equal. f_equal. lra.
Qed.

Lemma ln_polylog_z0 :
  IZR (-41629797833881) / IZR 10000000000000 <= ln (1556112 / 100000000) <= IZR (-41629797833876) / IZR 10000000000000.
Proof.
  split.
  - apply (ln_ge_check_sound 1556112 100000000 (-41629797833881) 10000000000000). vm_compute. reflexivity.
  - apply (ln_le_check_sound 1556112 100000000 (-41629797833876) 10000000000000). vm_compute. reflexivity.
Qed.

Lemma ln_polylog_p0 :
  IZR (154412873268) / IZR 10000000000000 <= ln (101556112 / 100000000) <= IZR (154412873273) / IZR 10000000000000.
Proof.
  split.
  - apply (ln_ge_check_sound 101556112 100000000 (154412873268) 10000000000000). vm_compute. reflexivity.
  - apply (ln_le_check_sound 101556112 100000000 (154412873273) 10000000000000). vm_compute. reflexivity.
Qed.

Lemma ln_polylog_m0 :
  IZR (-156834651057) / IZR 10000000000000 <= ln (98443888 / 100000000) <= IZR (-156834651052) / IZR 10000000000000.
Proof.
  split.
  - apply (ln_ge_check_sound 98443888 100000000 (-156834651057) 10000000000000). vm_compute. reflexivity.
  - apply (ln_le_check_sound 98443888 100000000 (-156834651052) 10000000000000). vm_compute. reflexivity.
Qed.

Lemma ln_polylog_z1 :
  IZR (-68218712038254) / IZR 10000000000000 <= ln (108968 / 100000000) <= IZR (-68218712038249) / IZR 10000000000000.
Proof.
  split.
  - apply (ln_ge_check_sound 108968 100000000 (-68218712038254) 10000000000000). vm_compute. reflexivity.
  - apply (ln_le_check_sound 108968 100000000 (-68218712038249) 10000000000000). vm_compute. reflexivity.
Qed.

Lemma ln_polylog_p1 :
  IZR (10890867294) / IZR 10000000000000 <= ln (100108968 / 100000000) <= IZR (10890867299) / IZR 10000000000000.
Proof.
  split.
  - apply (ln_ge_check_sound 100108968 100000000 (10890867294) 10000000000000). vm_compute. reflexivity.
  - apply (ln_le_check_sound 100108968 100000000 (10890867299) 10000000000000). vm_compute. reflexivity.
Qed.

Lemma ln_polylog_m1 :
  IZR (-10902741332) / IZR 10000000000000 <= ln (99891032 / 100000000) <= IZR (-10902741327) / IZR 10000000000000.
Proof.
  split.
  - apply (ln_ge_check_sound 99891032 100000000 (-10902741332) 10000000000000). vm_compute. reflexivity.
  - apply (ln_le_check_sound 99891032 100000000 (-10902741327) 10000000000000). vm_compute. reflexivity.
Qed.

Lemma ln_polylog_z2 :
  IZR (-47217804096576) / IZR 10000000000000 <= ln (889932 / 100000000) <= IZR (-47217804096571) / IZR 10000000000000.
Proof.
  split.
  - apply (ln_ge_check_sound 889932 100000000 (-47217804096576) 10000000000000). vm_compute. reflexivity.
  - apply (ln_le_check_sound 889932 100000000 (-47217804096571) 10000000000000). vm_compute. reflexivity.
Qed.

Lemma ln_polylog_p2 :
  IZR (88599544303) / IZR 10000000000000 <= ln (100889932 / 100000000) <= IZR (88599544308) / IZR 10000000000000.
Proof.
  split.
  - apply (ln_ge_check_sound 100889932 100000000 (88599544303) 10000000000000). vm_compute. reflexivity.
  - apply (ln_le_check_sound 100889932 100000000 (88599544308) 10000000000000). vm_compute. reflexivity.
Qed.

Lemma ln_polylog_m2 :
  IZR (-89391554636) / IZR 10000000000000 <= ln (99110068 / 100000000) <= IZR (-89391554631) / IZR 10000000000000.
Proof.
  split.
  - apply (ln_ge_check_sound 99110068 100000000 (-89391554636) 10000000000000). vm_compute. reflexivity.
  - apply (ln_le_check_sound 99110068 100000000 (-89391554631) 10000000000000). vm_compute. reflexivity.
Qed.


Lemma polylog_value0 :
  approx_result (polylog (Fin (1556112 / 100000000)) (-2) false)
    (-41004881 / 10000000) (1 / 10 ^ 8).
Proof.
  rewrite polylog_order2 by lra.
  eexists. split; [reflexivity|].
  pose proof ln_polylog_z0 as Hz. pose proof ln_polylog_p0 as Hp.
  pose proof ln_polylog_m0 as Hm.
  replace (1 + 1556112 / 100000000) with (101556112 / 100000000) by lra.
  replace (1 - 1556112 / 100000000) with (98443888 / 100000000) by lra.
  apply Rabs_le. lra.
Qed.

Lemma polylog_value1 :
  approx_result (polylog (Fin (108968 / 100000000)) (-2) false)
    (-681751129 / 100000000) (1 / 10 ^ 8).
Proof.
  rewrite polylog_order2 by lra.
  eexists. split; [reflexivity|].
  pose proof ln_polylog_z1 as Hz. pose proof ln_polylog_p1 as Hp.
  pose proof ln_polylog_m1 as Hm.
  replace (1 + 108968 / 100000000) with (100108968 / 100000000) by lra.
  replace (1 - 108968 / 100000000) with (99891032 / 100000000) by lra.
  apply Rabs_le. lra.
Qed.

Lemma polylog_value2 :
  approx_result (polylog (Fin (889932 / 100000000)) (-2) false)
    (-468610299 / 100000000) (1 / 10 ^ 8).
Proof.
  rewrite polylog_order2 by lra.
  eexists. split; [reflexivity|].
  pose proof ln_polylog_z2 as Hz. pose proof ln_polylog_p2 as Hp.
  pose proof ln_polylog_m2 as Hm.
  replace (1 + 889932 / 100000000) with (100889932 / 100000000) by lra.
  replace (1 - 889932 / 100000000) with (99110068 / 100000000) by lra.
  apply Rabs_le. lra.
Qed.

(** C8 (amended). For every integer [n] from 0 to 170 and every
    [z] in (0,1), [polylog(z, -n)] returns
    log(P(z)) + log(z) - (n+1) log(1-z), where the coefficients of [P] are
    row [n] of the Eulerian triangle as the float64 array holds them: the
    integers themselves up to [n = 18] (then, for [n >= 1], every term is
    finite), each rounded to the nearest float64 beyond.  With
    [is_log_z] and [w = log z] it returns
    log(P(e^w)) + w - (n+1) log1mexp(-w), which is the same value.  The
    bound is needed: at [n = 172] an entry of the row is beyond the float64
    range and the call raises [OverflowError].  At order -2 and
    z = 0.01556112, 0.00108968, 0.00889932 the results are -4.1004881,
    -6.81751129, -4.68610299 up to 1e-8. *)
Theorem polylog_eulerian :
  (forall (n : nat) (z : R), (n <= 170)%nat -> 0 < z < 1 ->
     polylog (Fin z) (- Z.of_nat n) false =
     Ok (fsub (fadd (flog (Fin (euler_poly_f64 n z))) (flog (Fin z)))
              (fmul (Fin (INR n + 1)) (flog (Fin (1 - z)))))) /\
  (forall (n : nat) (z : R), (n <= 18)%nat ->
     euler_poly_f64 n z = euler_poly n z) /\
  (forall (n : nat) (z : R), (0 < n <= 18)%nat -> 0 < z < 1 ->
     polylog (Fin z) (- Z.of_nat n) false =
     Ok (Fin (ln (euler_poly n z) + ln z - (INR n + 1) * ln (1 - z)))) /\
  (forall (n : nat) (w : R), (n <= 170)%nat -> w < 0 ->
     polylog (Fin w) (- Z.of_nat n) true =
     Ok (fsub (fadd (flog (Fin (euler_poly_f64 n (exp w)))) (Fin w))
              (fmul (Fin (INR n + 1)) (log1mexp (Fin (- w))))) /\
     log1mexp (Fin (- w)) = Fin (ln (1 - exp w)) /\
     polylog (Fin w) (- Z.of_nat n) true =
     polylog (Fin (exp w)) (- Z.of_nat n) false) /\
  (forall (z : npfloat) (b : bool),
     polylog z (- Z.of_nat 172) b = Raise OverflowError) /\
  approx_result (polylog (Fin (1556112 / 100000000)) (-2) false)
    (-41004881 / 10000000) (1 / 10 ^ 8) /\
  approx_result (polylog (Fin (108968 / 100000000)) (-2) false)
    (-681751129 / 100000000) (1 / 10 ^ 8) /\
  approx_result (polylog (Fin (889932 / 100000000)) (-2) false)
    (-468610299 / 100000000) (1 / 10 ^ 8).
Proof.
  split; [|split; [|split; [|split; [|split; [|split; [|split]]]]]].
  - intros n z Hn _. apply polylog_stored. lia.
  - intros n z Hn. apply euler_poly_f64_exact. exact Hn.
  - intros n z Hn Hz. apply polylog_real; assumption.
  - intros n w Hn Hw.
    assert (Hn' : (n <= 171)%nat) by lia.
    assert (Hl : log1mexp (Fin (- w)) = Fin (ln (1 - exp w))).
    { rewrite log1mexp_pos by lra. rewrite Ropp_involutive. reflexivity. }
    split; [apply polylog_stored_log; exact Hn'|]. split; [exact Hl|].
    assert (He : exp w < 1) by (rewrite <- exp_0; apply exp_increasing; lra).
    rewrite polylog_stored_log, polylog_stored, Hl by exact Hn'.
    rewrite (flog_pos (exp w)) by apply exp_pos.
    rewrite (flog_pos (1 - exp w)) by lra.
    rewrite ln_exp. reflexivity.
  - intros z b. apply polylog_row_overflow.
  - exact polylog_value0.
  - exact polylog_value1.
  - exact polylog_value2.
Qed.

Lemma polylog_eulerian_witness :
  polylog (Fin (1 / 2)) (- Z.of_nat 3) false =
    Ok (Fin (ln (euler_poly 3 (1 / 2)) + ln (1 / 2)
             - (INR 3 + 1) * ln (1 - 1 / 2))) /\
  log1mexp (Fin (- (-1))) = Fin (ln (1 - exp (-1))).
Proof.
  destruct polylog_eulerian as (_ & _ & Hreal & Hlog & _).
  split.
  - apply Hreal; [lia | lra].
  - apply (Hlog 3%nat (-1)); [lia | lra].
Defined.

(** C8 (as stated, refuted). [polylog] does not return for every
    non-negative order: at [n = 172] and [z = 1/2] it raises
    [OverflowError]. *)
Lemma polylog_no_row_172 :
  ~ (forall (n : nat) (z : R), 0 < z < 1 ->
       exists v : npfloat, polylog (Fin z) (- Z.of_nat n) false = Ok v).
Proof.
  intros H. destruct (H 172%nat (1 / 2)) as [v Hv]; [lra|].
  change (- Z.of_nat 172)%Z with (-172)%Z in Hv.
  rewrite (polylog_row_overflow (Fin (1 / 2)) false) in Hv. discriminate.
Qed.

(* ================================================================== *)
(** * The diagonal statistic and the closed-form Gumbel estimator *)
(* ================================================================== *)

Lemma fold_Rmax_in (l : list R) (a : R) : In (fold_left Rmax l a) (a :: l).
Proof.
  revert a; induction l as [|b l IH]; intros a; [left; reflexivity|].
  simpl fold_left. destruct (IH (Rmax a b)) as [H|H].
  - rewrite <- H. unfold Rmax. destruct (Rle_dec a b).
    + right; left; reflexivity.
    + left; reflexivity.
  - right; right; exact H.
Qed.

Lemma Rmaxl_in (l : list R) : l <> [] -> In (Rmaxl l) l.
Proof. destruct l as [|a l]; [contradiction | intros _; apply fold_Rmax_in]. Qed.

Lemma Rmaxl_ge (l : list R) : Forall (fun x => x <= Rmaxl l) l.
Proof.
  destruct l as [|a l]; [constructor|].
  destruct (fold_Rmax_ge l a) as [H1 H2]. constructor; assumption.
Qed.

Lemma pymax_row (row : list R) :
  row <> [] -> pymax (map Fin row) = Ok (Fin (Rmaxl row)).
Proof. destruct row as [|a l]; [contradiction | intros _; apply pymax_fin]. Qed.

Lemma diag_copula_fin (U : list (list R)) :
  Forall (fun row => row <> []) U ->
  diag_copula (as_matrix U) = Ok (map Fin (map Rmaxl U)).
Proof.
  unfold diag_copula, as_matrix.
  induction 1 as [|row U Hrow HU IH]; [reflexivity|].
  cbn [map mapM]. rewrite pymax_row by exact Hrow.
  cbn [bind]. rewrite IH. reflexivity.
Qed.

Lemma valid_rows_nonempty (U : list (list R)) (d : nat) :
  valid_U U d -> Forall (fun row => row <> []) U.
Proof.
  intros (_ & Hd & Hrows). eapply Forall_impl; [|exact Hrows].
  intros row [Hlen _] ->. simpl in Hlen. lia.
Qed.

Lemma valid_diag_range (U : list (list R)) (d : nat) :
  valid_U U d -> Forall (fun y => 0 < y < 1) (map Rmaxl U).
Proof.
  intros HU. pose proof (valid_rows_nonempty U d HU) as Hne.
  destruct HU as (_ & _ & Hrows).
  apply Forall_map. rewrite Forall_forall in *.
  intros row Hin. destruct (Hrows row Hin) as [_ Hr].
  rewrite Forall_forall in Hr. apply Hr, Rmaxl_in, Hne, Hin.
Qed.

Lemma valid_shape (U : list (list R)) (d : nat) :
  valid_U U d ->
  shape0 (as_matrix U) = length U /\ shape1 (as_matrix U) = d.
Proof.
  intros (Hne & _ & Hrows). unfold shape0, shape1, as_matrix.
  rewrite length_map. split; [reflexivity|].
  destruct U as [|row U]; [contradiction|].
  inversion Hrows as [|? ? [Hlen _] _]; subst.
  simpl. apply length_map.
Qed.

(** The sum that [lsum] receives in [dmle_copula_gumbel]. *)
Lemma neg_log_diag (ys : list R) :
  Forall (fun y => 0 < y < 1) ys ->
  map (fun yi => fneg (flog yi)) (map Fin ys) = map Fin (map (fun y => - ln y) ys)
  /\ Forall (fun x => 0 < x) (map (fun y => - ln y) ys).
Proof.
  induction 1 as [|y ys [Hy0 Hy1] Hys [IH1 IH2]]; [split; [reflexivity | constructor]|].
  split.
  - cbn [map]. rewrite IH1, flog_pos by exact Hy0. reflexivity.
  - cbn [map]. constructor; [|exact IH2].
    assert (ln y < 0) by (rewrite <- ln_1; apply ln_increasing; lra). lra.
Qed.

Lemma pymax_pair_ge_one (theta r : npfloat) :
  pymax [theta; Fin 1] = Ok r -> r = NaN \/ fle (Fin 1) r = true.
Proof.
  cbn [pymax fold_left]. unfold fgt.
  destruct (flt theta (Fin 1)) eqn:E; intros H; injection H as <-.
  - right. unfold fle, flt, feq. rdecide. reflexivity.
  - destruct theta as [a| | |]; try (left; reflexivity).
    + right. unfold fle, flt, feq. cbn [flt] in E.
      destruct (Rltb_spec a 1); [discriminate|].
      destruct (Rltb_spec 1 a); [reflexivity|].
      rewrite Reqb_true by lra. reflexivity.
    + right. reflexivity.
    + discriminate.
Qed.

Lemma dmle_copula_gumbel_fin (U : list (list R)) (d : nat) :
  valid_U U d ->
  dmle_copula_gumbel (as_matrix U) =
  pymax [fdiv (Fin (ln (INR d)))
              (Fin (ln (INR (length U))
                    - ln (Rsum (map (fun y => - ln y) (map Rmaxl U)))));
         Fin 1].
Proof.
  intros HU. unfold dmle_copula_gumbel.
  rewrite (diag_copula_fin U (valid_rows_nonempty U d HU)). cbn [bind].
  destruct (neg_log_diag _ (valid_diag_range U d HU)) as [E Hpos].
  rewrite E.
  rewrite lsum_positive; [|destruct HU as (Hne & _); destruct U; [contradiction | discriminate] | exact Hpos].
  cbn [bind].
  destruct (valid_shape U d HU) as [-> ->].
  destruct HU as (Hne & Hd & _).
  assert (Hn : 0 < INR (length U)).
  { apply lt_0_INR. destruct U; [contradiction | simpl; lia]. }
  assert (HdR : 0 < INR d) by (apply lt_0_INR; exact Hd).
  unfold of_nat. rewrite !flog_pos by assumption.
  reflexivity.
Qed.

Lemma dmle_copula_gumbel_value (U : list (list R)) (d : nat) :
  valid_U U d ->
  ln (INR (length U)) <> ln (Rsum (map (fun y => - ln y) (map Rmaxl U))) ->
  dmle_copula_gumbel (as_matrix U) =
  Ok (Fin (Rmax 1 (ln (INR d)
                   / (ln (INR (length U))
                      - ln (Rsum (map (fun y => - ln y) (map Rmaxl U))))))).
Proof.
  intros HU Hne. rewrite (dmle_copula_gumbel_fin U d HU).
  cbn [fdiv]. rewrite Reqb_false by lra.
  cbn [pymax fold_left]. unfold fgt. cbn [flt].
  set (q := ln (INR d) / _).
  destruct (Rltb_spec q 1).
  - rewrite Rmax_left by lra. reflexivity.
  - rewrite Rmax_right by lra. reflexivity.
Qed.

Lemma dmle_copula_gumbel_degenerate (U : list (list R)) (d : nat) :
  valid_U U d ->
  ln (INR (length U)) = ln (Rsum (map (fun y => - ln y) (map Rmaxl U))) ->
  dmle_copula_gumbel (as_matrix U) =
  Ok (if (d =? 1)%nat then NaN else PInf).
Proof.
  intros HU Heq. rewrite (dmle_copula_gumbel_fin U d HU).
  rewrite <- Heq. replace (ln (INR (length U)) - ln (INR (length U))) with 0 by lra.
  cbn [fdiv]. rewrite Reqb_true by reflexivity.
  destruct HU as (_ & Hd & _).
  destruct (Nat.eqb_spec d 1) as [->|Hd1].
  - simpl INR. rewrite ln_1. unfold inf_of_sign. rdecide. reflexivity.
  - assert (Hln : 0 < ln (INR d)).
    { assert (H : ln 1 < ln (INR d)).
      { apply ln_increasing; [lra|]. change 1 with (INR 1).
        apply lt_INR. lia. }
      rewrite ln_1 in H. exact H. }
    unfold inf_of_sign. rdecide. reflexivity.
Qed.

Lemma dmle_copula_gumbel_all_ones :
  dmle_copula_gumbel [[Fin (1 / 2); Fin 1]; [Fin 1; Fin (1 / 3)]] = Ok NaN.
Proof.
  unfold dmle_copula_gumbel, diag_copula.
  cbn [mapM pymax fold_left]. unfold fgt. cbn [flt]. rdecide.
  cbn [bind map]. unfold lsum. cbn [map flog]. rdecide.
  rewrite ln_1. cbn [fneg flog]. replace (- 0) with 0 by lra. rdecide.
  feval. reflexivity.
Qed.
Lemma ln_ref_y0 :
  IZR (-3267987856802) / IZR 10000000000000 <= ln (72122885 / 100000000) <= IZR (-3267987856797) / IZR 10000000000000.
Proof.
  split.
  - apply (ln_ge_check_sound 72122885 100000000 (-3267987856802) 10000000000000). vm_compute. reflexivity.
  - apply (ln_le_check_sound 72122885 100000000 (-3267987856797) 10000000000000). vm_compute. reflexivity.
Qed.

Lemma ln_ref_y1 :
  IZR (-7166066957278) / IZR 10000000000000 <= ln (48840676 / 100000000) <= IZR (-7166066957273) / IZR 10000000000000.
Proof.
  split.
  - apply (ln_ge_check_sound 48840676 100000000 (-7166066957278) 10000000000000). vm_compute. reflexivity.
  - apply (ln_le_check_sound 48840676 100000000 (-7166066957273) 10000000000000). vm_compute. reflexivity.
Qed.

Lemma ln_ref_y2 :
  IZR (-4546141609207) / IZR 10000000000000 <= ln (63469281 / 100000000) <= IZR (-4546141609202) / IZR 10000000000000.
Proof.
  split.
  - apply (ln_ge_check_sound 63469281 100000000 (-4546141609207) 10000000000000). vm_compute. reflexivity.
  - apply (ln_le_check_sound 63469281 100000000 (-4546141609202) 10000000000000). vm_compute. reflexivity.
Qed.

Lemma ln_ref_y3 :
  IZR (-849968801791) / IZR 10000000000000 <= ln (91851515 / 100000000) <= IZR (-849968801786) / IZR 10000000000000.
Proof.
  split.
  - apply (ln_ge_check_sound 91851515 100000000 (-849968801791) 10000000000000). vm_compute. reflexivity.
  - apply (ln_le_check_sound 91851515 100000000 (-849968801786) 10000000000000). vm_compute. reflexivity.
Qed.

Lemma ln_ref_y4 :
  IZR (-10544319046565) / IZR 10000000000000 <= ln (34839029 / 100000000) <= IZR (-10544319046560) / IZR 10000000000000.
Proof.
  split.
  - apply (ln_ge_check_sound 34839029 100000000 (-10544319046565) 10000000000000). vm_compute. reflexivity.
  - apply (ln_le_check_sound 34839029 100000000 (-10544319046560) 10000000000000). vm_compute. reflexivity.
Qed.

Lemma ln_ref_y5 :
  IZR (-64520497802) / IZR 10000000000000 <= ln (99356872 / 100000000) <= IZR (-64520497797) / IZR 10000000000000.
Proof.
  split.
  - apply (ln_ge_check_sound 99356872 100000000 (-64520497802) 10000000000000). vm_compute. reflexivity.
  - apply (ln_le_check_sound 99356872 100000000 (-64520497797) 10000000000000). vm_compute. reflexivity.
Qed.

Lemma ln_ref_y6 :
  IZR (-4994942832497) / IZR 10000000000000 <= ln (60683747 / 100000000) <= IZR (-4994942832492) / IZR 10000000000000.
Proof.
  split.
  - apply (ln_ge_check_sound 60683747 100000000 (-4994942832497) 10000000000000). vm_compute. reflexivity.
  - apply (ln_le_check_sound 60683747 100000000 (-4994942832492) 10000000000000). vm_compute. reflexivity.
Qed.

Lemma ln_ref_y7 :
  IZR (-11987135584366) / IZR 10000000000000 <= ln (30158193 / 100000000) <= IZR (-11987135584361) / IZR 10000000000000.
Proof.
  split.
  - apply (ln_ge_check_sound 30158193 100000000 (-11987135584366) 10000000000000). vm_compute. reflexivity.
  - apply (ln_le_check_sound 30158193 100000000 (-11987135584361) 10000000000000). vm_compute. reflexivity.
Qed.

Lemma ln_ref_y8 :
  IZR (-3141584864038) / IZR 10000000000000 <= ln (73040326 / 100000000) <= IZR (-3141584864033) / IZR 10000000000000.
Proof.
  split.
  - apply (ln_ge_check_sound 73040326 100000000 (-3141584864038) 10000000000000). vm_compute. reflexivity.
  - apply (ln_le_check_sound 73040326 100000000 (-3141584864033) 10000000000000). vm_compute. reflexivity.
Qed.

Lemma ln_ref_y9 :
  IZR (-1829971489552) / IZR 10000000000000 <= ln (83277053 / 100000000) <= IZR (-1829971489547) / IZR 10000000000000.
Proof.
  split.
  - apply (ln_ge_check_sound 83277053 100000000 (-1829971489552) 10000000000000). vm_compute. reflexivity.
  - apply (ln_le_check_sound 83277053 100000000 (-1829971489547) 10000000000000). vm_compute. reflexivity.
Qed.

Lemma ln_3_bounds :
  IZR (10986122886679) / IZR 10000000000000 <= ln (3 / 1) <= IZR (10986122886684) / IZR 10000000000000.
Proof.
  split.
  - apply (ln_ge_check_sound 3 1 (10986122886679) 10000000000000). vm_compute. reflexivity.
  - apply (ln_le_check_sound 3 1 (10986122886684) 10000000000000). vm_compute. reflexivity.
Qed.

Lemma ln_10_bounds :
  IZR (23025850929938) / IZR 10000000000000 <= ln (10 / 1) <= IZR (23025850929943) / IZR 10000000000000.
Proof.
  split.
  - apply (ln_ge_check_sound 10 1 (23025850929938) 10000000000000). vm_compute. reflexivity.
  - apply (ln_le_check_sound 10 1 (23025850929943) 10000000000000). vm_compute. reflexivity.
Qed.

Lemma ln_ref_S_lower :
  IZR (15767626335406) / IZR 10000000000000 <= ln (48392639539848 / 10000000000000).
Proof.
  apply (ln_ge_check_sound 48392639539848 10000000000000 (15767626335406) 10000000000000). vm_compute. reflexivity.
Qed.

Lemma ln_ref_S_upper :
  ln (48392639539898 / 10000000000000) <= IZR (15767626335422) / IZR 10000000000000.
Proof.
  apply (ln_le_check_sound 48392639539898 10000000000000 (15767626335422) 10000000000000). vm_compute. reflexivity.
Qed.

Lemma ln_le_mono (x y : R) : 0 < x -> x <= y -> ln x <= ln y.
Proof.
  intros Hx [H|H]; [apply Rlt_le, ln_increasing; assumption | rewrite H; lra].
Qed.

Lemma div_between (num den lo hi : R) :
  0 < den -> lo * den <= num -> num <= hi * den -> lo <= num / den <= hi.
Proof.
  intros Hd Hlo Hhi. split.
  - apply (Rmult_le_reg_r den); [exact Hd|].
    replace (num / den * den) with num by (field; lra). exact Hlo.
  - apply (Rmult_le_reg_r den); [exact Hd|].
    replace (num / den * den) with num by (field; lra). exact Hhi.
Qed.

Ltac eval_Rmax :=
  repeat match goal with
    | |- context [Rmax ?a ?b] =>
        first [ rewrite (Rmax_left a b) by lra
              | rewrite (Rmax_right a b) by lra ]
    end.

Lemma reference_diag :
  map Rmaxl reference_U =
  [72122885 / 100000000; 48840676 / 100000000; 63469281 / 100000000;
   91851515 / 100000000; 34839029 / 100000000; 99356872 / 100000000;
   60683747 / 100000000; 30158193 / 100000000; 73040326 / 100000000;
   83277053 / 100000000].
Proof.
  unfold reference_U, Rmaxl. cbn [map fold_left]. eval_Rmax. reflexivity.
Qed.

Lemma reference_valid : valid_U reference_U 3.
Proof.
  unfold valid_U, reference_U. split; [discriminate|]. split; [lia|].
  repeat (apply Forall_cons; [split; [reflexivity | repeat (apply Forall_cons; [lra|]); apply Forall_nil]|]).
  apply Forall_nil.
Qed.

Lemma reference_log_sum :
  48392639539848 / 10000000000000
  <= Rsum (map (fun y => - ln y) (map Rmaxl reference_U))
  <= 48392639539898 / 10000000000000.
Proof.
  rewrite reference_diag. cbn [map Rsum fold_right].
  pose proof ln_ref_y0. pose proof ln_ref_y1. pose proof ln_ref_y2.
  pose proof ln_ref_y3. pose proof ln_ref_y4. pose proof ln_ref_y5.
  pose proof ln_ref_y6. pose proof ln_ref_y7. pose proof ln_ref_y8.
  pose proof ln_ref_y9. lra.
Qed.

Lemma dmle_copula_gumbel_reference :
  approx_result (dmle_copula_gumbel (as_matrix reference_U))
    (15136102146750419 / 10000000000000000) (1 / 10 ^ 10).
Proof.
  pose proof reference_log_sum as [HS1 HS2].
  set (S := Rsum (map (fun y => - ln y) (map Rmaxl reference_U))) in *.
  assert (HL : IZR 15767626335406 / IZR 10000000000000 <= ln S).
  { eapply Rle_trans; [apply ln_ref_S_lower|]. apply ln_le_mono; lra. }
  assert (HH : ln S <= IZR 15767626335422 / IZR 10000000000000).
  { eapply Rle_trans; [|apply ln_ref_S_upper]. apply ln_le_mono; lra. }
  pose proof ln_3_bounds as H3. pose proof ln_10_bounds as H10.
  assert (E3 : INR 3 = 3 / 1) by (simpl; lra).
  assert (E10 : INR (length reference_U) = 10 / 1) by (simpl; lra).
  rewrite (dmle_copula_gumbel_value reference_U 3 reference_valid);
    fold S; rewrite ?E3, ?E10; [|lra].
  eexists. split; [reflexivity|].
  assert (Hq : 15136102146750419 / 10000000000000000 - 1 / 10 ^ 10
               <= ln (3 / 1) / (ln (10 / 1) - ln S)
               <= 15136102146750419 / 10000000000000000 + 1 / 10 ^ 10).
  { apply div_between; lra. }
  rewrite Rmax_right by lra.
  apply Rabs_le. lra.
Qed.

(** C4. For every n x d pseudo-observation matrix, [dmle_copula_gumbel]
    is max(1, log d / (log n - lsum(-log y))), [y] the per-row maxima and
    [lsum(-log y)] the log of the sum of the [-log y_i]; it always
    returns, and the estimate is [nan] or at least 1 (it is [nan] when the
    diagonal values are all 1, and [inf] or [nan] when the denominator is
    zero); on the reference 10 x 3 matrix it is 1.5136102146750419 up to
    1e-10. *)
Theorem dmle_copula_gumbel_closed_form :
  (forall (U : list (list R)) (d : nat), valid_U U d ->
     diag_copula (as_matrix U) = Ok (map Fin (map Rmaxl U)) /\
     lsum (map (fun y => Fin (- ln y)) (map Rmaxl U)) =
       Ok (Fin (ln (Rsum (map (fun y => - ln y) (map Rmaxl U))))) /\
     dmle_copula_gumbel (as_matrix U) =
       pymax [fdiv (Fin (ln (INR d)))
                (Fin (ln (INR (length U))
                      - ln (Rsum (map (fun y => - ln y) (map Rmaxl U)))));
              Fin 1] /\
     (ln (INR (length U)) <> ln (Rsum (map (fun y => - ln y) (map Rmaxl U))) ->
      dmle_copula_gumbel (as_matrix U) =
        Ok (Fin (Rmax 1 (ln (INR d)
                         / (ln (INR (length U))
                            - ln (Rsum (map (fun y => - ln y)
                                          (map Rmaxl U)))))))) /\
     (ln (INR (length U)) = ln (Rsum (map (fun y => - ln y) (map Rmaxl U))) ->
      dmle_copula_gumbel (as_matrix U) =
        Ok (if (d =? 1)%nat then NaN else PInf)) /\
     exists r, dmle_copula_gumbel (as_matrix U) = Ok r /\
               (r = NaN \/ fle (Fin 1) r = true)) /\
  (forall (U : matrix) (r : npfloat),
     dmle_copula_gumbel U = Ok r -> r = NaN \/ fle (Fin 1) r = true) /\
  dmle_copula_gumbel [[Fin (1 / 2); Fin 1]; [Fin 1; Fin (1 / 3)]] = Ok NaN /\
  approx_result (dmle_copula_gumbel (as_matrix reference_U))
    (15136102146750419 / 10000000000000000) (1 / 10 ^ 10).
Proof.
  assert (Hge : forall (U : matrix) (r : npfloat),
            dmle_copula_gumbel U = Ok r -> r = NaN \/ fle (Fin 1) r = true).
  { intros U r. unfold dmle_copula_gumbel.
    destruct (diag_copula U) as [y|e]; [|discriminate]. cbn [bind].
    destruct (lsum _) as [l|e]; [|discriminate]. cbn [bind].
    apply pymax_pair_ge_one. }
  split; [|split; [exact Hge | split;
    [exact dmle_copula_gumbel_all_ones | exact dmle_copula_gumbel_reference]]].
  intros U d HU.
  split; [apply diag_copula_fin, (valid_rows_nonempty U d HU)|].
  split.
  { destruct (neg_log_diag _ (valid_diag_range U d HU)) as [_ Hpos].
    rewrite <- (map_map (fun y => - ln y) Fin).
    apply lsum_positive; [|exact Hpos].
    destruct HU as (Hne & _). destruct U; [contradiction | discriminate]. }
  split; [apply dmle_copula_gumbel_fin; exact HU|].
  split; [apply dmle_copula_gumbel_value; exact HU|].
  split; [apply dmle_copula_gumbel_degenerate; exact HU|].
  rewrite (dmle_copula_gumbel_fin U d HU).
  set (th := fdiv _ _).
  exists (fold_left (fun m y => if fgt y m then y else m) [Fin 1] th).
  split; [reflexivity | apply (pymax_pair_ge_one th); reflexivity].
Qed.

Lemma dmle_copula_gumbel_closed_form_witness :
  exists r, dmle_copula_gumbel (as_matrix [[1 / 2; 1 / 3]; [1 / 4; 1 / 5]]) = Ok r /\
            (r = NaN \/ fle (Fin 1) r = true).
Proof.
  destruct dmle_copula_gumbel_closed_form as (H & _).
  destruct (H [[1 / 2; 1 / 3]; [1 / 4; 1 / 5]] 2%nat) as (_ & _ & _ & _ & _ & Hr).
  - split; [discriminate|]. split; [lia|].
    repeat (apply Forall_cons;
            [split; [reflexivity
                    | repeat (apply Forall_cons; [lra|]); apply Forall_nil]|]).
    apply Forall_nil.
  - exact Hr.
Defined.

(* ================================================================== *)
(** * Clayton: powers, the inverse generator, and the density *)
(* ================================================================== *)

Lemma fpow_pos (a b : R) : 0 < a -> fpow (Fin a) (Fin b) = Fin (Rpower a b).
Proof.
  intros Ha. unfold fpow. cbn [feq].
  destruct (Reqb_spec b 0) as [->|Hb].
  - rewrite Rpower_O by exact Ha. reflexivity.
  - destruct (Reqb_spec a 1) as [->|Ha1].
    + unfold Rpower. rewrite ln_1, Rmult_0_r, exp_0. reflexivity.
    + rewrite Rltb_true by exact Ha. reflexivity.
Qed.

Lemma Rsign_neg (x : R) : x < 0 -> Rsign x = -1.
Proof. intros H. unfold Rsign. rdecide. reflexivity. Qed.

Lemma Rsign_pos (x : R) : 0 < x -> Rsign x = 1.
Proof. intros H. unfold Rsign. rdecide. reflexivity. Qed.

Lemma ipsi_clayton_neg (u theta : R) :
  0 < u -> theta < 0 ->
  ipsi_clayton (Fin u) (Fin theta) false = Fin (1 - Rpower u (- theta)).
Proof.
  intros Hu Ht. unfold ipsi_clayton, fsub. cbn [fsign fneg].
  rewrite fpow_pos by exact Hu. rewrite Rsign_neg by exact Ht.
  cbn [fadd fmul]. f_equal. lra.
Qed.

(** A loop over the row index that reads three arrays computed row by
    row is a map over the rows. *)
Lemma loop_over_rows {A : Type} (U : list A) (g1 g2 g3 : A -> npfloat)
    (F : npfloat -> npfloat -> npfloat -> npfloat) :
  map (fun i => F (getf (map g1 U) i) (getf (map g2 U) i) (getf (map g3 U) i))
      (seq 0 (length U))
  = map (fun r => F (g1 r) (g2 r) (g3 r)) U.
Proof.
  induction U as [|r U IH]; [reflexivity|].
  cbn [length seq map]. unfold getf at 1 2 3. cbn [nth]. f_equal.
  rewrite <- seq_shift, map_map. exact IH.
Qed.

Lemma clayton_t_sum (theta : R) (row : list R) :
  theta < 0 -> Forall (fun u => 0 < u < 1) row ->
  npsum (map (fun x => ipsi_clayton x (Fin theta) false) (map Fin row))
  = Fin (clayton_t theta row).
Proof.
  intros Ht Hrow. unfold clayton_t. rewrite <- npsum_fin. f_equal.
  rewrite !map_map. apply map_ext_in. intros u Hu.
  rewrite Forall_forall in Hrow. apply ipsi_clayton_neg; [apply Hrow, Hu | exact Ht].
Qed.

Lemma log_row_sum (row : list R) :
  Forall (fun u => 0 < u < 1) row ->
  npsum (map flog (map Fin row)) = Fin (Rsum (map ln row)).
Proof.
  intros Hrow. rewrite <- npsum_fin. f_equal.
  rewrite !map_map. apply map_ext_in. intros u Hu.
  rewrite Forall_forall in Hrow. apply flog_pos, Hrow, Hu.
Qed.

Lemma div_by_nonzero (a theta : R) (s : scalar) :
  sval s = Fin theta -> theta <> 0 -> div_by (Fin a) s = Ok (Fin (a / theta)).
Proof.
  intros Hs Ht. destruct s as [v|v]; simpl in Hs; subst v;
    unfold div_by, pydiv; cbn [feq fdiv]; rewrite Reqb_false by exact Ht;
    reflexivity.
Qed.

Lemma pdf_clayton_negative (U : list (list R)) (d : nat) (theta : R)
    (s : scalar) (is_log : bool) :
  valid_U U d -> theta < 0 -> sval s = Fin theta ->
  pdf_clayton (as_matrix U) s is_log =
  Ok (map (fun row =>
             if is_log then clayton_neg_logpdf d theta row
             else fexp (clayton_neg_logpdf d theta row)) U).
Proof.
  intros HU Ht Hs. unfold pdf_clayton.
  destruct (valid_shape U d HU) as [E0 E1]. rewrite E0, E1, Hs.
  rewrite (div_by_nonzero 1 theta s Hs) by lra. cbn [bind]. f_equal.
  unfold fgt, npsum_axis1, as_matrix. cbn [flt]. rdecide.
  rewrite !map_map.
  rewrite <- (length_map (map Fin) U) at 1.
  rewrite <- (map_map (map Fin) (fun r => npsum (map (fun x => ipsi_clayton x (Fin theta) false) r))).
  rewrite <- (map_map (map Fin) (fun r => npsum (map flog r))).
  rewrite <- (map_map (map Fin)
                (fun r => flog1p (fneg (npsum (map (fun x => ipsi_clayton x (Fin theta) false) r))))).
  rewrite (loop_over_rows (map (map Fin) U)
             (fun r => npsum (map (fun x => ipsi_clayton x (Fin theta) false) r))
             (fun r => npsum (map flog r))
             (fun r => flog1p (fneg (npsum (map (fun x => ipsi_clayton x (Fin theta) false) r))))
             (fun t lu c =>
                if is_log
                then if flt t (Fin 1)
                     then fsub (fsub (flog1p (Fin theta))
                                     (fmul (fadd (Fin 1) (Fin theta)) lu))
                               (fmul (fadd (of_nat d) (Fin (1 / theta))) c)
                     else NInf
                else fexp (if flt t (Fin 1)
                           then fsub (fsub (flog1p (Fin theta))
                                           (fmul (fadd (Fin 1) (Fin theta)) lu))
                                     (fmul (fadd (of_nat d) (Fin (1 / theta))) c)
                           else NInf))).
  rewrite map_map. apply map_ext_in. intros row Hrow.
  destruct HU as (_ & _ & Hrows). rewrite Forall_forall in Hrows.
  destruct (Hrows row Hrow) as [_ Hr].
  rewrite (clayton_t_sum theta row Ht Hr), (log_row_sum row Hr).
  unfold clayton_neg_logpdf. cbn [flt].
  destruct (Rltb_spec (clayton_t theta row) 1) as [Hlt|Hge];
    [|destruct is_log; reflexivity].
  unfold flog1p, of_nat. cbn [fneg fadd fmul].
  rewrite (flog_pos (1 + - clayton_t theta row)) by lra.
  cbn [fmul].
  replace (1 + - clayton_t theta row) with (1 - clayton_t theta row) by lra.
  destruct is_log; reflexivity.
Qed.

Ltac solve_valid :=
  split; [discriminate|]; split; [lia|];
  repeat (apply Forall_cons;
          [split; [reflexivity
                  | repeat (apply Forall_cons; [lra|]); apply Forall_nil]|]);
  apply Forall_nil.


Lemma clayton_neg_logpdf_zero (d : nat) (theta : R) (row : list R) :
  1 <= clayton_t theta row ->
  clayton_neg_logpdf d theta row = NInf /\
  fexp (clayton_neg_logpdf d theta row) = Fin 0.
Proof.
  intros Hge. unfold clayton_neg_logpdf.
  rewrite Rltb_false by exact Hge. split; reflexivity.
Qed.



(** The density does vanish on valid input: the row (1/4, 1/4, 1/4) has
    [t = 9/4] at [theta = -1]. *)
Lemma pdf_clayton_vanishes :
  pdf_clayton (as_matrix [[1 / 4; 1 / 4; 1 / 4]]) (PyFloat (Fin (-1))) true
    = Ok [NInf] /\
  pdf_clayton (as_matrix [[1 / 4; 1 / 4; 1 / 4]]) (PyFloat (Fin (-1))) false
    = Ok [Fin 0].
Proof.
  assert (HU : valid_U [[1 / 4; 1 / 4; 1 / 4]] 3) by solve_valid.
  assert (Ht : 1 <= clayton_t (-1) [1 / 4; 1 / 4; 1 / 4]).
  { unfold clayton_t. cbn [map Rsum fold_right].
    replace (- -1) with 1 by lra. rewrite Rpower_1 by lra. lra. }
  destruct (clayton_neg_logpdf_zero 3 (-1) _ Ht) as [E1 E2].
  rewrite !(pdf_clayton_negative _ 3 (-1)) by (try exact HU; try lra; reflexivity).
  cbn [map]. rewrite E1. split; reflexivity.
Qed.

(* ================================================================== *)
(** * The constrained estimators *)
(* ================================================================== *)

Lemma clayton_feasible (x : R) :
  feasible clayton_constraints (Fin x) = true <-> x <= 1000.
Proof.
  unfold feasible, clayton_constraints, satisfies.
  cbn [forallb c_type c_fun]. unfold fge, fle, fsub. cbn [fneg fadd flt feq].
  rewrite (Rltb_true 0 (1 / 10 ^ 14)) by lra. cbn [orb andb].
  rewrite andb_true_r. split.
  - intros H. apply orb_true_iff in H. destruct H as [H|H].
    + destruct (Rltb_spec 0 (1000 + - x)); [lra | discriminate].
    + destruct (Reqb_spec 0 (1000 + - x)); [lra | discriminate].
  - intros H. destruct (Rltb_spec 0 (1000 + - x)) as [|Hn]; [reflexivity|].
    rewrite Reqb_true by lra. reflexivity.
Qed.

Lemma franck_feasible (x : R) :
  feasible franck_constraints (Fin x) = true <-> 1 / 10 ^ 14 <= x <= 745.
Proof.
  unfold feasible, franck_constraints, satisfies.
  cbn [forallb c_type c_fun]. unfold fge, fle, fsub. cbn [fneg fadd flt feq].
  rewrite andb_true_r, andb_true_iff, !orb_true_iff. split.
  - intros [[H1|H1] [H2|H2]];
      repeat match goal with
        | H : Rltb ?a ?b = true |- _ =>
            destruct (Rltb_spec a b); [clear H | discriminate H]
        | H : Reqb ?a ?b = true |- _ =>
            destruct (Reqb_spec a b); [clear H | discriminate H]
        end; lra.
  - intros [H1 H2]. split.
    + destruct (Rltb_spec 0 (x + - (1 / 10 ^ 14))); [left; reflexivity|].
      right. apply Reqb_true. lra.
    + destruct (Rltb_spec 0 (745 + - x)); [left; reflexivity|].
      right. apply Reqb_true. lra.
Qed.

(** C7 (the code on its constraints). The constraint list that
    [dmle_copula_clayton] hands to the optimizer is satisfied by every
    [theta <= 1000], negative values included: its first entry is the
    constant [1e-14].  The list of [dmle_copula_franck] is satisfied exactly
    on [1e-14, 745].  In both, a result without [success] becomes [nan],
    and an exception of the optimizer (or of the objective inside it)
    is passed on. *)
Theorem clayton_lower_bound_missing :
  feasible clayton_constraints (Fin (-1)) = true /\
  (forall x : R, feasible clayton_constraints (Fin x) = true <-> x <= 1000) /\
  (forall x : R,
     feasible franck_constraints (Fin x) = true <-> 1 / 10 ^ 14 <= x <= 745) /\
  (forall (minimize : optimizer) (U : matrix) (res : OptimizeResult),
     minimize (fun x => log_ddelta diag_pdf_clayton x U) (Fin (1 / 2))
       clayton_constraints = Ok res ->
     dmle_copula_clayton minimize U =
     Ok (if success res then getf (res_x res) 0 else NaN)) /\
  (forall (minimize : optimizer) (U : matrix) (res : OptimizeResult),
     minimize (fun x => log_ddelta diag_pdf_frank x U) (Fin (1 / 2))
       franck_constraints = Ok res ->
     dmle_copula_franck minimize U =
     Ok (if success res then getf (res_x res) 0 else NaN)) /\
  (forall (minimize : optimizer) (U : matrix) (e : pyexc),
     minimize (fun x => log_ddelta diag_pdf_clayton x U) (Fin (1 / 2))
       clayton_constraints = Raise e ->
     dmle_copula_clayton minimize U = Raise e).
Proof.
  split; [apply clayton_feasible; lra|].
  split; [exact clayton_feasible|].
  split; [exact franck_feasible|].
  split; [|split].
  - intros minimize U res H. unfold dmle_copula_clayton, max_diag_pdf.
    rewrite H. cbn [bind]. destruct (success res); reflexivity.
  - intros minimize U res H. unfold dmle_copula_franck, max_diag_pdf.
    rewrite H. cbn [bind]. destruct (success res); reflexivity.
  - intros minimize U e H. unfold dmle_copula_clayton, max_diag_pdf.
    rewrite H. reflexivity.
Qed.

Lemma clayton_lower_bound_missing_witness :
  dmle_copula_clayton
    (fun _ _ _ => Ok {| success := false; res_x := [Fin (-3)] |}) [] = Ok NaN.
Proof.
  destruct clayton_lower_bound_missing as (_ & _ & _ & H & _).
  apply (H (fun _ _ _ => Ok {| success := false; res_x := [Fin (-3)] |}) []
           {| success := false; res_x := [Fin (-3)] |}).
  reflexivity.
Defined.

(* ================================================================== *)
(** * Generators: [psi] undoes [ipsi] *)
(* ================================================================== *)

Lemma Rpower_pos (a b : R) : 0 < Rpower a b.
Proof. unfold Rpower. apply exp_pos. Qed.






(* ================================================================== *)
(** * The log-scale inverse generators *)
(* ================================================================== *)

Lemma float_max_lt : float_max < IZR (2 ^ 1024).
Proof.
  unfold float_max.
  assert (H : 2 ^ 1023 = IZR (2 ^ 1023)).
  { rewrite pow_IZR. reflexivity. }
  rewrite H.
  assert (H2 : IZR (2 ^ 1024) = 2 * IZR (2 ^ 1023)).
  { rewrite <- mult_IZR. f_equal. }
  rewrite H2.
  assert (0 < IZR (2 ^ 1023)) by (apply IZR_lt; reflexivity).
  assert (0 < / 2 ^ 52) by (apply Rinv_0_lt_compat, pow_lt; lra).
  nra.
Qed.

Lemma Rpower_tenth_400 : Rpower (1 / 10) (- (400)) = IZR (10 ^ 400).
Proof.
  rewrite Rpower_Ropp.
  replace 400 with (INR 400) by (rewrite INR_IZR_INZ; reflexivity).
  rewrite Rpower_pow by lra.
  replace (1 / 10) with (/ 10) by lra.
  rewrite pow_inv, Rinv_inv.
  rewrite pow_IZR. reflexivity.
Qed.

(** C5 (the code at the failing input). With [is_log], Clayton's and
    Frank's inverse generators are the log of the natural-scale value, which
    is formed first; only Gumbel's works on the log scale throughout.  At
    [u = 0.1], [theta = 400] (inside Clayton's feasible range) the
    natural-scale value [10^400 - 1] is beyond the largest finite float64,
    although its log, about 921, is well within range: under the overflow
    rule the function returns [inf]. *)
Theorem ipsi_log_forms_natural_scale :
  (forall x theta : npfloat,
     ipsi_clayton x theta true = flog (ipsi_clayton x theta false)) /\
  (forall u theta : npfloat,
     ipsi_frank u theta true = flog (ipsi_frank u theta false)) /\
  (forall u theta : npfloat,
     ipsi_gumbel u theta true = fmul theta (flog (fneg (flog u)))) /\
  exists v : R,
    ipsi_clayton (Fin (1 / 10)) (Fin 400) false = Fin v /\
    float_max < v /\
    ipsi_clayton (Fin (1 / 10)) (Fin 400) true = Fin (ln v) /\
    918 < ln v < 922 /\ ln v < float_max /\
    ipsi_clayton_f64 (Fin (1 / 10)) (Fin 400) true = PInf.
Proof.
  split; [reflexivity|]. split; [reflexivity|]. split; [reflexivity|].
  exists (IZR (10 ^ 400) - 1).
  assert (Hnat : ipsi_clayton (Fin (1 / 10)) (Fin 400) false
                 = Fin (IZR (10 ^ 400) - 1)).
  { unfold ipsi_clayton, fsub. cbn [fneg fsign].
    rewrite fpow_pos by lra. rewrite Rsign_pos by lra.
    rewrite Rpower_tenth_400. cbn [fadd fmul]. f_equal. lra. }
  assert (Hbig : IZR (2 ^ 1024) <= IZR (10 ^ 400) - 1).
  { rewrite <- minus_IZR. apply IZR_le. vm_compute. discriminate. }
  pose proof float_max_lt as Hmax.
  assert (Hv : 0 < IZR (10 ^ 400) - 1).
  { assert (0 < IZR (2 ^ 1024)) by (apply IZR_lt; reflexivity). lra. }
  assert (Hln : 918 < ln (IZR (10 ^ 400) - 1) < 922).
  { pose proof ln_10_bounds as [Hl Hh].
    replace (10 / 1) with 10 in Hl, Hh by lra.
    assert (E400 : ln (IZR (10 ^ 400)) = 400 * ln 10).
    { replace (IZR (10 ^ 400)) with (10 ^ 400)
        by (rewrite pow_IZR; reflexivity).
      rewrite ln_pow by lra. rewrite INR_IZR_INZ. reflexivity. }
    assert (E399 : ln (IZR (10 ^ 399)) = 399 * ln 10).
    { replace (IZR (10 ^ 399)) with (10 ^ 399)
        by (rewrite pow_IZR; reflexivity).
      rewrite ln_pow by lra. rewrite INR_IZR_INZ. reflexivity. }
    split.
    - assert (ln (IZR (10 ^ 399)) <= ln (IZR (10 ^ 400) - 1)).
      { apply ln_le_mono; [apply IZR_lt; reflexivity|].
        rewrite <- minus_IZR. apply IZR_le. vm_compute. discriminate. }
      lra.
    - assert (ln (IZR (10 ^ 400) - 1) <= ln (IZR (10 ^ 400))).
      { apply ln_le_mono; [exact Hv | lra]. }
      lra. }
  split; [exact Hnat|]. split; [lra|]. split.
  - change (ipsi_clayton (Fin (1 / 10)) (Fin 400) true)
      with (flog (ipsi_clayton (Fin (1 / 10)) (Fin 400) false)).
    rewrite Hnat. apply flog_pos. exact Hv.
  - assert (Hfm : 922 < float_max).
    { unfold float_max.
      assert (H : 2 ^ 1023 = IZR (2 ^ 1023)).
      { rewrite pow_IZR. reflexivity. }
      rewrite H.
      assert (922 <= IZR (2 ^ 1023)) by (apply IZR_le; vm_compute; discriminate).
      assert (/ 2 ^ 52 <= 1).
      { rewrite <- Rinv_1. apply Rinv_le_contravar; [lra|].
        apply pow_R1_Rle. lra. }
      nra. }
    split; [exact Hln|]. split; [lra|].
    unfold ipsi_clayton_f64. cbn [fneg fsign overflow].
    rewrite (Rltb_false float_max (- (400))) by lra.
    rewrite (Rltb_false (- (400)) (- float_max)) by lra.
    rewrite fpow_pos by lra. rewrite Rpower_tenth_400.
    cbn [overflow]. rewrite (Rltb_true float_max (IZR (10 ^ 400))) by lra.
    rewrite Rsign_pos by lra. unfold fsub.
    cbn [fneg fadd overflow fmul]. unfold inf_of_sign. rdecide. reflexivity.
Qed.

(* ================================================================== *)
(** * The densities at the independence parameter *)
(* ================================================================== *)

Lemma fadd_nan_r (x : npfloat) : fadd x NaN = NaN.
Proof. destruct x; reflexivity. Qed.

Lemma fexp_zeros (n : nat) : map fexp (repeat (Fin 0) n) = repeat (Fin 1) n.
Proof.
  induction n as [|n IH]; [reflexivity|].
  cbn [repeat map fexp]. rewrite exp_0, IH. reflexivity.
Qed.

(** Frank at [theta = 0]: the density is identically 1. *)
Lemma pdf_frank_independence (U : matrix) (s : scalar) :
  sval s = Fin 0 ->
  pdf_frank U s true = Ok (repeat (Fin 0) (shape0 U)) /\
  pdf_frank U s false = Ok (repeat (Fin 1) (shape0 U)).
Proof.
  intros Hs. unfold pdf_frank. rewrite Hs. cbn [feq].
  rewrite Reqb_true by reflexivity. cbn [bind].
  rewrite fexp_zeros. split; reflexivity.
Qed.

(** Clayton at [theta = 0]: [1.0 / theta] is evaluated before the loop
    that holds the branch for [theta = 0]. *)
Lemma pdf_clayton_python_zero (U : matrix) (is_log : bool) :
  pdf_clayton U (PyFloat (Fin 0)) is_log = Raise ZeroDivisionError.
Proof.
  unfold pdf_clayton, div_by, pydiv. cbn [feq].
  rewrite Reqb_true by reflexivity. reflexivity.
Qed.

Lemma pdf_clayton_numpy_zero (U : matrix) :
  pdf_clayton U (NpFloat (Fin 0)) true = Ok (repeat (Fin 0) (shape0 U)) /\
  pdf_clayton U (NpFloat (Fin 0)) false = Ok (repeat (Fin 1) (shape0 U)).
Proof.
  assert (H : forall b, pdf_clayton U (NpFloat (Fin 0)) b
                = Ok (map (fun _ => if b then Fin 0 else fexp (Fin 0))
                        (seq 0 (shape0 U)))).
  { intros b. unfold pdf_clayton, div_by. cbn [bind sval].
    unfold fgt. cbn [flt]. rewrite Rltb_false by lra. reflexivity. }
  assert (Hc : forall (x : npfloat) n, map (fun _ : nat => x) (seq 0 n) = repeat x n).
  { intros x n. generalize 0%nat. induction n as [|n IH]; intros k; [reflexivity|].
    cbn [seq map repeat]. rewrite IH. reflexivity. }
  rewrite !H, !Hc. cbn [fexp]. rewrite exp_0. split; reflexivity.
Qed.

(** ** Gumbel at [theta = 1], two replicates *)

Lemma Int_part_1 : Int_part 1 = 1%Z.
Proof. symmetry. apply Int_part_spec. lra. Qed.

Lemma fpow_minus_one_1 : fpow (Fin (-1)) (Fin 1) = Fin (-1).
Proof.
  unfold fpow. cbn [feq]. rdecide.
  unfold Rintegral, Rodd. rewrite Int_part_1. rdecide. cbn [Z.odd].
  replace (- -1) with 1 by lra. rewrite Rpower_1 by lra. f_equal. lra.
Qed.

Lemma binom_1_2 : binom (Fin 1) 2 = Fin 0.
Proof. unfold binom. f_equal. simpl. lra. Qed.

Lemma binom_2_2 : binom (Fin 2) 2 = Fin 1.
Proof. unfold binom. f_equal. simpl. lra. Qed.

Lemma poisson_logcdf_fin (k : nat) (mu : R) :
  0 < mu -> exists p, poisson_logcdf k (Fin mu) = Fin p.
Proof.
  intros Hmu. unfold poisson_logcdf.
  assert (H : exists q, 0 < q /\
            npsum (map (fun i => fdiv (fpow (Fin mu) (of_nat i)) (factorial i))
                     (seq 0 (k + 1))) = Fin q).
  { replace (k + 1)%nat with (S k) by lia. generalize 0%nat.
    induction k as [|k IH]; intros a.
    - cbn [seq map]. unfold of_nat, factorial, npsum. cbn [fold_right].
      rewrite fpow_pos by exact Hmu. cbn [fdiv].
      assert (Hf : 0 < INR (fact a)) by (apply lt_0_INR, lt_O_fact).
      rewrite Reqb_false by lra. cbn [fadd].
      eexists. split; [|reflexivity].
      pose proof (Rpower_pos mu (INR a)).
      assert (0 < Rpower mu (INR a) / INR (fact a))
        by (apply Rdiv_lt_0_compat; assumption).
      lra.
    - destruct (IH (S a)) as (q & Hq & E).
      change (seq a (S (S k))) with (a :: seq (S a) (S k)).
      cbn [map]. unfold npsum in *. cbn [fold_right]. rewrite E.
      unfold of_nat, factorial. rewrite fpow_pos by exact Hmu. cbn [fdiv].
      assert (Hf : 0 < INR (fact a)) by (apply lt_0_INR, lt_O_fact).
      rewrite Reqb_false by lra. cbn [fadd].
      eexists. split; [|reflexivity].
      pose proof (Rpower_pos mu (INR a)).
      assert (0 < Rpower mu (INR a) / INR (fact a))
        by (apply Rdiv_lt_0_compat; assumption).
      lra. }
  destruct H as (q & Hq & E). rewrite E. cbn [fneg fexp fmul].
  pose proof (exp_pos (- mu)).
  rewrite flog_pos by (apply Rmult_lt_0_compat; assumption).
  eexists. reflexivity.
Qed.

Lemma poisson_logcdf_0 (mu : R) : poisson_logcdf 0 (Fin mu) = Fin (- mu).
Proof.
  unfold poisson_logcdf. cbn [Nat.add seq map]. unfold of_nat, factorial, npsum.
  cbn [fold_right INR fact]. unfold fpow at 1. cbn [feq].
  rewrite Reqb_true by reflexivity. cbn [fdiv].
  rewrite Reqb_false by lra. cbn [fadd fneg fexp fmul].
  pose proof (exp_pos (- mu)).
  rewrite flog_pos by lra. f_equal.
  replace (exp (- mu) * (1 / 1 + 0)) with (exp (- mu)) by lra.
  apply ln_exp.
Qed.

Lemma lssum_zero_small (w : R) : 0 < w < 1 -> lssum [Fin 0; Fin w] = Ok NaN.
Proof.
  intros [Hw0 Hw1].
  assert (Hl : ln w < 0) by (rewrite <- ln_1; apply ln_increasing; lra).
  unfold lssum. cbn [map fabs]. rewrite Rabs_R0, (Rabs_pos_eq w) by lra.
  cbn [flog]. rdecide.
  cbn [npsort fold_right sort_insert]. unfold fle. cbn [flt feq is_nan orb].
  cbn [pymax fold_left]. unfold fgt. cbn [flt bind fold_left].
  unfold lssum_step, fge, fle, fsub. cbn [flt feq orb fneg fadd fexp].
  rdecide. cbn [orb fneg fadd fexp].
  replace (ln w + - ln w) with 0 by lra. rewrite exp_0.
  cbn [flog].
  rewrite (Rltb_false 0 (0 + - 0 + - (1))) by lra.
  rewrite (Reqb_false (0 + - 0 + - (1)) 0) by lra.
  reflexivity.
Qed.

Lemma s_j_alpha_one (j d : nat) :
  s_j j (Fin 1) d =
  Ok (if (j =? d)%nat then Fin 1
      else fpow (Fin (-1)) (Fin (INR d + - INR j))).
Proof.
  unfold s_j, py_assert, fle. cbn [flt feq]. rdecide. cbn [orb bind].
  destruct (j =? d)%nat; reflexivity.
Qed.

Lemma log_polyg_two_neg (L : R) :
  L < 0 -> log_polyg (Fin L) (Fin 1) 2 = Ok NaN.
Proof.
  intros HL. unfold log_polyg. change (seq 1 2) with [1%nat; 2%nat].
  cbn [mapM]. rewrite !s_j_alpha_one. cbn [Nat.eqb bind].
  unfold of_nat. cbn [fmul fexp].
  replace (1 * INR 1) with 1 by (simpl; lra).
  replace (1 * INR 2) with 2 by (simpl; lra).
  replace (INR 2 + - INR 1) with 1 by (simpl; lra).
  rewrite binom_1_2, binom_2_2, fpow_minus_one_1.
  change (2 - 1)%nat with 1%nat. change (2 - 2)%nat with 0%nat.
  destruct (poisson_logcdf_fin 1 (exp L) (exp_pos L)) as [p Hp].
  rewrite Hp, poisson_logcdf_0.
  unfold factorial. cbn [fact Nat.mul Nat.add fabs].
  rewrite Rabs_R0, Rabs_R1.
  assert (H2 : INR 2 = 2) by (simpl; lra).
  assert (H1 : INR 1 = 1) by reflexivity.
  rewrite H1, H2. unfold fsub.
  cbn [flog]. rdecide.
  cbn [fadd fneg fexp fmul].
  rewrite ln_1.
  replace (0 + 0 + ln 2 + 2 * L + (exp L + - ln 2) + - exp L) with (2 * L) by lra.
  replace (-1 * 0) with 0 by lra.
  apply lssum_zero_small.
  pose proof (exp_pos (2 * L)).
  assert (exp (2 * L) < 1) by (rewrite <- exp_0; apply exp_increasing; lra).
  lra.
Qed.

Lemma ipsi_gumbel_one (u : R) :
  0 < u < 1 -> ipsi_gumbel (Fin u) (Fin 1) false = Fin (- ln u).
Proof.
  intros [Hu0 Hu1]. unfold ipsi_gumbel. rewrite flog_pos by exact Hu0.
  cbn [fneg].
  assert (ln u < 0) by (rewrite <- ln_1; apply ln_increasing; lra).
  rewrite fpow_pos by lra. rewrite Rpower_1 by lra. reflexivity.
Qed.

Lemma pdf_gumbel_independence_nan (u1 u2 : R) (is_log : bool) :
  0 < u1 < 1 -> 0 < u2 < 1 -> exp (-1) < u1 * u2 ->
  pdf_gumbel (as_matrix [[u1; u2]]) (PyFloat (Fin 1)) is_log = Ok [NaN].
Proof.
  intros H1 H2 Hprod.
  assert (Hl1 : ln u1 < 0) by (rewrite <- ln_1; apply ln_increasing; lra).
  assert (Hl2 : ln u2 < 0) by (rewrite <- ln_1; apply ln_increasing; lra).
  assert (HS : - ln u1 + (- ln u2 + 0) < 1).
  { assert (-1 < ln (u1 * u2)).
    { rewrite <- (ln_exp (-1)). apply ln_increasing; [apply exp_pos | exact Hprod]. }
    rewrite ln_mult in H by lra. lra. }
  assert (HlS : ln (- ln u1 + (- ln u2 + 0)) < 0).
  { assert (H : ln (- ln u1 + (- ln u2 + 0)) < ln 1)
      by (apply ln_increasing; lra).
    rewrite ln_1 in H. exact H. }
  unfold pdf_gumbel, as_matrix, div_by, pydiv. cbn [sval feq].
  rewrite Reqb_false by lra. cbn [bind fdiv]. rewrite Reqb_false by lra.
  replace (1 / 1) with 1 by lra.
  cbn [map mapM]. rewrite !ipsi_gumbel_one by assumption.
  change [Fin (- ln u1); Fin (- ln u2)] with (map Fin [- ln u1; - ln u2]).
  rewrite lsum_positive; [|discriminate | repeat constructor; lra].
  cbn [bind map Rsum fold_right fmul].
  unfold shape0, shape1. cbn [length hd seq mapM getf nth].
  rewrite log_polyg_two_neg by lra.
  cbn [bind fsub fadd map getf nth].
  rewrite fadd_nan_r. destruct is_log; reflexivity.
Qed.

Lemma exp_minus_one_lt_half : exp (-1) < 1 / 2.
Proof.
  replace (-1) with (- (1)) by lra. rewrite exp_Ropp.
  assert (2 < exp 1) by (pose proof (exp_ineq1 1); lra).
  apply (Rmult_lt_reg_r (exp 1)); [lra|].
  rewrite Rinv_l by lra. lra.
Qed.

Lemma lssum_zero_large (w : R) :
  1 <= w -> lssum [Fin 0; Fin w] = Ok (Fin (ln w)).
Proof.
  intros Hw.
  assert (Hl : 0 <= ln w) by (rewrite <- ln_1; apply ln_le_mono; lra).
  unfold lssum. cbn [map fabs]. rewrite Rabs_R0, (Rabs_pos_eq w) by lra.
  cbn [flog]. rdecide.
  cbn [npsort fold_right sort_insert]. unfold fle. cbn [flt feq is_nan orb].
  cbn [pymax fold_left]. unfold fgt. cbn [flt bind fold_left].
  unfold lssum_step, fge, fle, fsub. cbn [flt feq orb fneg fadd fexp].
  assert (Hb : Rltb 0 (ln w) || Reqb 0 (ln w) = true).
  { destruct (Rltb_spec 0 (ln w)); [reflexivity|].
    rewrite Reqb_true by lra. reflexivity. }
  rewrite Hb. cbn [fadd fexp].
  replace (ln w + - ln w) with 0 by lra. rewrite exp_0.
  rewrite flog_pos by lra. cbn [fadd]. do 2 f_equal.
  replace (0 + - 0 + 1) with 1 by lra. rewrite ln_1. lra.
Qed.

Lemma log_polyg_two_pos (L : R) :
  0 <= L -> log_polyg (Fin L) (Fin 1) 2 = Ok (Fin (2 * L)).
Proof.
  intros HL. unfold log_polyg. change (seq 1 2) with [1%nat; 2%nat].
  cbn [mapM]. rewrite !s_j_alpha_one. cbn [Nat.eqb bind].
  unfold of_nat. cbn [fmul fexp].
  replace (1 * INR 1) with 1 by (simpl; lra).
  replace (1 * INR 2) with 2 by (simpl; lra).
  replace (INR 2 + - INR 1) with 1 by (simpl; lra).
  rewrite binom_1_2, binom_2_2, fpow_minus_one_1.
  change (2 - 1)%nat with 1%nat. change (2 - 2)%nat with 0%nat.
  destruct (poisson_logcdf_fin 1 (exp L) (exp_pos L)) as [p Hp].
  rewrite Hp, poisson_logcdf_0.
  unfold factorial. cbn [fact Nat.mul Nat.add fabs].
  rewrite Rabs_R0, Rabs_R1.
  assert (H2 : INR 2 = 2) by (simpl; lra).
  assert (H1 : INR 1 = 1) by reflexivity.
  rewrite H1, H2. unfold fsub.
  cbn [flog]. rdecide.
  cbn [fadd fneg fexp fmul].
  rewrite ln_1.
  replace (0 + 0 + ln 2 + 2 * L + (exp L + - ln 2) + - exp L) with (2 * L) by lra.
  replace (-1 * 0) with 0 by lra.
  rewrite lssum_zero_large.
  - do 2 f_equal. rewrite Rmult_1_l. apply ln_exp.
  - assert (1 <= exp (2 * L)).
    { rewrite <- exp_0. destruct (Req_dec L 0) as [->|Hne].
      - rewrite Rmult_0_r. lra.
      - apply Rlt_le, exp_increasing. lra. }
    lra.
Qed.

Lemma pdf_gumbel_independence_one (u1 u2 : R) :
  0 < u1 < 1 -> 0 < u2 < 1 -> u1 * u2 <= exp (-1) ->
  pdf_gumbel (as_matrix [[u1; u2]]) (PyFloat (Fin 1)) true = Ok [Fin 0] /\
  pdf_gumbel (as_matrix [[u1; u2]]) (PyFloat (Fin 1)) false = Ok [Fin 1].
Proof.
  intros H1 H2 Hprod.
  assert (Hl1 : ln u1 < 0) by (rewrite <- ln_1; apply ln_increasing; lra).
  assert (Hl2 : ln u2 < 0) by (rewrite <- ln_1; apply ln_increasing; lra).
  assert (HS : 1 <= - ln u1 + (- ln u2 + 0)).
  { assert (ln (u1 * u2) <= -1).
    { rewrite <- (ln_exp (-1)). apply ln_le_mono; [nra | exact Hprod]. }
    rewrite ln_mult in H by lra. lra. }
  assert (HlS : 0 <= ln (- ln u1 + (- ln u2 + 0))).
  { assert (H : ln 1 <= ln (- ln u1 + (- ln u2 + 0)))
      by (apply ln_le_mono; lra).
    rewrite ln_1 in H. exact H. }
  assert (Hlog : forall b,
            pdf_gumbel (as_matrix [[u1; u2]]) (PyFloat (Fin 1)) b
            = Ok [if b then Fin 0 else fexp (Fin 0)]).
  { intros b.
    unfold pdf_gumbel, as_matrix, div_by, pydiv. cbn [sval feq].
    rewrite Reqb_false by lra. cbn [bind fdiv]. rewrite Reqb_false by lra.
    replace (1 / 1) with 1 by lra.
    cbn [map mapM]. rewrite !ipsi_gumbel_one by assumption.
    change [Fin (- ln u1); Fin (- ln u2)] with (map Fin [- ln u1; - ln u2]).
    rewrite lsum_positive; [|discriminate | repeat constructor; lra].
    cbn [bind map Rsum fold_right fmul].
    unfold shape0, shape1. cbn [length hd seq mapM getf nth].
    rewrite log_polyg_two_pos by lra.
    unfold npsum_axis1, npsum, of_nat, fsub.
    cbn [bind map getf nth fold_right INR].
    rewrite !flog_pos by lra. cbn [fneg].
    rewrite !flog_pos by lra.
    cbn [fneg fadd fmul fexp fdiv]. rewrite Reqb_false by lra.
    cbn [fneg fadd].
    set (S := - ln u1 + (- ln u2 + 0)) in *.
    assert (E : exp (1 * ln S) = S) by (rewrite Rmult_1_l; apply exp_ln; lra).
    rewrite E, ln_1.
    match goal with
    | |- context [Fin ?e] =>
        replace e with 0 by (unfold S; simpl; lra)
    end.
    destruct b; reflexivity. }
  rewrite !Hlog. cbn [fexp]. rewrite exp_0. split; reflexivity.
Qed.

(** C2 (the code at the independence parameter). Frank at [theta = 0]
    returns density 1 (log-density 0) on every row.  Clayton at the Python
    float [0.0] raises [ZeroDivisionError]: [1.0 / theta] is computed
    before the loop whose last branch would set the log-density to 0 (a
    numpy zero reaches that branch and gives density 1).  Gumbel at
    [theta = 1] with two replicates returns density 1 only on rows with
    [u1 * u2 <= exp (-1)]; on every other row, (0.9, 0.9) for one, the sum of
    [log_polyg] goes through [lssum] with the wrong sign and the density is
    [nan]. *)
Theorem independence_densities :
  (forall (U : matrix) (s : scalar), sval s = Fin 0 ->
     pdf_frank U s true = Ok (repeat (Fin 0) (shape0 U)) /\
     pdf_frank U s false = Ok (repeat (Fin 1) (shape0 U))) /\
  (forall (U : matrix) (is_log : bool),
     pdf_clayton U (PyFloat (Fin 0)) is_log = Raise ZeroDivisionError) /\
  (forall U : matrix,
     pdf_clayton U (NpFloat (Fin 0)) true = Ok (repeat (Fin 0) (shape0 U)) /\
     pdf_clayton U (NpFloat (Fin 0)) false = Ok (repeat (Fin 1) (shape0 U))) /\
  (forall (u1 u2 : R) (is_log : bool),
     0 < u1 < 1 -> 0 < u2 < 1 -> exp (-1) < u1 * u2 ->
     pdf_gumbel (as_matrix [[u1; u2]]) (PyFloat (Fin 1)) is_log = Ok [NaN]) /\
  (forall u1 u2 : R,
     0 < u1 < 1 -> 0 < u2 < 1 -> u1 * u2 <= exp (-1) ->
     pdf_gumbel (as_matrix [[u1; u2]]) (PyFloat (Fin 1)) true = Ok [Fin 0] /\
     pdf_gumbel (as_matrix [[u1; u2]]) (PyFloat (Fin 1)) false = Ok [Fin 1]) /\
  pdf_gumbel (as_matrix [[9 / 10; 9 / 10]]) (PyFloat (Fin 1)) false = Ok [NaN] /\
  pdf_gumbel (as_matrix [[9 / 10; 9 / 10]]) (PyFloat (Fin 1)) true = Ok [NaN].
Proof.
  split; [exact pdf_frank_independence|].
  split; [exact pdf_clayton_python_zero|].
  split; [exact pdf_clayton_numpy_zero|].
  split; [exact pdf_gumbel_independence_nan|].
  split; [exact pdf_gumbel_independence_one|].
  pose proof exp_minus_one_lt_half.
  split; apply pdf_gumbel_independence_nan; lra.
Qed.

Lemma independence_densities_witness :
  pdf_frank (as_matrix [[1 / 2; 1 / 3]]) (PyFloat (Fin 0)) false = Ok [Fin 1] /\
  pdf_gumbel (as_matrix [[4 / 5; 4 / 5]]) (PyFloat (Fin 1)) true = Ok [NaN].
Proof.
  destruct independence_densities as (Hf & _ & _ & Hg & _).
  split.
  - apply (Hf (as_matrix [[1 / 2; 1 / 3]]) (PyFloat (Fin 0))). reflexivity.
  - pose proof exp_minus_one_lt_half. apply Hg; lra.
Defined.

(* ================================================================== *)
(** * The round trip and the float64 range *)
(* ================================================================== *)

Lemma float_max_large : 1000 < float_max.
Proof.
  unfold float_max.
  assert (H : 2 ^ 1023 = IZR (2 ^ 1023)) by (rewrite pow_IZR; reflexivity).
  rewrite H.
  assert (1000 <= IZR (2 ^ 1023)) by (apply IZR_le; vm_compute; discriminate).
  assert (/ 2 ^ 52 <= 1).
  { rewrite <- Rinv_1. apply Rinv_le_contravar; [lra|].
    apply pow_R1_Rle. lra. }
  nra.
Qed.

Lemma float_max_lower : IZR (2 ^ 1023) <= float_max.
Proof.
  unfold float_max.
  assert (H : 2 ^ 1023 = IZR (2 ^ 1023)) by (rewrite pow_IZR; reflexivity).
  rewrite H.
  assert (0 < IZR (2 ^ 1023)) by (apply IZR_lt; reflexivity).
  assert (/ 2 ^ 52 <= 1).
  { rewrite <- Rinv_1. apply Rinv_le_contravar; [lra|].
    apply pow_R1_Rle. lra. }
  nra.
Qed.







(* ================================================================== *)
(** * [lssum] on every vector of non-zero reals *)
(* ================================================================== *)

Lemma sort_insert_fin (x : R) (l : list R) :
  exists l', sort_insert (Fin x) (map Fin l) = map Fin l' /\
             Permutation l' (x :: l).
Proof.
  induction l as [|y l (l' & E & P)].
  - exists [x]. split; [reflexivity | apply Permutation_refl].
  - cbn [map sort_insert is_nan]. rewrite orb_false_r.
    destruct (fle (Fin x) (Fin y)).
    + exists (x :: y :: l). split; [reflexivity | apply Permutation_refl].
    + exists (y :: l'). split.
      * cbn [map]. rewrite E. reflexivity.
      * eapply perm_trans; [apply perm_skip, P | apply perm_swap].
Qed.

Lemma npsort_fin (l : list R) :
  exists l', npsort (map Fin l) = map Fin l' /\ Permutation l' l.
Proof.
  induction l as [|x l (l' & E & P)].
  - exists []. split; [reflexivity | apply perm_nil].
  - unfold npsort in *. cbn [map fold_right]. rewrite E.
    destruct (sort_insert_fin x l') as (l'' & E' & P').
    exists l''. split; [exact E'|].
    eapply perm_trans; [exact P' | apply perm_skip, P].
Qed.

Lemma Rsum_map_perm (f : R -> R) (l l' : list R) :
  Permutation l l' -> Rsum (map f l) = Rsum (map f l').
Proof.
  induction 1 as [| x l l' _ IH | x y l | l l' l'' _ IH1 _ IH2]; simpl.
  - reflexivity.
  - rewrite IH. reflexivity.
  - lra.
  - rewrite IH1. exact IH2.
Qed.

(** The sign that the loop of [lssum] gives to a log-magnitude [b]. *)
Lemma lssum_fold_fin (M a : R) (l : list R) :
  fold_left (lssum_step (Fin M)) (map Fin l) (Fin a)
  = Fin (a + Rsum (map (fun b => (if Rleb 0 b then 1 else -1) * exp (b - M)) l)).
Proof.
  revert a; induction l as [|b l IH]; intros a.
  - simpl. f_equal. lra.
  - cbn [map fold_left]. unfold lssum_step at 2, fge, fle, fsub.
    cbn [flt feq fneg fadd fexp].
    assert (Hb : Rltb 0 b || Reqb 0 b = Rleb 0 b).
    { unfold Rleb. destruct (Rle_dec 0 b) as [H|H].
      - destruct (Rltb_spec 0 b); [reflexivity|].
        rewrite Reqb_true by lra. reflexivity.
      - rewrite Rltb_false, Reqb_false by lra. reflexivity. }
    rewrite Hb. change (map (fun b0 => (if Rleb 0 b0 then 1 else -1) * exp (b0 - M)) (b :: l))
      with ((if Rleb 0 b then 1 else -1) * exp (b - M)
            :: map (fun b0 => (if Rleb 0 b0 then 1 else -1) * exp (b0 - M)) l).
    change (Rsum (?x :: ?r)) with (x + Rsum r).
    destruct (Rleb 0 b); cbn [fadd fneg]; rewrite IH; f_equal;
      unfold Rminus; lra.
Qed.

Lemma lssum_weight_log (x M : R) :
  x <> 0 ->
  (if Rleb 0 (ln (Rabs x)) then 1 else -1) * exp (ln (Rabs x) - M)
  = lssum_weight x * exp (- M).
Proof.
  intros Hx. pose proof (Rabs_pos_lt x Hx) as Ha.
  unfold Rminus. rewrite exp_plus, exp_ln by exact Ha.
  unfold lssum_weight, Rleb.
  destruct (Rle_dec 0 (ln (Rabs x))) as [H|H];
    destruct (Rle_dec 1 (Rabs x)) as [H1|H1]; try lra.
  - exfalso. apply H1. destruct (Rle_dec 1 (Rabs x)); [assumption|].
    assert (ln (Rabs x) < ln 1) by (apply ln_increasing; lra).
    rewrite ln_1 in *. lra.
  - exfalso. apply H. rewrite <- ln_1. apply ln_le_mono; lra.
Qed.

Lemma lssum_nonzero (xs : list R) :
  xs <> [] -> Forall (fun x => x <> 0) xs ->
  lssum (map Fin xs) =
  Ok (if Rltb 0 (lssum_total xs) then Fin (ln (lssum_total xs))
      else if Reqb (lssum_total xs) 0 then NInf else NaN).
Proof.
  intros Hne Hnz. unfold lssum.
  assert (Hlog : map flog (map fabs (map Fin xs))
                 = map Fin (map (fun x => ln (Rabs x)) xs)).
  { rewrite !map_map. apply map_ext_in. intros x Hx. cbn [fabs].
    rewrite Forall_forall in Hnz.
    apply flog_pos, Rabs_pos_lt, Hnz, Hx. }
  rewrite Hlog.
  destruct (npsort_fin (map (fun x => ln (Rabs x)) xs)) as (bs & E & P).
  rewrite E.
  assert (Hbs : bs <> []).
  { intros ->. apply Permutation_nil in P.
    destruct xs; [contradiction | discriminate]. }
  destruct bs as [|b bs]; [contradiction|].
  rewrite pymax_fin. cbn [bind].
  set (M := fold_left Rmax bs b).
  rewrite lssum_fold_fin.
  rewrite (Rsum_map_perm _ _ _ P), map_map.
  assert (Hsum : Rsum (map (fun x => (if Rleb 0 (ln (Rabs x)) then 1 else -1)
                                      * exp (ln (Rabs x) - M)) xs)
                 = lssum_total xs * exp (- M)).
  { unfold lssum_total. rewrite <- Rsum_scale, map_map. f_equal.
    apply map_ext_in. intros x Hx. rewrite Forall_forall in Hnz.
    apply lssum_weight_log, Hnz, Hx. }
  rewrite Hsum, Rplus_0_l.
  pose proof (exp_pos (- M)) as He.
  set (T := lssum_total xs).
  destruct (Rltb_spec 0 T) as [HT|HT].
  - rewrite flog_pos by (apply Rmult_lt_0_compat; assumption).
    cbn [fadd]. do 2 f_equal.
    rewrite ln_mult, ln_exp by assumption. lra.
  - destruct (Reqb_spec T 0) as [HT0|HT0].
    + rewrite HT0, Rmult_0_l. cbn [flog]. rdecide. reflexivity.
    + assert (T * exp (- M) < 0) by nra.
      cbn [flog]. rdecide. reflexivity.
Qed.

Lemma lssum_total_large (xs : list R) :
  Forall (fun x => 1 <= Rabs x) xs -> lssum_total xs = Rsum (map Rabs xs).
Proof.
  unfold lssum_total. induction 1 as [|x xs Hx _ IH]; [reflexivity|].
  cbn [map Rsum fold_right]. fold (Rsum (map lssum_weight xs)).
  fold (Rsum (map Rabs xs)). rewrite IH. f_equal.
  unfold lssum_weight, Rleb. destruct (Rle_dec 1 (Rabs x)); [reflexivity | contradiction].
Qed.

Lemma lssum_total_small (xs : list R) :
  Forall (fun x => Rabs x < 1) xs -> lssum_total xs = - Rsum (map Rabs xs).
Proof.
  unfold lssum_total. induction 1 as [|x xs Hx _ IH]; [simpl; lra|].
  cbn [map Rsum fold_right]. fold (Rsum (map lssum_weight xs)).
  fold (Rsum (map Rabs xs)). rewrite IH.
  unfold lssum_weight, Rleb. destruct (Rle_dec 1 (Rabs x)); lra.
Qed.

Lemma Rsum_abs_pos (xs : list R) :
  xs <> [] -> Forall (fun x => x <> 0) xs -> 0 < Rsum (map Rabs xs).
Proof.
  intros Hne Hnz. apply Rsum_pos.
  - destruct xs; [contradiction | discriminate].
  - apply Forall_map. eapply Forall_impl; [|exact Hnz].
    intros x Hx. apply Rabs_pos_lt, Hx.
Qed.

(** X1. On every non-empty vector of non-zero reals [lssum] returns the
    log of (the sum of the magnitudes that are at least 1) minus (the sum
    of the magnitudes below 1): [nan] when that difference is negative,
    [-inf] when it is zero.  So it is log(sum |x_i|) when every magnitude is
    at least 1, and [nan] when every magnitude is below 1, whatever the
    signs of the entries. *)
Theorem lssum_signed_magnitudes (xs : list R) :
  xs <> [] -> Forall (fun x => x <> 0) xs ->
  lssum (map Fin xs) =
    Ok (if Rltb 0 (lssum_total xs) then Fin (ln (lssum_total xs))
        else if Reqb (lssum_total xs) 0 then NInf else NaN) /\
  (Forall (fun x => 1 <= Rabs x) xs ->
   lssum (map Fin xs) = Ok (Fin (ln (Rsum (map Rabs xs))))) /\
  (Forall (fun x => Rabs x < 1) xs -> lssum (map Fin xs) = Ok NaN).
Proof.
  intros Hne Hnz. pose proof (Rsum_abs_pos xs Hne Hnz) as Hpos.
  split; [apply lssum_nonzero; assumption|]. split.
  - intros Hbig. rewrite lssum_nonzero by assumption.
    rewrite (lssum_total_large xs Hbig). rdecide. reflexivity.
  - intros Hsmall. rewrite lssum_nonzero by assumption.
    rewrite (lssum_total_small xs Hsmall). rdecide. reflexivity.
Qed.

Lemma lssum_signed_magnitudes_witness :
  lssum (map Fin [-3; 2; -4]) = Ok (Fin (ln (Rsum (map Rabs [-3; 2; -4])))).
Proof.
  destruct (lssum_signed_magnitudes [-3; 2; -4]) as (_ & H & _).
  - discriminate.
  - repeat constructor; lra.
  - apply H. repeat constructor.
    + rewrite Rabs_left; lra.
    + rewrite Rabs_pos_eq; lra.
    + rewrite Rabs_left; lra.
Defined.

(* ================================================================== *)
(** * [log1mexp] and [log1pexp] on the whole extended line *)
(* ================================================================== *)

Lemma log1pexp_fin (x : R) : log1pexp (Fin x) = Fin (ln (1 + exp x)).
Proof.
  unfold log1pexp. cbn [fexp fadd]. rewrite exp_0.
  pose proof (exp_pos x). rewrite flog_pos by lra. reflexivity.
Qed.

(** X2. [log1mexp x] is log(1 - exp(-x)), a negative number, for every
    [x > 0], on both sides of the branch point log 2; it is [-inf] at 0,
    [nan] below 0, and 0 at [inf]. *)
Theorem log1mexp_cases :
  (forall x : R, 0 < x ->
     log1mexp (Fin x) = Fin (ln (1 - exp (- x))) /\ ln (1 - exp (- x)) < 0) /\
  log1mexp (Fin 0) = NInf /\
  (forall x : R, x < 0 -> log1mexp (Fin x) = NaN) /\
  log1mexp PInf = Fin 0 /\
  log1mexp NInf = NaN /\
  log1mexp NaN = NaN.
Proof.
  pose proof ln2_pos as H2.
  split; [|split; [|split; [|split; [|split]]]].
  - intros x Hx. split; [apply log1mexp_pos; exact Hx|].
    pose proof (exp_pos (- x)).
    assert (exp (- x) < 1) by (rewrite <- exp_0; apply exp_increasing; lra).
    assert (ln (1 - exp (- x)) < ln 1) by (apply ln_increasing; lra).
    rewrite ln_1 in *. lra.
  - unfold log1mexp, fle. cbn [flog]. rdecide. cbn [flt feq]. rdecide.
    unfold fexpm1, fsub. cbn [orb fneg fexp fadd].
    replace (- 0) with 0 by lra. rewrite exp_0. cbn [flog]. rdecide. reflexivity.
  - intros x Hx. unfold log1mexp, fle. cbn [flog]. rdecide. cbn [flt feq].
    rdecide. unfold fexpm1, fsub. cbn [orb fneg fexp fadd].
    assert (1 < exp (- x)) by (rewrite <- exp_0; apply exp_increasing; lra).
    cbn [flog]. rdecide. reflexivity.
  - unfold log1mexp, fle. cbn [flog]. rdecide. cbn [flt feq orb].
    unfold flog1p. cbn [fneg fexp fadd].
    rewrite flog_pos by lra. f_equal.
    replace (1 + - 0) with 1 by lra. apply ln_1.
  - unfold log1mexp, fle. cbn [flog]. rdecide. reflexivity.
  - unfold log1mexp, fle. cbn [flog]. rdecide. reflexivity.
Qed.

Lemma log1mexp_cases_witness :
  log1mexp (Fin 3) = Fin (ln (1 - exp (- (3)))) /\ log1mexp (Fin (-2)) = NaN.
Proof.
  destruct log1mexp_cases as (Hpos & _ & Hneg & _).
  split; [apply Hpos; lra | apply Hneg; lra].
Defined.

(** X3. [log1pexp x] is log(1 + exp x) for every finite [x], a positive
    number above [x]; it is 0 at [-inf] and [inf] at [inf].  With
    [log1mexp]: log1mexp(x) + log1pexp(-x) = log1mexp(2 x) for [x > 0]. *)
Theorem log1pexp_cases :
  (forall x : R,
     log1pexp (Fin x) = Fin (ln (1 + exp x)) /\
     0 < ln (1 + exp x) /\ x < ln (1 + exp x)) /\
  log1pexp NInf = Fin 0 /\
  log1pexp PInf = PInf /\
  log1pexp NaN = NaN /\
  (forall x : R, 0 < x ->
     fadd (log1mexp (Fin x)) (log1pexp (Fin (- x))) = log1mexp (Fin (2 * x))).
Proof.
  split; [|split; [|split; [|split]]].
  - intros x. split; [apply log1pexp_fin|].
    pose proof (exp_pos x). split.
    + rewrite <- ln_1 at 1. apply ln_increasing; lra.
    + rewrite <- (ln_exp x) at 1. apply ln_increasing; lra.
  - unfold log1pexp. cbn [fexp fadd]. rewrite exp_0.
    rewrite flog_pos by lra. f_equal.
    replace (1 + 0) with 1 by lra. apply ln_1.
  - reflexivity.
  - reflexivity.
  - intros x Hx. rewrite !log1mexp_pos by lra. rewrite log1pexp_fin.
    cbn [fadd]. f_equal.
    pose proof (exp_pos (- x)).
    assert (exp (- x) < 1) by (rewrite <- exp_0; apply exp_increasing; lra).
    rewrite <- ln_mult by lra. f_equal.
    replace (- (2 * x)) with (- x + - x) by lra. rewrite exp_plus. ring.
Qed.

Lemma log1pexp_cases_witness :
  fadd (log1mexp (Fin 1)) (log1pexp (Fin (- (1)))) = log1mexp (Fin (2 * 1)).
Proof.
  destruct log1pexp_cases as (_ & _ & _ & _ & H). apply H. lra.
Defined.

(* ================================================================== *)
(** * Generators: ranges, the other round trip, negative [theta] *)
(* ================================================================== *)

Lemma exp_lt_1 (x : R) : x < 0 -> exp x < 1.
Proof. intros H. rewrite <- exp_0. apply exp_increasing. exact H. Qed.

Lemma exp_gt_1 (x : R) : 0 < x -> 1 < exp x.
Proof. intros H. rewrite <- exp_0. apply exp_increasing. exact H. Qed.

Lemma ln_neg (x : R) : 0 < x < 1 -> ln x < 0.
Proof.
  intros [H0 H1]. assert (H : ln x < ln 1) by (apply ln_increasing; lra).
  rewrite ln_1 in H. exact H.
Qed.

Lemma ln_pos (x : R) : 1 < x -> 0 < ln x.
Proof.
  intros H1. assert (H : ln 1 < ln x) by (apply ln_increasing; lra).
  rewrite ln_1 in H. exact H.
Qed.

Lemma Rpower_lt_1 (b e : R) : 1 < b -> e < 0 -> Rpower b e < 1.
Proof.
  intros Hb He. unfold Rpower. apply exp_lt_1.
  pose proof (ln_pos b Hb). nra.
Qed.

(** The ratio inside Frank's inverse generator, for either sign of theta. *)
Lemma frank_ratio (u theta : R) :
  0 < u < 1 -> theta <> 0 ->
  exp (- theta) <> 1 /\
  0 < (1 - exp (- (u * theta))) / (1 - exp (- theta)) < 1.
Proof.
  intros [Hu0 Hu1] Ht.
  destruct (Rlt_dec 0 theta) as [Hpos|Hneg].
  - assert (HB : exp (- theta) < 1) by (apply exp_lt_1; lra).
    assert (HA : exp (- (u * theta)) < 1) by (apply exp_lt_1; nra).
    assert (HAB : exp (- theta) < exp (- (u * theta)))
      by (apply exp_increasing; nra).
    split; [lra|]. split.
    + apply Rdiv_lt_0_compat; lra.
    + apply (Rmult_lt_reg_r (1 - exp (- theta))); [lra|].
      unfold Rdiv. rewrite Rmult_assoc, Rinv_l by lra. lra.
  - assert (Hlt : theta < 0) by lra.
    assert (HB : 1 < exp (- theta)) by (apply exp_gt_1; lra).
    assert (HA : 1 < exp (- (u * theta))) by (apply exp_gt_1; nra).
    assert (HAB : exp (- (u * theta)) < exp (- theta))
      by (apply exp_increasing; nra).
    split; [lra|].
    replace ((1 - exp (- (u * theta))) / (1 - exp (- theta)))
      with ((exp (- (u * theta)) - 1) / (exp (- theta) - 1))
      by (field; lra).
    split.
    + apply Rdiv_lt_0_compat; lra.
    + apply (Rmult_lt_reg_r (exp (- theta) - 1)); [lra|].
      unfold Rdiv. rewrite Rmult_assoc, Rinv_l by lra. lra.
Qed.

(** The three branches of [ipsi_frank] agree for either sign of theta. *)
Lemma ipsi_frank_value_any (u theta : R) :
  0 < u < 1 -> theta <> 0 ->
  ipsi_frank (Fin u) (Fin theta) false
  = Fin (- ln ((1 - exp (- (u * theta))) / (1 - exp (- theta)))).
Proof.
  intros Hu Ht. destruct (frank_ratio u theta Hu Ht) as (HB & Hq & _).
  pose proof (exp_pos (- theta)) as HB0.
  unfold ipsi_frank.
  destruct (fle (Fin u) (fmul (Fin (1 / 100)) (fabs (Fin theta)))).
  - unfold fexpm1, fsub. cbn [fneg fmul fexp fadd fdiv].
    rewrite Reqb_false by lra.
    replace ((exp (- u * theta) + - (1)) / (exp (- theta) + - (1)))
      with ((1 - exp (- (u * theta))) / (1 - exp (- theta))).
    + rewrite flog_pos by exact Hq. reflexivity.
    + replace (- u * theta) with (- (u * theta)) by lra. field. lra.
  - destruct (fgt (fexp (fneg (Fin theta))) (Fin 0)
              && flt (fabs (fsub (Fin theta) (fmul (Fin u) (Fin theta))))
                     (Fin (1 / 2))).
    + unfold flog1p, fexpm1, fsub. cbn [fneg fmul fexp fadd fdiv].
      rewrite Reqb_false by lra. cbn [fadd].
      replace (1 + exp (- theta) * (exp (theta + - (u * theta)) + - (1))
                   / (exp (- theta) + - (1)))
        with ((1 - exp (- (u * theta))) / (1 - exp (- theta))).
      * rewrite flog_pos by exact Hq. reflexivity.
      * replace (exp (theta + - (u * theta)))
          with (exp (- (u * theta)) / exp (- theta)).
        { field. lra. }
        rewrite exp_plus, (exp_Ropp theta).
        field. pose proof (exp_pos theta). lra.
    + unfold flog1p, fexpm1, fsub. cbn [fneg fmul fexp fadd fdiv].
      rewrite Reqb_false by lra. cbn [fadd].
      replace (1 + (exp (- u * theta) + - exp (- theta))
                   / (exp (- theta) + - (1)))
        with ((1 - exp (- (u * theta))) / (1 - exp (- theta))).
      * rewrite flog_pos by exact Hq. reflexivity.
      * replace (- u * theta) with (- (u * theta)) by lra. field. lra.
Qed.

(** ** The generators at a positive argument *)

Lemma psi_clayton_value (x theta : R) (s : scalar) :
  0 < x -> 0 < theta -> sval s = Fin theta ->
  psi_clayton (Fin x) s = Ok (Fin (Rpower (1 + x) (- (1 / theta)))).
Proof.
  intros Hx Ht Hs. unfold psi_clayton.
  rewrite (div_by_nonzero (-1) theta s Hs) by lra. cbn [bind]. rewrite Hs.
  cbn [fsign fmul fadd]. rewrite Rsign_pos by exact Ht.
  unfold fmaximum. cbn [is_nan orb flt]. rewrite Rltb_false by lra.
  rewrite fpow_pos by lra. do 2 f_equal.
  replace (1 + 1 * x) with (1 + x) by lra.
  replace (-1 / theta) with (- (1 / theta)) by (field; lra).
  reflexivity.
Qed.

Lemma psi_frank_value (x theta : R) :
  0 < x -> 0 < theta ->
  psi_frank (Fin x) (Fin theta)
  = Fin (- ln (1 - exp (- x) * (1 - exp (- theta))) / theta).
Proof.
  intros Hx Ht.
  assert (HB : exp (- theta) < 1) by (apply exp_lt_1; lra).
  pose proof (exp_pos (- theta)) as HB0.
  assert (Hex : exp (- x) < 1) by (apply exp_lt_1; lra).
  pose proof (exp_pos (- x)) as Hex0.
  unfold psi_frank, fgt. cbn [flt]. rewrite Rltb_true by exact Ht.
  rewrite (log1mexp_pos theta Ht). unfold fsub. cbn [fneg fadd].
  assert (Hv : 0 < x + - ln (1 - exp (- theta))).
  { pose proof (ln_neg (1 - exp (- theta))). lra. }
  rewrite (log1mexp_pos _ Hv). cbn [fneg fdiv].
  rewrite Reqb_false by lra. do 3 f_equal. f_equal.
  replace (- (x + - ln (1 - exp (- theta))))
    with (- x + ln (1 - exp (- theta))) by lra.
  rewrite exp_plus, exp_ln by lra. reflexivity.
Qed.

Lemma psi_gumbel_value (x theta : R) (s : scalar) :
  0 < x -> theta <> 0 -> sval s = Fin theta ->
  psi_gumbel (Fin x) s = Ok (Fin (exp (- Rpower x (1 / theta)))).
Proof.
  intros Hx Ht Hs. unfold psi_gumbel.
  rewrite (div_by_nonzero 1 theta s Hs Ht). cbn [bind].
  rewrite fpow_pos by exact Hx. reflexivity.
Qed.

Lemma frank_psi_range (x theta : R) :
  0 < x -> 0 < theta ->
  0 < - ln (1 - exp (- x) * (1 - exp (- theta))) / theta < 1.
Proof.
  intros Hx Ht.
  assert (HB : exp (- theta) < 1) by (apply exp_lt_1; lra).
  pose proof (exp_pos (- theta)) as HB0.
  assert (Hex : exp (- x) < 1) by (apply exp_lt_1; lra).
  pose proof (exp_pos (- x)) as Hex0.
  set (w := 1 - exp (- x) * (1 - exp (- theta))).
  assert (Hw : exp (- theta) < w < 1) by (unfold w; nra).
  assert (Hl1 : ln w < 0) by (apply ln_neg; lra).
  assert (Hl2 : - theta < ln w).
  { rewrite <- (ln_exp (- theta)). apply ln_increasing; lra. }
  split.
  - apply Rdiv_lt_0_compat; lra.
  - apply (Rmult_lt_reg_r theta); [exact Ht|].
    unfold Rdiv. rewrite Rmult_assoc, Rinv_l by lra. lra.
Qed.

(** X5. The other round trip: for [theta > 0] and [x > 0],
    [ipsi(psi(x, theta), theta)] is [x] in all three families, so [psi] and
    [ipsi] are inverse to each other on both sides. *)
Theorem ipsi_psi_round_trip (x theta : R) (s : scalar) :
  0 < x -> 0 < theta -> sval s = Fin theta ->
  (exists u, psi_clayton (Fin x) s = Ok (Fin u) /\
             ipsi_clayton (Fin u) (Fin theta) false = Fin x) /\
  (exists u, psi_frank (Fin x) (Fin theta) = Fin u /\
             ipsi_frank (Fin u) (Fin theta) false = Fin x) /\
  (exists u, psi_gumbel (Fin x) s = Ok (Fin u) /\
             ipsi_gumbel (Fin u) (Fin theta) false = Fin x).
Proof.
  intros Hx Ht Hs. split; [|split].
  - eexists. split; [apply (psi_clayton_value x theta s); assumption|].
    unfold ipsi_clayton, fsub. cbn [fneg fsign].
    rewrite fpow_pos by apply Rpower_pos. rewrite Rsign_pos by exact Ht.
    cbn [fadd fmul]. f_equal.
    rewrite Rpower_mult.
    replace (- (1 / theta) * - theta) with 1 by (field; lra).
    rewrite Rpower_1 by lra. lra.
  - eexists. split; [apply (psi_frank_value x theta); assumption|].
    pose proof (frank_psi_range x theta Hx Ht) as Hu.
    rewrite ipsi_frank_value_any by (try exact Hu; lra). f_equal.
    assert (HB : exp (- theta) < 1) by (apply exp_lt_1; lra).
    pose proof (exp_pos (- theta)) as HB0.
    assert (Hex : exp (- x) < 1) by (apply exp_lt_1; lra).
    pose proof (exp_pos (- x)) as Hex0.
    set (w := 1 - exp (- x) * (1 - exp (- theta))).
    assert (Hw : 0 < w) by (unfold w; nra).
    replace (- (- ln w / theta * theta)) with (ln w) by (field; lra).
    rewrite exp_ln by exact Hw.
    replace ((1 - w) / (1 - exp (- theta))) with (exp (- x))
      by (unfold w; field; lra).
    rewrite ln_exp. lra.
  - eexists. split; [apply (psi_gumbel_value x theta s); [exact Hx | lra | exact Hs]|].
    unfold ipsi_gumbel. rewrite flog_pos by apply exp_pos.
    rewrite ln_exp. cbn [fneg]. rewrite Ropp_involutive.
    rewrite fpow_pos by apply Rpower_pos. f_equal.
    rewrite Rpower_mult.
    replace (1 / theta * theta) with 1 by (field; lra).
    apply Rpower_1. exact Hx.
Qed.

Lemma ipsi_psi_round_trip_witness :
  exists u, psi_gumbel (Fin 2) (PyFloat (Fin 3)) = Ok (Fin u) /\
            ipsi_gumbel (Fin u) (Fin 3) false = Fin 2.
Proof.
  destruct (ipsi_psi_round_trip 2 3 (PyFloat (Fin 3))) as (_ & _ & H);
    [lra | lra | reflexivity | exact H].
Defined.

(* ================================================================== *)
(** * The Eulerian row: length, symmetry, positivity, sum *)
(* ================================================================== *)

Section EulerianRow.

Local Open Scope nat_scope.

Lemma euler_A_pos (n j : nat) : j < n -> (1 <= euler_A n j)%Z.
Proof.
  revert j; induction n as [|n IH]; intros j Hj; [lia|].
  destruct j as [|j]; [simpl; lia|].
  rewrite euler_A_step by lia.
  pose proof (IH j ltac:(lia)). pose proof (euler_A_nonneg n (S j)). nia.
Qed.

(** Partial sums of row [n + 1] in terms of row [n]. *)
Lemma euler_A_partial_sum (n m : nat) :
  1 <= n -> m <= n ->
  Zsum (map (euler_A (S n)) (seq 0 (S m)))
  = (Z.of_nat (n + 1) * Zsum (map (euler_A n) (seq 0 m))
     + Z.of_nat (m + 1) * euler_A n m)%Z.
Proof.
  intros Hn. induction m as [|m IH]; intros Hm.
  - cbn [seq map Zsum fold_right]. destruct n as [|n]; [lia|]. simpl. lia.
  - rewrite seq_S, map_app. cbn [map].
    assert (Happ : forall l x, Zsum (l ++ [x]) = (Zsum l + x)%Z).
    { intros l x. unfold Zsum.
      induction l as [|a l IHl]; simpl; [lia | rewrite IHl; lia]. }
    rewrite Happ, IH by lia.
    rewrite (seq_S m 0), map_app. cbn [map Nat.add]. rewrite Happ.
    rewrite (euler_A_step n m) by lia.
    replace (Z.of_nat (n - m)) with (Z.of_nat n - Z.of_nat m)%Z by lia.
    replace (Z.of_nat (S m + 1)) with (Z.of_nat m + 2)%Z by lia.
    replace (Z.of_nat (m + 2)) with (Z.of_nat m + 2)%Z by lia.
    replace (Z.of_nat (m + 1)) with (Z.of_nat m + 1)%Z by lia.
    replace (Z.of_nat (n + 1)) with (Z.of_nat n + 1)%Z by lia.
    replace (Z.of_nat (S (m + 1))) with (Z.of_nat m + 2)%Z by lia.
    ring.
Qed.

Lemma euler_A_row_sum (n : nat) :
  1 <= n -> Zsum (map (euler_A n) (seq 0 n)) = Z.of_nat (fact n).
Proof.
  induction n as [|n IH]; [lia|]. intros _.
  destruct n as [|n]; [reflexivity|].
  rewrite (euler_A_partial_sum (S n) (S n)) by lia.
  rewrite IH by lia. rewrite (euler_A_above (S n) (S n)) by lia.
  change (fact (S (S n))) with (S (S n) * fact (S n)).
  rewrite Nat2Z.inj_mul. replace (S n + 1) with (S (S n)) by lia. lia.
Qed.

(** X8. What [eulerian_all n] returns.  Its integers, before they are
    stored, are [n] in number, all at least 1, read the same in both
    directions and, for [n >= 1], add up to [n!].  For [n <= 18] the
    float64 array holds exactly these integers; for [n <= 171] it holds
    [n] floats, the integers rounded to nearest, and still reads the same
    in both directions; at [n = 172] the store raises [OverflowError]. *)
Theorem eulerian_all_row_invariants :
  (forall n : nat,
     length (eulerian_all n) = n /\
     Forall (fun a => (1 <= a)%Z) (eulerian_all n) /\
     rev (eulerian_all n) = eulerian_all n /\
     (1 <= n -> Zsum (eulerian_all n) = Z.of_nat (fact n))) /\
  (forall n : nat, n <= 18 ->
     to_floats (eulerian_all n)
     = Ok (map (fun a => Fin (IZR a)) (eulerian_all n))) /\
  (forall n : nat, n <= 171 ->
     exists cs : vector,
       to_floats (eulerian_all n) = Ok cs /\ length cs = n /\ rev cs = cs) /\
  to_floats (eulerian_all 172) = Raise OverflowError.
Proof.
  split; [|split; [|split]].
  - intros n. split; [|split; [|split]].
    + unfold eulerian_all. rewrite length_map, length_seq. reflexivity.
    + rewrite eulerian_all_row. apply Forall_map, Forall_forall.
      intros j Hj. apply in_seq in Hj. apply euler_A_pos. lia.
    + apply eulerian_all_rev.
    + intros Hn. rewrite eulerian_all_row. apply euler_A_row_sum. exact Hn.
  - intros n Hn. apply eulerian_all_exact. exact Hn.
  - intros n Hn. eexists. split; [apply eulerian_all_stored; exact Hn|].
    split.
    + unfold eulerian_all. rewrite !length_map, length_seq. reflexivity.
    + rewrite <- map_rev, eulerian_all_rev. reflexivity.
  - exact eulerian_all_overflow.
Qed.

Lemma eulerian_all_row_invariants_witness :
  Zsum (eulerian_all 7) = Z.of_nat (fact 7) /\
  to_floats (eulerian_all 7) = Ok (map (fun a => Fin (IZR a)) (eulerian_all 7)).
Proof.
  destruct eulerian_all_row_invariants as (Hint & Hex & _).
  split.
  - destruct (Hint 7) as (_ & _ & _ & H). apply H. lia.
  - apply Hex. lia.
Defined.

End EulerianRow.

(* ================================================================== *)
(** * [polyneval] *)
(* ================================================================== *)

Lemma poly_desc_horner (cs : list R) (x a : R) :
  fold_left (fun y c => y * x + c) cs a = a * x ^ length cs + poly_desc cs x.
Proof.
  revert a; induction cs as [|c cs IH]; intros a.
  - simpl. lra.
  - cbn [fold_left length poly_desc]. rewrite IH. simpl pow. lra.
Qed.

Lemma fold_horner_IZR (cs : list Z) (x a : Z) :
  fold_left (fun y c => y * IZR x + c) (map IZR cs) (IZR a)
  = IZR (fold_left (fun y c => y * x + c)%Z cs a).
Proof.
  revert a; induction cs as [|c cs IH]; intros a; [reflexivity|].
  cbn [map fold_left]. rewrite <- mult_IZR, <- plus_IZR. apply IH.
Qed.

(** X9. [polyneval(coef, x)] is the value at [x] of the polynomial
    whose coefficients are [coef], highest degree first (0 for an empty
    [coef]), computed by Horner's rule; on the array [eulerian_all(10)]
    it gives exactly 112058925 at -4 and 9695488 at -3, and at 1 the
    array of order [n], [1 <= n <= 18], gives [n!]. *)
Theorem polyneval_polynomial :
  (forall (cs : list R) (x : R),
     polyneval (map Fin cs) (Fin x) = Fin (poly_desc cs x)) /\
  (forall x : npfloat, polyneval [] x = Fin 0) /\
  (exists cs : vector,
     to_floats (eulerian_all 10) = Ok cs /\
     polyneval cs (Fin (-4)) = Fin 112058925 /\
     polyneval cs (Fin (-3)) = Fin 9695488) /\
  (forall n : nat, (1 <= n <= 18)%nat ->
     exists cs : vector,
       to_floats (eulerian_all n) = Ok cs /\
       polyneval cs (Fin 1) = Fin (INR (fact n))).
Proof.
  assert (Hz : forall x : Z,
            polyneval (map (fun a => Fin (IZR a)) (eulerian_all 10)) (Fin (IZR x))
            = Fin (IZR (fold_left (fun y c => y * x + c)%Z (eulerian_all 10) 0%Z))).
  { intros x. rewrite <- (map_map IZR Fin), polyneval_fin.
    f_equal. apply (fold_horner_IZR _ x 0%Z). }
  split; [|split; [|split]].
  - intros cs x. rewrite polyneval_fin, poly_desc_horner. f_equal. lra.
  - reflexivity.
  - eexists. split; [apply (eulerian_all_exact 10); lia|]. split.
    + rewrite (Hz (-4)%Z). f_equal.
    + rewrite (Hz (-3)%Z). f_equal.
  - intros n [Hn Hn18]. eexists.
    split; [apply (eulerian_all_exact n); exact Hn18|].
    rewrite polyneval_eulerian. f_equal.
    unfold euler_poly.
    assert (H1 : forall l : list Z,
              poly_asc (map IZR l) 1 = IZR (Zsum l)).
    { induction l as [|a l IH]; [reflexivity|].
      cbn [map poly_asc Zsum fold_right]. rewrite IH, plus_IZR.
      unfold Zsum. lra. }
    rewrite <- (map_map (euler_A n) IZR), H1, euler_A_row_sum by exact Hn.
    rewrite <- INR_IZR_INZ. reflexivity.
Qed.

Lemma polyneval_polynomial_witness :
  exists cs : vector,
    to_floats (eulerian_all 3) = Ok cs /\
    polyneval cs (Fin 1) = Fin (INR (fact 3)).
Proof.
  destruct polyneval_polynomial as (_ & _ & _ & H). apply H. lia.
Defined.

(* ================================================================== *)
(** * The sign function [s_j] and the assertions of [pdf_gumbel] *)
(* ================================================================== *)

Lemma Int_part_IZR (z : Z) : Int_part (IZR z) = z.
Proof. symmetry. apply Int_part_spec. lra. Qed.

(** [(-1.0) ** k] for an integer-valued exponent. *)
Lemma fpow_minus_one (k : Z) :
  fpow (Fin (-1)) (Fin (IZR k)) = Fin (if Z.odd k then -1 else 1).
Proof.
  unfold fpow. cbn [feq].
  destruct (Reqb_spec (IZR k) 0) as [H0|H0].
  - apply eq_IZR in H0. subst k. reflexivity.
  - rdecide. unfold Rintegral, Rodd. rewrite Int_part_IZR.
    rewrite Reqb_true by reflexivity.
    replace (- -1) with 1 by lra.
    assert (E : Rpower 1 (IZR k) = 1).
    { unfold Rpower. rewrite ln_1, Rmult_0_r. apply exp_0. }
    rewrite E. destruct (Z.odd k); f_equal; lra.
Qed.

Lemma s_j_assertion (j d : nat) (alpha : R) :
  alpha <= 0 \/ 1 < alpha -> s_j j (Fin alpha) d = Raise AssertionError.
Proof.
  intros [H|H]; unfold s_j, py_assert, fle; cbn [flt feq].
  - rewrite Rltb_false by lra. reflexivity.
  - rewrite Rltb_true by lra. cbn [bind].
    rewrite Rltb_false, Reqb_false by lra. reflexivity.
Qed.

Lemma s_j_fraction (j d : nat) (alpha : R) :
  0 < alpha < 1 ->
  s_j j (Fin alpha) d =
  Ok (if Reqb (alpha * INR j) (IZR (Int_part (alpha * INR j))) then Fin 0
      else Fin (if Z.odd (Z.of_nat j + Int_part (- (alpha * INR j)))
                then -1 else 1)).
Proof.
  intros [H0 H1]. unfold s_j, py_assert, fle. cbn [flt feq].
  rewrite (Rltb_true 0 alpha), (Rltb_true alpha 1) by lra. cbn [orb bind].
  rewrite Reqb_false by lra.
  unfold of_nat, fne, fsub. cbn [fmul ffloor fceil feq fneg fadd].
  destruct (Reqb (alpha * INR j) (IZR (Int_part (alpha * INR j))));
    [reflexivity|].
  cbn [negb]. f_equal.
  replace (INR j + - - IZR (Int_part (- (alpha * INR j))))
    with (IZR (Z.of_nat j + Int_part (- (alpha * INR j))))
    by (rewrite plus_IZR, <- INR_IZR_INZ; lra).
  apply fpow_minus_one.
Qed.

(** X10. The sign function of the Gumbel density.  [s_j] raises
    [AssertionError] unless [0 < alpha <= 1].  At [alpha = 1] it is
    (-1)^(d - j), in particular 1 at [j = d].  For [0 < alpha < 1] it is 0
    when [alpha * j] is an integer and otherwise (-1)^(j - ceil(alpha j)):
    always one of -1, 0, 1. *)
Theorem s_j_values (j d : nat) :
  (forall alpha : R, alpha <= 0 \/ 1 < alpha ->
     s_j j (Fin alpha) d = Raise AssertionError) /\
  s_j j (Fin 1) d =
    Ok (Fin (if Z.odd (Z.of_nat d - Z.of_nat j) then -1 else 1)) /\
  s_j d (Fin 1) d = Ok (Fin 1) /\
  (forall alpha : R, 0 < alpha < 1 ->
     s_j j (Fin alpha) d =
       Ok (if Reqb (alpha * INR j) (IZR (Int_part (alpha * INR j))) then Fin 0
           else Fin (if Z.odd (Z.of_nat j + Int_part (- (alpha * INR j)))
                     then -1 else 1))).
Proof.
  split; [intros alpha; apply s_j_assertion|].
  split; [|split; [|intros alpha; apply s_j_fraction]].
  - rewrite s_j_alpha_one.
    destruct (Nat.eqb_spec j d) as [->|Hne].
    + rewrite Z.sub_diag. reflexivity.
    + replace (INR d + - INR j) with (IZR (Z.of_nat d - Z.of_nat j))
        by (rewrite minus_IZR, <- !INR_IZR_INZ; lra).
      rewrite fpow_minus_one. reflexivity.
  - rewrite s_j_alpha_one, Nat.eqb_refl. reflexivity.
Qed.

Lemma s_j_values_witness :
  s_j 2 (Fin (3 / 2)) 3 = Raise AssertionError /\
  s_j 2 (Fin (1 / 2)) 3 = Ok (Fin 0).
Proof.
  destruct (s_j_values 2 3) as (Ha & _ & _ & Hf).
  split; [apply Ha; lra|].
  rewrite Hf by lra.
  assert (E : 1 / 2 * INR 2 = IZR 1) by (simpl; lra).
  rewrite E, Int_part_IZR, Reqb_true by reflexivity. reflexivity.
Defined.

Lemma log_polyg_assertion (lx : npfloat) (alpha : R) (d : nat) :
  (0 < d)%nat -> alpha <= 0 \/ 1 < alpha ->
  log_polyg lx (Fin alpha) d = Raise AssertionError.
Proof.
  intros Hd Ha. unfold log_polyg.
  destruct d as [|d]; [lia|]. cbn [seq mapM].
  rewrite s_j_assertion by exact Ha. reflexivity.
Qed.

(** X11. [pdf_gumbel] outside the parameter range.  On every valid
    matrix, a finite [theta < 1] other than 0 ends in [AssertionError]
    (the assertions of [s_j] on [alpha = 1 / theta]), for either scale;
    the Python float [0.0] ends in [ZeroDivisionError]. *)
Theorem pdf_gumbel_rejects_theta
    (U : list (list R)) (d : nat) (is_log : bool) :
  valid_U U d ->
  (forall (theta : R) (s : scalar),
     sval s = Fin theta -> theta < 1 -> theta <> 0 ->
     pdf_gumbel (as_matrix U) s is_log = Raise AssertionError) /\
  pdf_gumbel (as_matrix U) (PyFloat (Fin 0)) is_log = Raise ZeroDivisionError.
Proof.
  intros HU. split.
  - intros theta s Hs Hlt Hne. unfold pdf_gumbel.
    rewrite (div_by_nonzero 1 theta s Hs Hne). cbn [bind].
    destruct (valid_shape U d HU) as [E0 E1]. rewrite E0, E1.
    pose proof (valid_rows_nonempty U d HU) as Hrows.
    destruct HU as (Hne0 & Hd & _).
    destruct (mapM_total lsum
                (map (map (fun u => ipsi_gumbel u (sval s) false)) (as_matrix U)))
      as (lnt & Elnt & _).
    { intros row Hrow. apply lsum_total.
      apply in_map_iff in Hrow. destruct Hrow as (r0 & <- & Hr0).
      unfold as_matrix in Hr0. apply in_map_iff in Hr0.
      destruct Hr0 as (r1 & <- & Hr1).
      rewrite Forall_forall in Hrows. specialize (Hrows r1 Hr1).
      destruct r1; [contradiction | discriminate]. }
    rewrite Elnt. cbn [bind].
    destruct U as [|row U]; [contradiction|].
    cbn [length seq mapM].
    rewrite log_polyg_assertion; [reflexivity | exact Hd |].
    destruct (Rlt_dec theta 0) as [Hneg|Hpos].
    + left. apply Rlt_le. unfold Rdiv. rewrite Rmult_1_l.
      apply Rinv_lt_0_compat. exact Hneg.
    + right. assert (0 < theta) by lra.
      apply (Rmult_lt_reg_r theta); [assumption|].
      unfold Rdiv. rewrite Rmult_assoc, Rinv_l by lra. lra.
  - unfold pdf_gumbel, div_by, pydiv. cbn [feq].
    rewrite Reqb_true by reflexivity. reflexivity.
Qed.

Lemma pdf_gumbel_rejects_theta_witness :
  pdf_gumbel (as_matrix [[1 / 2; 1 / 3]]) (PyFloat (Fin (1 / 2))) true
  = Raise AssertionError.
Proof.
  destruct (pdf_gumbel_rejects_theta [[1 / 2; 1 / 3]] 2 true) as (H & _).
  - solve_valid.
  - apply (H (1 / 2)); [reflexivity | lra | lra].
Defined.

(* ================================================================== *)
(** * Diagonal densities of Gumbel and Clayton *)
(* ================================================================== *)

Lemma valid_d_pos (U : list (list R)) (d : nat) : valid_U U d -> 0 < INR d.
Proof. intros (_ & Hd & _). apply lt_0_INR. exact Hd. Qed.

Lemma gumbel_exponent_range (theta : R) : 1 <= theta -> 0 < 1 / theta <= 1.
Proof.
  intros Ht. split; [apply Rdiv_lt_0_compat; lra|].
  apply (Rmult_le_reg_r theta); [lra|].
  unfold Rdiv. rewrite Rmult_assoc, Rinv_l by lra. lra.
Qed.

Lemma Rabs_le_bounds (x y : R) : Rabs x <= y -> - y <= x <= y.
Proof. unfold Rabs. destruct (Rcase_abs x); lra. Qed.

Lemma pypow_in_range (a e : R) :
  0 < a -> Rabs e <= float_max -> Rpower a e <= float_max ->
  pypow (Fin a) (Fin e) = Ok (Fin (Rpower a e)).
Proof.
  intros Ha He Hp. unfold pypow. cbn [overflow].
  pose proof (Rabs_le_bounds e float_max He) as [He1 He2].
  rewrite (Rltb_false float_max e), (Rltb_false e (- float_max)) by lra.
  rewrite fpow_pos by exact Ha.
  rewrite Rabs_pos_eq by (apply Rlt_le, Rpower_pos).
  rewrite Rltb_false by lra. reflexivity.
Qed.

Lemma pypow_out_of_range (a e : R) :
  0 < a -> Rabs e <= float_max -> float_max < Rpower a e ->
  pypow (Fin a) (Fin e) = Raise OverflowError.
Proof.
  intros Ha He Hp. unfold pypow. cbn [overflow].
  pose proof (Rabs_le_bounds e float_max He) as [He1 He2].
  rewrite (Rltb_false float_max e), (Rltb_false e (- float_max)) by lra.
  rewrite fpow_pos by exact Ha.
  rewrite Rabs_pos_eq by (apply Rlt_le, Rpower_pos).
  rewrite Rltb_true by lra. reflexivity.
Qed.

Lemma pow_by_in_range (a e : R) (s : scalar) :
  0 < a -> Rabs e <= float_max -> Rpower a e <= float_max ->
  pow_by (Fin a) (Fin e) s = Ok (Fin (Rpower a e)).
Proof.
  intros Ha He Hp. destruct s as [v|v]; unfold pow_by.
  - apply pypow_in_range; assumption.
  - rewrite fpow_pos by exact Ha. reflexivity.
Qed.

Lemma diag_pdf_gumbel_value (U : list (list R)) (d : nat) (theta : R)
    (s : scalar) (is_log : bool) :
  valid_U U d -> 1 <= theta -> sval s = Fin theta ->
  Rpower (INR d) (1 / theta) <= float_max ->
  diag_pdf_gumbel (as_matrix U) s is_log =
  Ok (map (fun row =>
             if is_log then Fin (ln (gumbel_diag d theta (Rmaxl row)))
             else Fin (gumbel_diag d theta (Rmaxl row))) U).
Proof.
  intros HU Ht Hs Hda. unfold diag_pdf_gumbel.
  rewrite (diag_copula_fin U (valid_rows_nonempty U d HU)). cbn [bind].
  rewrite (div_by_nonzero 1 theta s Hs) by lra. cbn [bind].
  destruct (valid_shape U d HU) as [_ E1]. rewrite E1.
  pose proof (valid_d_pos U d HU) as Hd.
  pose proof (valid_diag_range U d HU) as Hy.
  pose proof (gumbel_exponent_range theta Ht) as [Ha0 Ha1].
  pose proof float_max_large as Hfm.
  unfold of_nat. rewrite pow_by_in_range;
    [| exact Hd | rewrite Rabs_pos_eq; lra | exact Hda].
  cbn [bind].
  rewrite Forall_map, Forall_forall in Hy.
  destruct is_log; f_equal; rewrite !map_map; apply map_ext_in;
    intros row Hrow; destruct (Hy row Hrow) as [Hy0 Hy1].
  - unfold fsub. rewrite !flog_pos by assumption. cbn [fneg fadd fmul].
    f_equal. unfold gumbel_diag.
    rewrite ln_mult by apply Rpower_pos. rewrite !ln_Rpower. lra.
  - unfold fsub. cbn [fneg fadd]. rewrite fpow_pos by exact Hy0.
    cbn [fmul]. reflexivity.
Qed.

Lemma gumbel_diag_independence (d : nat) (y : R) :
  (0 < d)%nat -> 0 < y -> gumbel_diag d 1 y = INR d * y ^ (d - 1).
Proof.
  intros Hd Hy. unfold gumbel_diag.
  replace (1 / 1) with 1 by lra.
  rewrite Rpower_1 by (apply lt_0_INR; exact Hd).
  replace (INR d - 1) with (INR (d - 1)).
  - rewrite Rpower_pow by exact Hy. reflexivity.
  - rewrite minus_INR by lia. reflexivity.
Qed.

Lemma diag_pdf_gumbel_overflow (U : list (list R)) (d : nat) (theta : R)
    (is_log : bool) :
  valid_U U d -> theta <> 0 -> Rabs (1 / theta) <= float_max ->
  float_max < Rpower (INR d) (1 / theta) ->
  diag_pdf_gumbel (as_matrix U) (PyFloat (Fin theta)) is_log
  = Raise OverflowError.
Proof.
  intros HU Ht Ha Hda. unfold diag_pdf_gumbel.
  rewrite (diag_copula_fin U (valid_rows_nonempty U d HU)). cbn [bind].
  rewrite (div_by_nonzero 1 theta (PyFloat (Fin theta)) eq_refl Ht). cbn [bind].
  destruct (valid_shape U d HU) as [_ E1]. rewrite E1.
  unfold of_nat, pow_by.
  rewrite (pypow_out_of_range (INR d) (1 / theta) (valid_d_pos U d HU) Ha Hda).
  reflexivity.
Qed.

(** X12. For every valid matrix with [d] columns and every [theta >= 1]
    (Gumbel's range, where [d^(1/theta)] lies between 1 and [d]),
    [diag_pdf_gumbel] returns, for each row with maximum [y], the density
    d^(1/theta) * y^(d^(1/theta) - 1), and with [is_log] exactly its log;
    at [theta = 1] this is d * y^(d-1), the density of the maximum of [d]
    independent uniforms.  The Python float [0.0] raises
    [ZeroDivisionError], and a Python float [theta] for which
    [d^(1/theta)] is beyond the float64 range raises [OverflowError]. *)
Theorem diag_pdf_gumbel_closed_form
    (U : list (list R)) (d : nat) (theta : R) (s : scalar) :
  valid_U U d -> 1 <= theta -> sval s = Fin theta ->
  Rpower (INR d) (1 / theta) <= float_max ->
  diag_pdf_gumbel (as_matrix U) s false =
    Ok (map (fun row => Fin (gumbel_diag d theta (Rmaxl row))) U) /\
  diag_pdf_gumbel (as_matrix U) s true =
    Ok (map (fun row => Fin (ln (gumbel_diag d theta (Rmaxl row)))) U) /\
  (forall y : R, 0 < y -> gumbel_diag d 1 y = INR d * y ^ (d - 1)) /\
  (forall b : bool,
     diag_pdf_gumbel (as_matrix U) (PyFloat (Fin 0)) b = Raise ZeroDivisionError) /\
  (forall (t : R) (b : bool),
     t <> 0 -> Rabs (1 / t) <= float_max ->
     float_max < Rpower (INR d) (1 / t) ->
     diag_pdf_gumbel (as_matrix U) (PyFloat (Fin t)) b = Raise OverflowError).
Proof.
  intros HU Ht Hs Hda.
  split; [apply (diag_pdf_gumbel_value U d theta s false); assumption|].
  split; [apply (diag_pdf_gumbel_value U d theta s true); assumption|].
  split.
  - intros y Hy. apply gumbel_diag_independence; [|exact Hy].
    destruct HU as (_ & Hd & _). exact Hd.
  - split.
    + intros b. unfold diag_pdf_gumbel.
      rewrite (diag_copula_fin U (valid_rows_nonempty U d HU)). cbn [bind].
      unfold div_by, pydiv. cbn [feq]. rewrite Reqb_true by reflexivity.
      reflexivity.
    + intros t b Hnz Ha Hbig.
      apply (diag_pdf_gumbel_overflow U d t b); assumption.
Qed.

Lemma diag_pdf_gumbel_closed_form_witness :
  diag_pdf_gumbel (as_matrix [[1 / 2; 1 / 3]]) (PyFloat (Fin 1)) false
    = Ok (map (fun row => Fin (gumbel_diag 2 1 (Rmaxl row))) [[1 / 2; 1 / 3]]) /\
  diag_pdf_gumbel (as_matrix [[1 / 2; 1 / 3]]) (PyFloat (Fin (1 / 2000))) true
    = Raise OverflowError.
Proof.
  assert (HU : valid_U [[1 / 2; 1 / 3]] 2) by solve_valid.
  pose proof float_max_large as Hfm. pose proof float_max_lt as Hlt.
  assert (H1 : Rpower (INR 2) (1 / 1) <= float_max).
  { replace (1 / 1) with 1 by lra. rewrite Rpower_1 by (simpl; lra).
    simpl. lra. }
  destruct (diag_pdf_gumbel_closed_form [[1 / 2; 1 / 3]] 2 1 (PyFloat (Fin 1))
              HU ltac:(lra) eq_refl H1) as (Hn & _ & _ & _ & Hov).
  split; [exact Hn|].
  apply Hov.
  - lra.
  - replace (1 / (1 / 2000)) with 2000 by field.
    pose proof float_max_lower.
    assert (2000 <= IZR (2 ^ 1023)) by (apply IZR_le; vm_compute; discriminate).
    rewrite Rabs_pos_eq; lra.
  - replace (1 / (1 / 2000)) with (INR 2000)
      by (rewrite INR_IZR_INZ; simpl; field).
    rewrite Rpower_pow by (simpl; lra).
    replace (INR 2) with 2 by (simpl; lra).
    assert (E : 2 ^ 2000 = IZR (2 ^ 2000)) by (rewrite pow_IZR; reflexivity).
    rewrite E.
    assert (IZR (2 ^ 1024) <= IZR (2 ^ 2000))
      by (apply IZR_le; vm_compute; discriminate).
    lra.
Defined.






(* ================================================================== *)
(** * Clayton's density for positive theta *)
(* ================================================================== *)












(* ================================================================== *)
(** * Frank's density *)
(* ================================================================== *)















(* ================================================================== *)
(** * Frank's density outside its domain *)
(* ================================================================== *)







(* ================================================================== *)
(** * The diagonal statistic: column order and missing values *)
(* ================================================================== *)

Lemma Rmaxl_perm (r1 r2 : list R) : Permutation r1 r2 -> Rmaxl r1 = Rmaxl r2.
Proof.
  intros HP. destruct r1 as [|a r1].
  - apply Permutation_nil in HP. subst r2. reflexivity.
  - destruct r2 as [|b r2];
      [apply Permutation_sym, Permutation_nil in HP; discriminate|].
    assert (H1 : Rmaxl (a :: r1) <= Rmaxl (b :: r2)).
    { pose proof (Rmaxl_ge (b :: r2)) as Hge. rewrite Forall_forall in Hge.
      apply Hge. apply (Permutation_in _ HP). apply Rmaxl_in. discriminate. }
    assert (H2 : Rmaxl (b :: r2) <= Rmaxl (a :: r1)).
    { pose proof (Rmaxl_ge (a :: r1)) as Hge. rewrite Forall_forall in Hge.
      apply Hge. apply (Permutation_in _ (Permutation_sym HP)).
      apply Rmaxl_in. discriminate. }
    lra.
Qed.

Lemma diag_copula_perm (U V : list (list R)) :
  Forall (fun row => row <> []) U -> Forall2 (@Permutation R) U V ->
  Forall (fun row => row <> []) V /\ map Rmaxl V = map Rmaxl U /\
  length V = length U /\ length (hd [] V) = length (hd [] U).
Proof.
  intros Hne HP. induction HP as [|r1 r2 U V Hr HP IH].
  - repeat split; constructor.
  - inversion Hne as [|? ? Hr1 HU]; subst.
    destruct (IH HU) as (HV & Em & El & _).
    split.
    { constructor; [|exact HV]. intros ->.
      apply Permutation_sym, Permutation_nil in Hr. contradiction. }
    cbn [map length hd]. rewrite Em, El, (Rmaxl_perm r1 r2 Hr).
    rewrite (Permutation_length Hr). repeat split; reflexivity.
Qed.

(** X17. Reordering the entries inside the rows of a matrix with
    non-empty finite rows changes neither the diagonal statistic, which
    is the list of row maxima, nor the Gumbel estimate computed from
    it. *)
Theorem diag_copula_column_order (U V : list (list R)) :
  Forall (fun row => row <> []) U -> Forall2 (@Permutation R) U V ->
  diag_copula (as_matrix U) = Ok (map Fin (map Rmaxl U)) /\
  diag_copula (as_matrix V) = diag_copula (as_matrix U) /\
  dmle_copula_gumbel (as_matrix V) = dmle_copula_gumbel (as_matrix U).
Proof.
  intros Hne HP.
  destruct (diag_copula_perm U V Hne HP) as (HV & Em & El & Eh).
  assert (E : diag_copula (as_matrix V) = diag_copula (as_matrix U)).
  { rewrite (diag_copula_fin U Hne), (diag_copula_fin V HV), Em. reflexivity. }
  split; [apply diag_copula_fin; exact Hne|].
  split; [exact E|].
  unfold dmle_copula_gumbel. rewrite E.
  unfold shape0, shape1, as_matrix. rewrite !length_map, El.
  replace (length (hd [] (map (map Fin) V)))
    with (length (hd [] (map (map Fin) U))); [reflexivity|].
  destruct U as [|r1 U]; destruct V as [|r2 V]; try discriminate;
    [reflexivity|].
  cbn [map hd] in *. rewrite !length_map. symmetry. exact Eh.
Qed.

Lemma diag_copula_column_order_witness :
  diag_copula (as_matrix [[1 / 3; 1 / 2]; [1 / 5; 1 / 4]])
  = diag_copula (as_matrix [[1 / 2; 1 / 3]; [1 / 4; 1 / 5]]).
Proof.
  apply (diag_copula_column_order
           [[1 / 2; 1 / 3]; [1 / 4; 1 / 5]] [[1 / 3; 1 / 2]; [1 / 5; 1 / 4]]).
  - repeat constructor; discriminate.
  - repeat constructor; apply perm_swap.
Defined.

Lemma pymax_fold_nan (v : vector) :
  fold_left (fun m y => if fgt y m then y else m) v NaN = NaN.
Proof. induction v as [|y v IH]; [reflexivity | destruct y; exact IH]. Qed.

Lemma pymax_skips_nan (x : npfloat) (v1 v2 : vector) :
  pymax (x :: v1 ++ NaN :: v2) = pymax (x :: v1 ++ v2).
Proof.
  unfold pymax. rewrite !fold_left_app. cbn [fold_left].
  replace (fgt NaN (fold_left (fun m y => if fgt y m then y else m) v1 x))
    with false; [reflexivity|].
  destruct (fold_left _ v1 x); reflexivity.
Qed.

Lemma mapM_middle {A B : Type} (f : A -> result B) (l1 l2 : list A) (a a' : A) :
  f a = f a' -> mapM f (l1 ++ a :: l2) = mapM f (l1 ++ a' :: l2).
Proof.
  intros E. induction l1 as [|b l1 IH]; cbn [app mapM].
  - rewrite E. reflexivity.
  - rewrite IH. reflexivity.
Qed.

Lemma mapM_middle_value {A B : Type} (f : A -> result B) (l1 l2 : list A)
    (a : A) (b dflt : B) (bs : list B) :
  f a = Ok b -> mapM f (l1 ++ a :: l2) = Ok bs -> nth (length l1) bs dflt = b.
Proof.
  intros E. revert bs. induction l1 as [|c l1 IH]; intros bs H; cbn [app mapM] in H.
  - rewrite E in H. cbn [bind] in H.
    destruct (mapM f l2); [|discriminate]. injection H as <-. reflexivity.
  - destruct (f c); [|discriminate]. cbn [bind] in H.
    destruct (mapM f (l1 ++ a :: l2)) as [bs'|]; [|discriminate].
    cbn [bind] in H. injection H as <-. cbn [length nth]. apply IH. reflexivity.
Qed.

(** X18. The diagonal statistic treats a missing value by its position:
    a row that starts with [nan] has diagonal [nan] whatever follows,
    while a [nan] anywhere after the first entry of a row is ignored, the
    result being that of the matrix without it.  Python's [max] keeps its
    first argument unless a later one compares greater, and no comparison
    with [nan] holds. *)
Theorem diag_copula_nan_position :
  (forall (M1 M2 : matrix) (v ys : vector),
     diag_copula (M1 ++ (NaN :: v) :: M2) = Ok ys ->
     getf ys (length M1) = NaN) /\
  (forall (M1 M2 : matrix) (x : npfloat) (v1 v2 : vector),
     diag_copula (M1 ++ (x :: v1 ++ NaN :: v2) :: M2)
     = diag_copula (M1 ++ (x :: v1 ++ v2) :: M2)).
Proof.
  split.
  - intros M1 M2 v ys H. unfold getf.
    apply (mapM_middle_value pymax M1 M2 (NaN :: v) NaN NaN ys); [|exact H].
    unfold pymax. rewrite pymax_fold_nan. reflexivity.
  - intros M1 M2 x v1 v2. unfold diag_copula.
    apply mapM_middle. apply pymax_skips_nan.
Qed.

Lemma diag_copula_nan_position_witness :
  diag_copula [[Fin (1 / 2)]; [NaN; Fin 1]] = Ok [Fin (1 / 2); NaN] /\
  getf [Fin (1 / 2); NaN] 1 = NaN.
Proof.
  assert (H : diag_copula ([[Fin (1 / 2)]] ++ [NaN; Fin 1] :: [])
              = Ok [Fin (1 / 2); NaN]) by reflexivity.
  split; [exact H|].
  exact (proj1 diag_copula_nan_position [[Fin (1 / 2)]] [] [Fin 1]
           [Fin (1 / 2); NaN] H).
Defined.

(* ================================================================== *)
(** * Gumbel's density returns on its parameter range *)
(* ================================================================== *)

Lemma sort_insert_length (x : npfloat) (l : vector) :
  length (sort_insert x l) = S (length l).
Proof.
  induction l as [|y l IH]; [reflexivity|].
  cbn [sort_insert]. destruct (fle x y || is_nan y); cbn [length];
    [reflexivity | rewrite IH; reflexivity].
Qed.

Lemma npsort_length (v : vector) : length (npsort v) = length v.
Proof.
  induction v as [|x v IH]; [reflexivity|].
  unfold npsort in *. cbn [fold_right length].
  rewrite sort_insert_length, IH. reflexivity.
Qed.

Lemma lssum_returns (v : vector) : v <> [] -> exists r, lssum v = Ok r.
Proof.
  intros Hne. unfold lssum.
  destruct (pymax_total (npsort (map flog (map fabs v)))) as [m Hm].
  - intros E. apply (f_equal (@length npfloat)) in E.
    rewrite npsort_length, !length_map in E.
    destruct v; [contradiction | discriminate].
  - rewrite Hm. cbn [bind]. eexists. reflexivity.
Qed.

Lemma s_j_total (j d : nat) (alpha : R) :
  0 < alpha <= 1 -> exists v, s_j j (Fin alpha) d = Ok v.
Proof.
  intros [H0 [H1|E]].
  - rewrite s_j_fraction by lra. eexists. reflexivity.
  - subst alpha. rewrite s_j_alpha_one. eexists. reflexivity.
Qed.

Lemma log_polyg_total (lx : npfloat) (alpha : R) (d : nat) :
  (0 < d)%nat -> 0 < alpha <= 1 ->
  exists p, log_polyg lx (Fin alpha) d = Ok p.
Proof.
  intros Hd Ha. unfold log_polyg.
  match goal with
  | |- context [mapM ?f ?l] =>
      destruct (mapM_total f l) as (res & Eres & Lres)
  end.
  - intros j _. destruct (s_j_total j d alpha Ha) as [v Hv].
    rewrite Hv. cbn [bind]. eexists. reflexivity.
  - rewrite Eres. cbn [bind]. apply lssum_returns.
    rewrite length_seq in Lres. destruct res; [simpl in Lres; lia | discriminate].
Qed.

(** X19. On every valid matrix and for every finite [theta >= 1],
    [pdf_gumbel] returns an array with one entry per row, on either
    scale: the assertions of [s_j] hold for [alpha = 1 / theta] in (0, 1],
    and [lsum] and [lssum] are applied to non-empty arrays only. *)
Theorem pdf_gumbel_accepts_theta
    (U : list (list R)) (d : nat) (theta : R) (s : scalar) (is_log : bool) :
  valid_U U d -> 1 <= theta -> sval s = Fin theta ->
  exists v : vector,
    pdf_gumbel (as_matrix U) s is_log = Ok v /\ length v = length U.
Proof.
  intros HU Ht Hs. unfold pdf_gumbel.
  rewrite (div_by_nonzero 1 theta s Hs) by lra. cbn [bind].
  destruct (valid_shape U d HU) as [E0 E1]. rewrite E0, E1.
  pose proof (valid_rows_nonempty U d HU) as Hrows.
  destruct HU as (Hne0 & Hd & _).
  destruct (mapM_total lsum
              (map (map (fun u => ipsi_gumbel u (sval s) false)) (as_matrix U)))
    as (lnt & Elnt & _).
  { intros row Hrow. apply lsum_total.
    apply in_map_iff in Hrow. destruct Hrow as (r0 & <- & Hr0).
    unfold as_matrix in Hr0. apply in_map_iff in Hr0.
    destruct Hr0 as (r1 & <- & Hr1).
    rewrite Forall_forall in Hrows. specialize (Hrows r1 Hr1).
    destruct r1; [contradiction | discriminate]. }
  rewrite Elnt. cbn [bind].
  assert (Ha : 0 < 1 / theta <= 1).
  { split; [apply Rdiv_lt_0_compat; lra|].
    apply (Rmult_le_reg_r theta); [lra|].
    unfold Rdiv. rewrite Rmult_assoc, Rinv_l by lra. lra. }
  match goal with
  | |- context [mapM ?f (seq 0 (length U))] =>
      destruct (mapM_total f (seq 0 (length U))) as (ls & Els & _)
  end.
  { intros i _.
    destruct (log_polyg_total
                (getf (map (fun l => fmul (Fin (1 / theta)) l) lnt) i)
                (1 / theta) d Hd Ha) as [p Hp].
    rewrite Hp. cbn [bind]. eexists. reflexivity. }
  rewrite Els. cbn [bind].
  destruct is_log; eexists; (split; [reflexivity|]);
    rewrite ?length_map, length_seq; reflexivity.
Qed.

Lemma pdf_gumbel_accepts_theta_witness :
  exists v : vector,
    pdf_gumbel (as_matrix [[1 / 2; 1 / 3]]) (PyFloat (Fin 2)) true = Ok v /\
    length v = 1%nat.
Proof.
  apply (pdf_gumbel_accepts_theta [[1 / 2; 1 / 3]] 2 2 (PyFloat (Fin 2)) true).
  - solve_valid.
  - lra.
  - reflexivity.
Defined.

(* ================================================================== *)
(** * Frank's diagonal density near the origin *)
(* ================================================================== *)








(* ================================================================== *)
(** * The objective of the Clayton estimator *)
(* ================================================================== *)


Lemma npsum_nan (n : nat) : npsum (repeat NaN (S n)) = NaN.
Proof. reflexivity. Qed.





(* ================================================================== *)
(** * [polylog] at the orders outside the Eulerian rows *)
(* ================================================================== *)

Lemma polylog_positive_order (z : npfloat) (s : Z) (b : bool) :
  (0 < s)%Z -> polylog z s b = Raise ValueError.
Proof.
  intros Hs. unfold polylog.
  destruct (Z.ltb_spec (- s) 0) as [_|H]; [reflexivity | lia].
Qed.

Lemma polylog_order_zero (z : R) :
  0 < z < 1 -> polylog (Fin z) 0 false = Ok NInf.
Proof.
  intros [Hz0 Hz1]. change 0%Z with (- Z.of_nat 0)%Z.
  rewrite polylog_nat by lia.
  change (euler_poly 0 z) with 0.
  rewrite (flog_pos z), (flog_pos (1 - z)) by lra.
  cbn [flog]. rdecide. reflexivity.
Qed.

Lemma polylog_order_zero_log (w : R) :
  w < 0 -> polylog (Fin w) 0 true = Ok NInf.
Proof.
  intros Hw. change 0%Z with (- Z.of_nat 0)%Z.
  rewrite polylog_nat_log by lia.
  change (euler_poly 0 (exp w)) with 0.
  rewrite log1mexp_pos by lra.
  cbn [flog]. rdecide. reflexivity.
Qed.

(** X22. [polylog] outside the orders [-1, -2, ...].  A positive order
    [s] raises [ValueError] ([np.zeros] is given the negative shape
    [-s]), whatever the argument.  At order 0 the Eulerian row is empty,
    [polyneval] gives 0, and the result is [-inf] for every [z] in (0,1)
    on either scale of the argument. *)
Theorem polylog_edge_orders :
  (forall (z : npfloat) (s : Z) (b : bool),
     (0 < s)%Z -> polylog z s b = Raise ValueError) /\
  (forall z : R, 0 < z < 1 -> polylog (Fin z) 0 false = Ok NInf) /\
  (forall w : R, w < 0 -> polylog (Fin w) 0 true = Ok NInf).
Proof.
  split; [exact polylog_positive_order|].
  split; [exact polylog_order_zero | exact polylog_order_zero_log].
Qed.

Lemma polylog_edge_orders_witness :
  polylog (Fin (1 / 2)) 3 false = Raise ValueError /\
  polylog (Fin (1 / 2)) 0 false = Ok NInf.
Proof.
  destruct polylog_edge_orders as (H1 & H2 & _).
  split; [apply H1; lia | apply H2; lra].
Defined.
